(** * Moon-Mod-Tools: loader, reload command, option parser and the
    message-delete deduplication window

  A shallow embedding of
  - [src/events/shutdown.mjs] (the [shutdown] and [reload] commands and
    the [Application] class: [loadOptions], [log], [importJSON],
    [safeImport], [toModulePath]),
  - [src/modules/logger/events/log.mjs] (the [messageUpdate],
    [messageDelete] and [raw] event handlers with the shared
    [messageDeleteTimer] variable), and
  - the pit manager's [pit] and the modmail message templates,
  together with the properties of these functions. *)

From Stdlib Require Import ZArith Lia.
From stdpp Require Import gmap strings list pretty.

Open Scope string_scope.
Open Scope list_scope.
Open Scope Z_scope.

(** ** JavaScript values and completions *)

Module JS.

(** The values the modelled code inspects.  Objects are property lists in
    enumeration order; functions are opaque. *)
#[local] Unset Elimination Schemes.
Inductive Val : Type :=
| VUndefined
| VNull
| VBool (b : bool)
| VNum (n : Z)
| VStr (s : string)
| VFun (name : string)
| VArr (items : list Val)
| VObj (props : list (string * Val)).
#[local] Set Elimination Schemes.

(** ToBoolean. *)
Definition truthy (v : Val) : bool :=
  match v with
  | VUndefined | VNull => false
  | VBool b => b
  | VNum n => negb (Z.eqb n 0)
  | VStr s => negb (String.eqb s "")
  | VFun _ | VArr _ | VObj _ => true
  end.

(** A thrown value (an [Error] object, identified by its description). *)
Definition Exn : Type := string.

(** Outcome of evaluating a statement list: normal completion with a value,
    or an exception travelling to the caller. *)
Inductive Completion (A : Type) : Type :=
| Normal (a : A)
| Throw (e : Exn).
Arguments Normal {A} a.
Arguments Throw {A} e.

(** Effectful code: the effects performed so far, in order, and the
    completion.  [E] is the type of observable effects. *)
Definition M (E A : Type) : Type := (list E * Completion A)%type.

Definition ret {E A} (a : A) : M E A := ([], Normal a).
Definition throw {E A} (e : Exn) : M E A := ([], Throw e).
Definition emit {E} (x : E) : M E unit := ([x], Normal tt).

Definition bind {E A B} (m : M E A) (k : A -> M E B) : M E B :=
  match m with
  | (w, Normal a) => let '(w', r) := k a in (w ++ w', r)
  | (w, Throw e) => (w, Throw e)
  end.

(** [try { m } catch (err) { ... }]: the exception becomes a value. *)
Definition try_ {E A} (m : M E A) : M E (Exn + A) :=
  match m with
  | (w, Normal a) => (w, Normal (inr a))
  | (w, Throw e) => (w, Normal (inl e))
  end.

Definition effects {E A} (m : M E A) : list E := fst m.
Definition completion {E A} (m : M E A) : Completion A := snd m.

Definition raises {A} (c : Completion A) : Prop :=
  match c with Throw _ => True | Normal _ => False end.

End JS.

Import JS.

#[export] Instance M_ret {E} : MRet (M E) := fun A => @JS.ret E A.
#[export] Instance M_bind {E} : MBind (M E) := fun A B k m => @JS.bind E A B m k.

(** ** [class Application] *)

Module Application.

(** *** [static loadOptions] *)

(** A value stored in [Application.options]: the argument that followed a
    flag, or the array of such arguments for a flag in [multiples]. *)
Inductive OptVal : Type :=
| OStr (s : string)
| OArr (l : list string).

(** The local variable [flag]. *)
Inductive FlagVar : Type :=
| FUndefined
| FNull
| FStr (s : string).

(** [flag] in a boolean position. *)
Definition flag_truthy (f : FlagVar) : bool :=
  match f with
  | FStr s => negb (String.eqb s "")
  | _ => false
  end.

(** [aliases[baseFlag].includes(arg)] *)
Definition includes (l : list string) (arg : string) : bool :=
  existsb (String.eqb arg) l.

(** [for (let baseFlag in aliases) if (aliases[baseFlag].includes(arg)) arg = baseFlag;]
    [aliases] is given as its properties in enumeration order. *)
Definition normalize (aliases : list (string * list string)) (arg : string) : string :=
  fold_left (fun a '(baseFlag, names) => if includes names a then baseFlag else a)
            aliases arg.

(** [Application.options] is created by the literal [{}]: besides its own
    properties it has the names it inherits from [Object.prototype]. *)
Definition Object_prototype : list string :=
  ["constructor"; "__defineGetter__"; "__defineSetter__"; "hasOwnProperty";
   "__lookupGetter__"; "__lookupSetter__"; "isPrototypeOf"; "propertyIsEnumerable";
   "toString"; "valueOf"; "__proto__"; "toLocaleString"].

(** What [this.options[flag]] evaluates to: the own property; else, for an
    inherited name, a function of [Object.prototype] (the prototype itself
    for [__proto__]); else [undefined]. *)
Inductive Property : Type :=
| Own (v : OptVal)
| Inherited
| Absent.

Definition property (options : gmap string OptVal) (flag : string) : Property :=
  match options !! flag with
  | Some v => Own v
  | None => if includes Object_prototype flag then Inherited else Absent
  end.

(** [!this.options[flag]] *)
Definition property_falsy (p : Property) : bool :=
  match p with
  | Own (OStr s) => String.eqb s ""
  | Own (OArr _) => false
  | Inherited => false
  | Absent => true
  end.

(** [this.options[flag] = arg] for a string [arg]: a new own property, but
    for the inherited accessor [__proto__], whose setter ignores a value
    that is not an object. *)
Definition assign (flag arg : string) (options : gmap string OptVal) : gmap string OptVal :=
  match property options flag with
  | Inherited => if String.eqb flag "__proto__" then options else <[flag := OStr arg]> options
  | _ => <[flag := OStr arg]> options
  end.

(** The [else] branch of the loop body: store [arg] under [flag]. *)
Definition store (multiples : list string) (flag arg : string)
           (options : gmap string OptVal) : Completion (gmap string OptVal) :=
  if includes multiples flag then
    if property_falsy (property options flag) then
      Normal (<[flag := OArr [arg]]> options)
    else
      match property options flag with
      | Own (OArr l) => Normal (<[flag := OArr (l ++ [arg])]> options)
      | _ => Throw "TypeError: this.options[flag].push is not a function"
      end
  else
    Normal (assign flag arg options).

(** One iteration of [for (let arg of process.argv.slice(2))]. *)
Definition loop_body (multiples : list string) (aliases : list (string * list string))
           (st : FlagVar * gmap string OptVal) (arg : string)
  : Completion (FlagVar * gmap string OptVal) :=
  let '(flag, options) := st in
  match flag with
  | FStr f =>
      if flag_truthy flag then
        match store multiples f arg options with
        | Normal options' => Normal (FNull, options')
        | Throw e => Throw e
        end
      else Normal (FStr (normalize aliases arg), options)
  | _ => Normal (FStr (normalize aliases arg), options)
  end.

Fixpoint loop (multiples : list string) (aliases : list (string * list string))
         (args : list string) (st : FlagVar * gmap string OptVal)
  : Completion (FlagVar * gmap string OptVal) :=
  match args with
  | [] => Normal st
  | arg :: rest =>
      match loop_body multiples aliases st arg with
      | Normal st' => loop multiples aliases rest st'
      | Throw e => Throw e
      end
  end.

(** The finishing step [if (flag) this.options._last = flag]. *)
Definition finish (r : Completion (FlagVar * gmap string OptVal)) : Completion (gmap string OptVal) :=
  match r with
  | Normal (flag, options') =>
      match flag with
      | FStr f => if flag_truthy flag then Normal (<["_last" := OStr f]> options')
                  else Normal options'
      | _ => Normal options'
      end
  | Throw e => Throw e
  end.

(** [loadOptions({multiples, aliases})], run on [process.argv] with
    [Application.options] holding [options] as its own properties;
    [multiples] and [aliases] are of the documented types, an array of
    strings and an object of arrays of strings. *)
Definition loadOptions (multiples : list string) (aliases : list (string * list string))
           (argv : list string) (options : gmap string OptVal)
  : Completion (gmap string OptVal) :=
  finish (loop multiples aliases (drop 2 argv) (FUndefined, options)).

(** The array a flag holds before an argument is pushed onto it. *)
Definition prior (options : gmap string OptVal) (f : string) : list string :=
  match options !! f with
  | Some (OArr l) => l
  | _ => []
  end.

(** The flag the documentation makes of an argument: the key of [aliases]
    whose array lists it, else the argument itself. *)
Definition resolve (aliases : list (string * list string)) (arg : string) : string :=
  match List.find (fun entry => includes (snd entry) arg) aliases with
  | Some entry => fst entry
  | None => arg
  end.

(** The parse as the documentation of [loadOptions] words it, written
    without the code's [store] and [normalize]: the arguments are taken two
    at a time, a flag and then its value; the value is added to the flag's
    array when the flag is in [multiples] and replaces the flag's value
    otherwise; a flag left over at the end goes under [_last]. *)
Fixpoint parse_pairs (multiples : list string) (aliases : list (string * list string))
         (args : list string) (options : gmap string OptVal)
  : Completion (gmap string OptVal) :=
  match args with
  | [] => Normal options
  | [flag] => Normal (<["_last" := OStr (resolve aliases flag)]> options)
  | flag :: value :: rest =>
      parse_pairs multiples aliases rest
        (<[resolve aliases flag :=
             if includes multiples (resolve aliases flag)
             then OArr (prior options (resolve aliases flag) ++ [value])
             else OStr value]> options)
  end.

(** The loop of [loadOptions] on arguments whose flags are truthy: two
    arguments per round, the second stored under the first. *)
Fixpoint pairs (multiples : list string) (aliases : list (string * list string))
         (args : list string) (options : gmap string OptVal)
  : Completion (gmap string OptVal) :=
  match args with
  | [] => Normal options
  | [flag] => Normal (<["_last" := OStr (normalize aliases flag)]> options)
  | flag :: value :: rest =>
      match store multiples (normalize aliases flag) value options with
      | Normal options' => pairs multiples aliases rest options'
      | Throw e => Throw e
      end
  end.

(** The arguments in flag position under strict alternation. *)
Fixpoint flag_positions (args : list string) : list string :=
  match args with
  | [] => []
  | [flag] => [flag]
  | flag :: _ :: rest => flag :: flag_positions rest
  end.

(** *** [static log] and its shortcuts *)

Inductive Stream : Type := ConsoleError | ConsoleWarn | ConsoleDebug | ConsoleLog.

(** An argument handed to a console function: a string or a caught error. *)
Inductive LogArg : Type :=
| LStr (s : string)
| LErr (e : Exn).

(** What [Application] does to the outside: console output, the
    accessibility probe and the native [import()] call. *)
Inductive Effect : Type :=
| Console (func : Stream) (args : list LogArg)
| FsAccess (filename : string)
| NativeImport (filepath : string) (options : gmap string Val).

(** The Node.js host: [process.title], the clock ([toUTCString()] of the
    current date and [Date.now()]), [fs.access], [path.resolve] and the
    native [import()].  [fs_access] gives the error it rejects with, if
    any; [native_import] gives the module namespace or the error. *)
Record Host : Type := {
  process_title : string;
  utc_string : string;
  date_now : Z;
  fs_access : string -> option Exn;
  path_resolve : string -> string;
  native_import : string -> gmap string Val -> Exn + gmap string Val
}.

(** ["\x1b"] *)
Definition esc : string := String (Ascii.ascii_of_nat 27) "".

Definition log (h : Host) (type : string) (args : list LogArg) : M Effect unit :=
  let powershell := String.eqb (process_title h) "Windows PowerShell" in
  let plan : option (Stream * string * string) :=
    if String.eqb type "error" then
      if powershell then Some (ConsoleError, esc +:+ "[30m" +:+ esc +:+ "[101m", esc +:+ "[0m")
      else Some (ConsoleError, "", "")
    else if String.eqb type "warn" then
      if powershell then Some (ConsoleWarn, esc +:+ "[30m" +:+ esc +:+ "[103m", esc +:+ "[0m")
      else Some (ConsoleWarn, "", "")
    else if String.eqb type "debug" then
      if powershell then Some (ConsoleDebug, esc +:+ "[30m" +:+ esc +:+ "[100m", esc +:+ "[0m")
      else None
    else Some (ConsoleLog, "", "") in
  match plan with
  | None => JS.ret tt
  | Some (func, opener, closer) =>
      JS.emit (Console func (LStr (opener +:+ "[" +:+ utc_string h +:+ "]" +:+ closer) :: args))
  end.

Definition logError (h : Host) (args : list LogArg) : M Effect unit := log h "error" args.
Definition logWarn (h : Host) (args : list LogArg) : M Effect unit := log h "warn" args.
Definition logInfo (h : Host) (args : list LogArg) : M Effect unit := log h "info" args.
Definition logDebug (h : Host) (args : list LogArg) : M Effect unit := log h "debug" args.

(** *** [static toModulePath] and [static safeImport] *)

Definition toModulePath (h : Host) (filename append : string) : string :=
  "file:" +:+ path_resolve h filename +:+ append.

(** [await fs.access(filename)] *)
Definition access (h : Host) (filename : string) : M Effect unit :=
  _ ← JS.emit (FsAccess filename);
  match fs_access h filename with
  | None => JS.ret tt
  | Some err => JS.throw err
  end.

(** [await import(filepath, options)] *)
Definition import (h : Host) (filepath : string) (options : gmap string Val)
  : M Effect (gmap string Val) :=
  _ ← JS.emit (NativeImport filepath options);
  match native_import h filepath options with
  | inr module => JS.ret module
  | inl err => JS.throw err
  end.

(** The suffix computed between the two [try] blocks. *)
Definition append_of (h : Host) (options : gmap string Val) : string :=
  match options !! "reload" with
  | Some reload => if truthy reload then "?t=" +:+ pretty (date_now h) else ""
  | None => ""
  end.

(** The [options] argument of [safeImport]: [null] (a primitive behaves
    alike), an ordinary object with its own data properties, or such an
    object whose properties cannot be deleted ([Object.freeze],
    [Object.seal]).  Accessor properties and proxies are left out. *)
Inductive Options : Type :=
| Null
| Plain (props : gmap string Val)
| Frozen (props : gmap string Val).

(** The statements between the two [try] blocks: the suffix, and the
    options without [reload].  Module code is strict, so that [in] throws
    on [null] and [delete] throws on a property that cannot be deleted. *)
Definition take_reload (h : Host) (options : Options) : M Effect (string * gmap string Val) :=
  match options with
  | Null => JS.throw "TypeError: Cannot use 'in' operator to search for 'reload' in null"
  | Plain props => JS.ret (append_of h props, delete "reload" props)
  | Frozen props =>
      match props !! "reload" with
      | Some _ => JS.throw "TypeError: Cannot delete property 'reload' of #<Object>"
      | None => JS.ret (append_of h props, delete "reload" props)
      end
  end.

(** [safeImport(filename, options)].  The result is the module namespace, or
    [None] for [undefined] (a bare [return;]). *)
Definition safeImport (h : Host) (filename : string) (options : Options)
  : M Effect (option (gmap string Val)) :=
  r ← JS.try_ (access h filename);
  match r with
  | inl err =>
      _ ← logError h [LStr ("File '" +:+ filename +:+ "' is not accessible for import."); LErr err];
      JS.ret None
  | inr _ =>
      taken ← take_reload h options;
      let append := fst taken in
      let options := snd taken in
      r ← JS.try_ (let filepath := toModulePath h filename append in
                   _ ← logDebug h [LStr ("Importing module '" +:+ filepath +:+ "'.")];
                   import h filepath options);
      match r with
      | inr module => JS.ret (Some module)
      | inl err =>
          _ ← logError h [LStr ("File '" +:+ filename +:+ append +:+ "' cannot be imported by Node.js."); LErr err];
          JS.ret None
      end
  end.

(** The locators handed to the native [import()] during a run. *)
Definition imports (es : list Effect) : list string :=
  omap (fun e => match e with NativeImport filepath _ => Some filepath | _ => None end) es.

(** [options.reload] is present and truthy. *)
Definition fresh (options : gmap string Val) : bool :=
  match options !! "reload" with
  | Some reload => truthy reload
  | None => false
  end.

(** [importJSON(filename)]: [(await this.safeImport(...))?.default] *)
Definition importJSON (h : Host) (filename : string) : M Effect Val :=
  r ← safeImport h filename (Plain {[ "with" := VObj [("type", VStr "json")] ]});
  JS.ret match r with
         | Some module => default VUndefined (module !! "default")
         | None => VUndefined
         end.

(** The values that follow the occurrences of the flag [f] (after
    normalization) in an alternating argument list, in order. *)
Fixpoint values_for (aliases : list (string * list string)) (f : string)
         (args : list string) : list string :=
  match args with
  | flag :: value :: rest =>
      if String.eqb (normalize aliases flag) f
      then value :: values_for aliases f rest
      else values_for aliases f rest
  | _ => []
  end.

(** No flag listed in [multiples] gives, in [options], a truthy value that
    is not an array (a non-empty string, or what [Object.prototype] has
    under the name): the state in which [push] is never found missing. *)
Definition multiples_ok (multiples : list string) (options : gmap string OptVal) : Prop :=
  forall f, includes multiples f = true ->
            match property options f with
            | Own (OStr s) => s = ""
            | Own (OArr _) => True
            | Inherited => False
            | Absent => True
            end.

(** No key of the alias table is listed under a later key, so that the
    alias loop renames an argument at most once. *)
Fixpoint unchained (aliases : list (string * list string)) : Prop :=
  match aliases with
  | [] => True
  | (baseFlag, _) :: rest =>
      Forall (fun entry => includes (snd entry) baseFlag = false) rest /\ unchained rest
  end.

(** The alias table does not list [arg] under any flag. *)
Definition unlisted (aliases : list (string * list string)) (arg : string) : Prop :=
  Forall (fun entry => includes (snd entry) arg = false) aliases.

(** The console function [log] picks for a message type. *)
Definition stream_of (type : string) : Stream :=
  if String.eqb type "error" then ConsoleError
  else if String.eqb type "warn" then ConsoleWarn
  else if String.eqb type "debug" then ConsoleDebug
  else ConsoleLog.

(** The console calls among the effects of a run. *)
Definition console (es : list Effect) : list (Stream * list LogArg) :=
  omap (fun e => match e with Console func args => Some (func, args) | _ => None end) es.

(** The options on which the statements between the two [try] blocks
    throw: [null], or a frozen object that has the [reload] property. *)
Definition unusable (options : Options) : Prop :=
  match options with
  | Null => True
  | Plain _ => False
  | Frozen props => props !! "reload" <> None
  end.

(** The own properties of an [options] object. *)
Definition properties (options : Options) : gmap string Val :=
  match options with
  | Null => ∅
  | Plain props | Frozen props => props
  end.

(** The options handed to the native [import()] during a run. *)
Definition import_options (es : list Effect) : list (gmap string Val) :=
  omap (fun e => match e with NativeImport _ options => Some options | _ => None end) es.

End Application.

(** ** The [shutdown] and [reload] slash commands *)

Module Commands.

(** What a command handler does to the outside. *)
Inductive Effect : Type :=
| Reply (content : string) (ephemeral : bool)
| RegisterEventHandlerFile (file : Val) (mode : string)
| OnShutdown.

(** [this.master]: the bot object.  [registerEventHandlerFile] is defined
    outside the modelled files; it is taken as it is called, with its
    returned value or the exception it rejects with. *)
Record Master : Type := {
  registerEventHandlerFile : Val -> string -> Completion Val;
  _onShutdown : Completion unit
}.

(** The part of a [ChatInputCommandInteraction] the handlers read. *)
Record Interaction : Type := {
  getSubcommand : string;
  getString : string -> Val
}.

Definition reply (content : string) (ephemeral : bool) : M Effect unit :=
  JS.emit (Reply content ephemeral).

Definition lift {A} (e : Effect) (c : Completion A) : M Effect A := ([e], c).

Module Shutdown.

Definition handler (master : Master) (interaction : Interaction) : M Effect unit :=
  _ ← reply "See ya." true;
  lift OnShutdown (_onShutdown master).

Definition definition : Val :=
  VObj [("name", VStr "shutdown");
        ("description", VStr "Gracefully shuts down the bot.")].

End Shutdown.

Module Reload.

Definition handler (master : Master) (interaction : Interaction) : M Effect unit :=
  let type := getSubcommand interaction in
  if String.eqb type "event" then
    let file := getString interaction "file" in
    ok ← lift (RegisterEventHandlerFile file "reload")
              (registerEventHandlerFile master file "reload");
    if truthy ok then reply "Reloaded." true
    else reply "Could not reload." true
  else if String.eqb type "slash" then
    let command := getString interaction "command" in
    reply "Doesn't work yet." true
  else JS.ret tt.

Definition definition : Val :=
  VObj [("name", VStr "reload");
        ("description", VStr "Reload a module.");
        ("options", VArr [
           VObj [("type", VNum 1);
                 ("name", VStr "event");
                 ("description", VStr "Reload an event handler.");
                 ("options", VArr [
                    VObj [("name", VStr "file");
                          ("description", VStr "The file with the event handler definitions.");
                          ("type", VNum 3);
                          ("required", VBool true)]])];
           VObj [("type", VNum 1);
                 ("name", VStr "slash");
                 ("description", VStr "Reload a slash command.");
                 ("options", VArr [
                    VObj [("name", VStr "command");
                          ("description", VStr "Name of the slash command.");
                          ("type", VNum 3);
                          ("required", VBool true)]])]])].

(** Property lookup [o.key] on an object literal. *)
Definition get (key : string) (o : Val) : Val :=
  match o with
  | VObj props =>
      match find (fun kv => String.eqb (fst kv) key) props with
      | Some kv => snd kv
      | None => VUndefined
      end
  | _ => VUndefined
  end.

(** The names of the subcommands (options of type 1) a definition declares:
    the values [getSubcommand] can return for it. *)
Definition subcommands (def : Val) : list string :=
  match get "options" def with
  | VArr opts =>
      omap (fun o => match get "type" o, get "name" o with
                     | VNum 1, VStr n => Some n
                     | _, _ => None
                     end) opts
  | _ => []
  end.

(** The replies among the effects of a run. *)
Definition replies (es : list Effect) : list string :=
  omap (fun e => match e with Reply content _ => Some content | _ => None end) es.

(** The reload attempts among the effects of a run. *)
Definition reload_attempts (es : list Effect) : list Val :=
  omap (fun e => match e with RegisterEventHandlerFile f _ => Some f | _ => None end) es.

End Reload.

End Commands.

(** ** The logger module's event handlers ([log.mjs]) *)

Module Logger.

(** *** Data *)

(** A snowflake-valued property that may be missing: [guildId],
    [packet.d.guild_id]. *)
Inductive Id : Type :=
| IdUndefined
| IdNull
| IdStr (s : string).

(** [a === b] *)
Definition Id_eqb (a b : Id) : bool :=
  match a, b with
  | IdUndefined, IdUndefined => true
  | IdNull, IdNull => true
  | IdStr x, IdStr y => String.eqb x y
  | _, _ => false
  end.

Record Channel : Type := {
  channel_id : string;
  channel_guildId : Id
}.

(** [`${channel}`]: the channel mention. *)
Definition channel_toString (ch : Channel) : string := "<#" +:+ channel_id ch +:+ ">".

Record User : Type := {
  user_id : string;
  username : string
}.

(** [`${author}`]: the user mention. *)
Definition user_toString (u : User) : string := "<@" +:+ user_id u +:+ ">".

(** An attachment.  [att_contentType], [att_width] and [att_height] are
    [None] for [null] (discord.js gives [null] where Discord sent no
    value); [att_duration] is the text [`${attachment.duration}`]. *)
Record Attachment : Type := {
  att_name : string;
  att_url : string;
  att_contentType : option string;
  att_size : Z;
  att_width : option Z;
  att_height : option Z;
  att_duration : string
}.

(** A message object as the handlers read it.  [msg_content] is [None] when
    the object has no [content] property, [msg_author] and [msg_url] are
    [None] when the property is missing; [msg_attachments] is the collection
    in iteration order (empty when the property is missing). *)
Record Message : Type := {
  msg_id : string;
  msg_channel : Channel;
  msg_channelId : string;
  msg_guildId : Id;
  msg_partial : bool;
  msg_content : option string;
  msg_author : option User;
  msg_url : option string;
  msg_editedTimestamp : option Z;
  msg_attachments : list (string * Attachment)
}.

(** [packet.d] of a gateway packet.  [d_timestamp] is
    [Date.parse(packet.d.timestamp)], [None] standing for [NaN]. *)
Record PacketData : Type := {
  d_id : string;
  d_channel_id : string;
  d_guild_id : Id;
  d_timestamp : option Z
}.

Record Packet : Type := {
  t : string;
  d : PacketData
}.

Record Embed : Type := {
  title : string;
  description : string;
  color : option Z;
  fields : list (string * Val)
}.

(** What the handlers do to the outside. *)
Inductive Effect : Type :=
| MasterLogDebug (text : string) (packet : Packet)
| EmitMessageUpdate (oldMessage : option Message) (newMessage : Message)
| Send (logChannel : Channel) (embeds : list Embed) (files : list Attachment)
| UnhandledRejection (e : Exn).

(** [this]: the discord.js client with the bot's option.  The fetches give
    the fetched object or the error the promise rejects with, and
    [channel_send] what the promise of [channel.send(...)] settles with;
    [readyTimestamp] is [None] while it is [null]. *)
Record Client : Type := {
  readyTimestamp : option Z;
  logChannelId : string;
  channels_fetch : string -> Exn + Channel;
  messages_fetch : Channel -> string -> Exn + Message;
  message_fetch : Message -> Exn + Message;
  channel_send : Channel -> list Embed -> list Attachment -> Exn + unit
}.

Definition await {A} (r : Exn + A) : M Effect A :=
  match r with
  | inr a => JS.ret a
  | inl e => JS.throw e
  end.

(** *** [attachmentToEmbed] *)

Definition number_truthy (n : option Z) : bool :=
  match n with
  | Some z => negb (Z.eqb z 0)
  | None => false
  end.

Definition number_toString (n : option Z) : string :=
  match n with
  | Some z => pretty z
  | None => "null"
  end.

(** [attachmentToEmbed(attachment, {title})].  A [null] content type makes
    [attachment.contentType.startsWith] throw. *)
Definition attachmentToEmbed (attachment : Attachment) (title_overwrite : string)
  : Completion Embed :=
  match att_contentType attachment with
  | None => Throw "TypeError: Cannot read properties of null (reading 'startsWith')"
  | Some contentType =>
      Normal
        {| title := title_overwrite;
           description := "";
           color := None;
           fields :=
             [("Name", VStr (att_name attachment));
              ("Content Type", VStr contentType);
              ("Size (Bytes)", VNum (att_size attachment))]
             ++ (if number_truthy (att_width attachment) && number_truthy (att_height attachment)
                 then [("Size (Pixels)",
                        VStr (number_toString (att_width attachment) +:+ "x"
                              +:+ number_toString (att_height attachment)))]
                 else [])
             ++ (if String.prefix "audio/" contentType
                 then [("Duration", VStr (att_duration attachment +:+ "s"))]
                 else []) |}
  end.

(** The embeds a loop pushes, one [attachmentToEmbed] call per attachment
    with its title, up to the first call that throws. *)
Fixpoint embeds_of (changes : list (Attachment * string)) : Completion (list Embed) :=
  match changes with
  | [] => Normal []
  | (attachment, title_overwrite) :: rest =>
      match attachmentToEmbed attachment title_overwrite with
      | Normal embed =>
          match embeds_of rest with
          | Normal embeds => Normal (embed :: embeds)
          | Throw e => Throw e
          end
      | Throw e => Throw e
      end
  end.

(** [await logChannel.send({embeds, files})] *)
Definition send (c : Client) (logChannel : Channel) (embeds : list Embed)
           (files : list Attachment) : M Effect unit :=
  _ ← JS.emit (Send logChannel embeds files);
  await (channel_send c logChannel embeds files).

(** *** [messageUpdate] *)

(** [attachments.has(attachmentId)] *)
Definition has (attachments : list (string * Attachment)) (attachmentId : string) : bool :=
  existsb (fun kv => String.eqb (fst kv) attachmentId) attachments.

(** [list.map(a => `[${a.name}](${a.url}) (${a.contentType})`).join(', ')] *)
Definition attach_list (l : list Attachment) : string :=
  String.concat ", "
    (map (fun a => "[" +:+ att_name a +:+ "](" +:+ att_url a +:+ ") ("
                   +:+ default "null" (att_contentType a) +:+ ")") l).

Definition nonempty (s : string) : bool := negb (String.eqb s "").

(** [Math.round(ts/1000)] for an integer or [null] timestamp. *)
Definition round_seconds (ts : option Z) : Z :=
  match ts with
  | Some n => (n + 500) / 1000
  | None => 0
  end.

Definition uh_oh : string * Val :=
  ("Uh oh!", VStr "Old message content can't be fetched, because it is too old.").

Definition content_value (m : Message) : Val :=
  match msg_content m with
  | Some s => VStr s
  | None => VUndefined
  end.

Definition url_text (m : Message) : string := default "undefined" (msg_url m).

(** The [mainFields] array [messageUpdate] builds. *)
Definition messageUpdate_mainFields (oldMessage : option Message) (newMessage : Message)
  : list (string * Val) :=
  let oldAttachList := attach_list (map snd (from_option msg_attachments [] oldMessage)) in
  let newAttachList := attach_list (map snd (msg_attachments newMessage)) in
  (match oldMessage with
   | Some old =>
       match msg_content old with
       | Some content =>
           ("Old Message", VStr content)
           :: (if nonempty oldAttachList then [("Old Attachments", VStr oldAttachList)] else [])
       | None => [uh_oh]
       end
   | None => [uh_oh]
   end)
  ++ [("New Message", content_value newMessage)]
  ++ (if nonempty newAttachList then [("New Attachments", VStr newAttachList)] else [])
  ++ [("Link", VStr (channel_toString (msg_channel newMessage) +:+ " / " +:+ url_text newMessage));
      ("When", VStr ("<t:" +:+ pretty (round_seconds (msg_editedTimestamp newMessage)) +:+ ":R>"))].

(** The attachments an edit removed or added, in the order the two loops
    visit them.  (The guard around the loops only skips them when both
    collections are empty, where they would do nothing.) *)
Definition messageUpdate_changes (oldMessage : option Message) (newMessage : Message)
  : list (Attachment * string) :=
  let olds := from_option msg_attachments [] oldMessage in
  let news := msg_attachments newMessage in
  map (fun kv => (snd kv, "Attachment Removed"))
      (List.filter (fun kv => negb (has news (fst kv))) olds)
  ++ map (fun kv => (snd kv, "Attachment Added"))
      (List.filter (fun kv => match oldMessage with
                         | Some old => negb (has (msg_attachments old) (fst kv))
                         | None => true
                         end) news).

Definition messageUpdate (c : Client) (oldMessage : option Message) (newMessage : Message)
  : M Effect unit :=
  oldMessage ← match oldMessage with
               | Some old => if msg_partial old
                             then old' ← await (message_fetch c old); JS.ret (Some old')
                             else JS.ret (Some old)
               | None => JS.ret None
               end;
  newMessage ← (if msg_partial newMessage then await (message_fetch c newMessage)
                else JS.ret newMessage);
  logChannel ← await (channels_fetch c (logChannelId c));
  if negb (Id_eqb (channel_guildId logChannel) (msg_guildId newMessage)) then JS.ret tt
  else
    let changes := messageUpdate_changes oldMessage newMessage in
    embeds ← (([], embeds_of changes) : M Effect (list Embed));
    let mainFields := messageUpdate_mainFields oldMessage newMessage in
    match msg_author newMessage with
    | None => JS.throw "TypeError: Cannot read properties of undefined (reading 'username')"
    | Some author =>
        let main :=
          {| title := "Message Updated";
             description := "`" +:+ username author +:+ "` " +:+ user_toString author
                            +:+ " (" +:+ user_id author +:+ ")";
             color := Some 6711039;
             fields := mainFields |} in
        send c logChannel (main :: embeds) (map fst changes)
    end.

(** *** The body of [messageDelete] after the timer bookkeeping

    [now] is the value of [Date.now()] when the fields are built. *)

Definition messageDelete_mainFields (now : Z) (message : Message) : list (string * Val) :=
  (match msg_content message with
   | Some content =>
       [("Message", VStr content);
        ("Link", VStr (channel_toString (msg_channel message) +:+ " / " +:+ url_text message))]
   | None => [uh_oh]
   end)
  ++ [("When", VStr ("<t:" +:+ pretty (round_seconds (Some now)) +:+ ":R>"))].

Definition messageDelete_log (c : Client) (now : Z) (message : Message) : M Effect unit :=
  message ← (if msg_partial message then await (message_fetch c message)
             else JS.ret message);
  logChannel ← await (channels_fetch c (logChannelId c));
  if negb (Id_eqb (channel_guildId logChannel) (msg_guildId message)) then JS.ret tt
  else
    let attachments := map snd (msg_attachments message) in
    embeds ← (([], embeds_of (map (fun a => (a, "Attachment Removed")) attachments))
              : M Effect (list Embed));
    let main :=
      {| title := "Message Deleted";
         description :=
           match msg_author message with
           | Some author => "`" +:+ username author +:+ "` " +:+ user_toString author
                            +:+ " (" +:+ user_id author +:+ ")"
           | None => "in channel " +:+ channel_toString (msg_channel message)
           end;
         color := Some 16711680;
         fields := messageDelete_mainFields now message |} in
    send c logChannel (main :: embeds) attachments.

(** *** The shared variable [messageDeleteTimer] and the timers *)

(** The values [messageDeleteTimer] takes: [undefined] initially, [null],
    [true], or the [Timeout] object [setTimeout] returned. *)
Inductive TimerVar : Type :=
| TUndefined
| TNull
| TTrue
| TTimeout (handle : nat).

#[export] Instance TimerVar_eq_dec : EqDecision TimerVar := ltac:(solve_decision).

Definition timer_truthy (v : TimerVar) : bool :=
  match v with
  | TTrue | TTimeout _ => true
  | TUndefined | TNull => false
  end.

(** A scheduled callback [()=>{ this.emit('messageDelete', payload) }]: its
    handle, the time from which it may run and the object it will emit. *)
Record Timer : Type := {
  handle : nat;
  due : Z;
  payload : Message
}.

(** Who called the [messageDelete] handler: discord.js with a cached
    message, or the callback of the timer with the given handle. *)
Inductive Origin : Type :=
| FromGateway
| FromTimer (handle : nat).

(** One call of the [messageDelete] handler: when, by whom, with which
    message, and what its logging part did. *)
Record Dispatch : Type := {
  at_time : Z;
  origin : Origin;
  message : Message;
  outcome : M Effect unit
}.

(** The module's state with the host's timer queue and clock.  [journal]
    lists the calls of the [messageDelete] handler, latest first. *)
Record World : Type := {
  clock : Z;
  messageDeleteTimer : TimerVar;
  timers : list Timer;
  next_handle : nat;
  journal : list Dispatch
}.

Definition initial (now : Z) : World :=
  {| clock := now; messageDeleteTimer := TUndefined; timers := [];
     next_handle := 0; journal := [] |}.

Definition handle_eqb (h : nat) (tm : Timer) : bool := Nat.eqb (handle tm) h.

(** [clearTimeout(v)]: removes the timer when [v] is a pending [Timeout];
    any other value is ignored. *)
Definition clearTimeout (v : TimerVar) (pending : list Timer) : list Timer :=
  match v with
  | TTimeout h => List.filter (fun tm => negb (handle_eqb h tm)) pending
  | _ => pending
  end.

(** *** [messageDelete] *)

(** The journal entry of a call of the handler at time [now]. *)
Definition dispatch (c : Client) (now : Z) (who : Origin) (msg : Message) : Dispatch :=
  {| at_time := now; origin := who; message := msg;
     outcome := messageDelete_log c now msg |}.

Definition messageDelete (c : Client) (who : Origin) (msg : Message) (w : World) : World :=
  let entry := dispatch c (clock w) who msg in
  if timer_truthy (messageDeleteTimer w) then
    {| clock := clock w;
       messageDeleteTimer := TNull;
       timers := clearTimeout (messageDeleteTimer w) (timers w);
       next_handle := next_handle w;
       journal := entry :: journal w |}
  else
    {| clock := clock w;
       messageDeleteTimer := TTrue;
       timers := timers w;
       next_handle := next_handle w;
       journal := entry :: journal w |}.

(** *** [raw] *)

(** [timestamp < this.readyTimestamp]: false for [NaN], [null] counts as 0. *)
Definition before_ready (timestamp : option Z) (ready : option Z) : bool :=
  match timestamp with
  | Some ts => Z.ltb ts (default 0 ready)
  | None => false
  end.

(** A handler called by [emit]: its promise is dropped, so an exception it
    ends with does not reach the emitter. *)
Definition listener (m : M Effect unit) : M Effect unit :=
  match m with
  | (es, Throw e) => (es ++ [UnhandledRejection e], Normal tt)
  | (es, Normal _) => (es, Normal tt)
  end.

(** [this.emit('messageUpdate', oldMessage, newMessage)] *)
Definition emit_messageUpdate (c : Client) (oldMessage : option Message) (newMessage : Message)
  : M Effect unit :=
  _ ← JS.emit (EmitMessageUpdate oldMessage newMessage);
  listener (messageUpdate c oldMessage newMessage).

(** [{id:packet.d.id, channel, channelId:packet.d.channel_id, guildId:packet.d.guild_id}] *)
Definition synthesized (packet : Packet) (channel : Channel) : Message :=
  {| msg_id := d_id (d packet);
     msg_channel := channel;
     msg_channelId := d_channel_id (d packet);
     msg_guildId := d_guild_id (d packet);
     msg_partial := false;
     msg_content := None;
     msg_author := None;
     msg_url := None;
     msg_editedTimestamp := None;
     msg_attachments := [] |}.

(** The window duration. *)
Definition window : Z := 500.

(** [messageDeleteTimer = setTimeout(()=>{...}, 500)] *)
Definition arm (msg : Message) (w : World) : World :=
  {| clock := clock w;
     messageDeleteTimer := TTimeout (next_handle w);
     timers := timers w ++ [{| handle := next_handle w; due := clock w + window; payload := msg |}];
     next_handle := S (next_handle w);
     journal := journal w |}.

Definition disarm (w : World) : World :=
  {| clock := clock w;
     messageDeleteTimer := TNull;
     timers := timers w;
     next_handle := next_handle w;
     journal := journal w |}.

(** [raw(packet)].  For [MESSAGE_DELETE] the variable is read and written
    after [await this.channels.fetch(...)], in one synchronous run: [w] is
    the world at that moment. *)
Definition raw (c : Client) (packet : Packet) (w : World) : World * M Effect unit :=
  if String.eqb (t packet) "MESSAGE_UPDATE" then
    (w,
     _ ← JS.emit (MasterLogDebug "Raw Event:" packet);
     if before_ready (d_timestamp (d packet)) (readyTimestamp c) then
       channel ← await (channels_fetch c (d_channel_id (d packet)));
       msg ← await (messages_fetch c channel (d_id (d packet)));
       emit_messageUpdate c None msg
     else JS.ret tt)
  else if String.eqb (t packet) "MESSAGE_DELETE" then
    match channels_fetch c (d_channel_id (d packet)) with
    | inl e => (w, JS.throw e)
    | inr channel =>
        if negb (timer_truthy (messageDeleteTimer w))
        then (arm (synthesized packet channel) w, JS.ret tt)
        else (disarm w, JS.ret tt)
    end
  else (w, JS.ret tt).

(** *** The host's timer queue *)

(** The timer with handle [h] runs: it leaves the queue and its callback
    emits [messageDelete], which calls the handler. *)
Definition fire (c : Client) (h : nat) (w : World) : World :=
  match find (handle_eqb h) (timers w) with
  | Some tm =>
      messageDelete c (FromTimer h) (payload tm)
        {| clock := clock w;
           messageDeleteTimer := messageDeleteTimer w;
           timers := List.filter (fun x => negb (handle_eqb h x)) (timers w);
           next_handle := next_handle w;
           journal := journal w |}
  | None => w
  end.

Definition set_clock (now : Z) (w : World) : World :=
  {| clock := now;
     messageDeleteTimer := messageDeleteTimer w;
     timers := timers w;
     next_handle := next_handle w;
     journal := journal w |}.

(** What can happen to the module: time passes, a due timer runs,
    discord.js emits [messageDelete] for a cached message, a [raw] handler
    reaches its continuation. *)
Inductive Label : Type :=
| LTick (now : Z)
| LFire (h : nat)
| LStructured (msg : Message)
| LRaw (packet : Packet).

Inductive step (c : Client) : World -> Label -> World -> Prop :=
| step_tick w now :
    clock w <= now ->
    step c w (LTick now) (set_clock now w)
| step_fire w tm :
    In tm (timers w) ->
    due tm <= clock w ->
    step c w (LFire (handle tm)) (fire c (handle tm) w)
| step_structured w msg :
    step c w (LStructured msg) (messageDelete c FromGateway msg w)
| step_raw w packet :
    step c w (LRaw packet) (fst (raw c packet w)).

(** Runs of the module. *)
Inductive steps (c : Client) : World -> list Label -> World -> Prop :=
| steps_nil w : steps c w [] w
| steps_cons w l w' ls w'' : step c w l w' -> steps c w' ls w'' -> steps c w (l :: ls) w''.

Definition reachable (c : Client) (w : World) : Prop :=
  exists now ls, steps c (initial now) ls w.

(** Runs in which nothing is observed: only time passes and timers run. *)
Inductive quiet (c : Client) : World -> World -> Prop :=
| quiet_refl w : quiet c w w
| quiet_tick w now w' : clock w <= now -> quiet c (set_clock now w) w' -> quiet c w w'
| quiet_fire w tm w' :
    In tm (timers w) -> due tm <= clock w ->
    quiet c (fire c (handle tm) w) w' -> quiet c w w'.

(** *** A deterministic event loop *)

(** The pending timer that runs next: the earliest due, the older one
    among equals. *)
Fixpoint earliest (pending : list Timer) : option Timer :=
  match pending with
  | [] => None
  | tm :: rest =>
      match earliest rest with
      | Some tm' => if Z.ltb (due tm') (due tm) then Some tm' else Some tm
      | None => Some tm
      end
  end.

Fixpoint advance_loop (fuel : nat) (c : Client) (now : Z) (w : World) : World :=
  match fuel with
  | O => set_clock (Z.max (clock w) now) w
  | S fuel' =>
      match earliest (timers w) with
      | Some tm =>
          if Z.leb (due tm) now
          then advance_loop fuel' c now
                 (fire c (handle tm) (set_clock (Z.max (clock w) (due tm)) w))
          else set_clock (Z.max (clock w) now) w
      | None => set_clock (Z.max (clock w) now) w
      end
  end.

(** An event loop without delay: time passes until [now], and every timer
    due by then runs exactly at its due time.  It is one of the runs the
    step relation allows; there a due timer may also run later. *)
Definition advance (c : Client) (now : Z) (w : World) : World :=
  advance_loop (length (timers w)) c now w.

(** An observation arriving at the module. *)
Inductive Obs : Type :=
| Structured (msg : Message)
| Raw (packet : Packet).

Definition observe (c : Client) (o : Obs) (w : World) : World :=
  match o with
  | Structured msg => messageDelete c FromGateway msg w
  | Raw packet => fst (raw c packet w)
  end.

(** The observations arrive at the given times; then time passes until
    [horizon]. *)
Definition run (c : Client) (events : list (Z * Obs)) (horizon : Z) (w : World) : World :=
  advance c horizon
    (fold_left (fun w ev => observe c (snd ev) (advance c (fst ev) w)) events w).

(** The key of a dispatch: the id of the deleted message. *)
Definition dispatches_of (key : string) (w : World) : list Dispatch :=
  List.filter (fun e => String.eqb (msg_id (message e)) key) (journal w).

Definition pending_of (key : string) (w : World) : list Timer :=
  List.filter (fun tm => String.eqb (msg_id (payload tm)) key) (timers w).



Definition idle (w : World) : Prop :=
  timer_truthy (messageDeleteTimer w) = false /\ timers w = [].

(** The [messageUpdate] events emitted during a run, as (old, new). *)
Definition emitted (es : list Effect) : list (option Message * Message) :=
  omap (fun e => match e with
                 | EmitMessageUpdate oldMessage newMessage => Some (oldMessage, newMessage)
                 | _ => None
                 end) es.

(** The message [raw] fetches for a [MESSAGE_UPDATE] packet, when both
    fetches resolve. *)
Definition fetched (c : Client) (packet : Packet) : option Message :=
  match channels_fetch c (d_channel_id (d packet)) with
  | inr channel =>
      match messages_fetch c channel (d_id (d packet)) with
      | inr msg => Some msg
      | inl _ => None
      end
  | inl _ => None
  end.




(** The labels that call the [messageDelete] handler. *)
Definition calls_handler (l : Label) : bool :=
  match l with
  | LStructured _ | LFire _ => true
  | LTick _ | LRaw _ => false
  end.

(** The step from [w] to [w'] took the pending timer [tm] out of the queue
    without running it. *)
Definition cancelled (w : World) (l : Label) (w' : World) (tm : Timer) : Prop :=
  In tm (timers w) /\ ~ In tm (timers w') /\ l <> LFire (handle tm).


(** *** Deletions one after the other *)

(** A deletion as the module meets it: of a message discord.js has not
    cached (the [raw] packet alone), or of a cached one (the structured
    notification, then the continuation of the [raw] handler).  [channel]
    is what the packet's channel id is fetched as. *)
Inductive Occurrence : Type :=
| Uncached (packet : Packet) (channel : Channel)
| Cached (msg : Message) (packet : Packet) (channel : Channel).

Definition occurrence_packet (o : Occurrence) : Packet :=
  match o with
  | Uncached packet _ => packet
  | Cached _ packet _ => packet
  end.

Definition occurrence_channel (o : Occurrence) : Channel :=
  match o with
  | Uncached _ channel => channel
  | Cached _ _ channel => channel
  end.

(** The packet of the deletion is a [MESSAGE_DELETE] whose channel is
    fetched as the occurrence has it. *)
Definition fetchable (c : Client) (o : Occurrence) : Prop :=
  t (occurrence_packet o) = "MESSAGE_DELETE"
  /\ channels_fetch c (d_channel_id (d (occurrence_packet o))) = inr (occurrence_channel o).

(** Deletions met one after the other: each is observed, and the timer it
    leaves has run, before the next one is observed.  In between only time
    passes and due timers run, at their due time or at any later time. *)
Inductive serial (c : Client) : World -> list Occurrence -> World -> Prop :=
| serial_nil w w' :
    quiet c w w' ->
    serial c w [] w'
| serial_uncached w w1 w2 w' packet channel rest :
    quiet c w w1 ->
    quiet c (fst (raw c packet w1)) w2 ->
    timers w2 = [] ->
    serial c w2 rest w' ->
    serial c w (Uncached packet channel :: rest) w'
| serial_cached w w1 w2 w' msg packet channel rest :
    quiet c w w1 ->
    quiet c (messageDelete c FromGateway msg w1) w2 ->
    serial c (fst (raw c packet w2)) rest w' ->
    serial c w (Cached msg packet channel :: rest) w'.

Definition from_gateway (who : Origin) : bool :=
  match who with
  | FromGateway => true
  | FromTimer _ => false
  end.

(** What is read off a journal entry: whether it came from discord.js, and
    the message. *)
Definition summary (e : Dispatch) : bool * Message :=
  (from_gateway (origin e), message e).

(** The one dispatch a deletion is due. *)
Definition expected (o : Occurrence) : bool * Message :=
  match o with
  | Uncached packet channel => (false, synthesized packet channel)
  | Cached msg _ _ => (true, msg)
  end.

(** The structured notifications among the labels of a run. *)
Definition structured_of (ls : list Label) : list Message :=
  omap (fun l => match l with LStructured msg => Some msg | _ => None end) ls.

(** The messages of the journal entries that came from discord.js. *)
Definition gateway_messages (journal : list Dispatch) : list Message :=
  map message (List.filter (fun e => from_gateway (origin e)) journal).

(** The log messages sent during a run. *)
Definition sends (es : list Effect) : list (Channel * list Embed * list Attachment) :=
  omap (fun e => match e with
                 | Send logChannel embeds files => Some (logChannel, embeds, files)
                 | _ => None
                 end) es.

(** The message a handler works on after [if (message.partial) message =
    await message.fetch()], when the fetch resolves. *)
Definition resolved (c : Client) (m : Message) : option Message :=
  if msg_partial m then
    match message_fetch c m with
    | inr m' => Some m'
    | inl _ => None
    end
  else Some m.



(** The number of labels of a run that call the [messageDelete] handler. *)
Definition handler_calls (ls : list Label) : nat :=
  length (List.filter calls_handler ls).

(** The same for the old message of an edit, which may be [null]: the
    outer [None] stands for a fetch that rejects. *)
Definition resolved_old (c : Client) (oldMessage : option Message) : option (option Message) :=
  match oldMessage with
  | Some old => Some <$> resolved c old
  | None => Some None
  end.

(** The main embed of the message [messageUpdate] sends for an edit. *)
Definition update_embed (oldMessage : option Message) (newMessage : Message) (author : User)
  : Embed :=
  {| title := "Message Updated";
     description := "`" +:+ username author +:+ "` " +:+ user_toString author
                    +:+ " (" +:+ user_id author +:+ ")";
     color := Some 6711039;
     fields := messageUpdate_mainFields oldMessage newMessage |}.

(** The main embed of the message [messageDelete] sends. *)
Definition delete_embed (now : Z) (message : Message) : Embed :=
  {| title := "Message Deleted";
     description :=
       match msg_author message with
       | Some author => "`" +:+ username author +:+ "` " +:+ user_toString author
                        +:+ " (" +:+ user_id author +:+ ")"
       | None => "in channel " +:+ channel_toString (msg_channel message)
       end;
     color := Some 16711680;
     fields := messageDelete_mainFields now message |}.

End Logger.

(** ** [pitManager.mjs]: [pit] *)

Module PitManager.

Record User : Type := {
  id : string;
  username : string
}.

(** The arguments the two templates of [messageTemplates.mjs] are called
    with; the templates themselves are outside the modelled files. *)
Inductive Payload : Type :=
| PitNotification (guild : string) (duration : Z) (comment : option string)
| PitConfirmation (user : User) (moderator : option User) (duration : Z)
                  (comment : option string) (notifSent : bool).

(** The calls [pit] makes, in the order it makes them. *)
Inductive Effect : Type :=
| DatabaseGet (userId : string)
| DateNow
| ChannelsFetch (channelId : string)
| DatabaseInsert (userId : string) (modId : option string) (duration : Z)
                 (comment : option string) (date : Z)
| UpdateRole (userId : string) (role : string)
| UserSend (message : Payload)
| LogDebug (username : string) (err : Exn)
| LogChannelSend (message : Payload).

(** What [pit] reads and calls: the latest [releaseTime] of the user's rows
    in [pits] ([None] when there is none), the value of each evaluation of
    [Date.now()] during the call (counted from 0), the id of the log
    channel and the guild of the channel it is fetched as, and the
    completions of the calls. *)
Record Env : Type := {
  database_get : string -> Completion (option Z);
  date_now : nat -> Z;
  logChannelId : string;
  channels_fetch : Completion string;
  database_run : Completion unit;
  updateRole : string -> string -> Completion unit;
  user_send : Payload -> Completion unit;
  logChannel_send : Payload -> Completion unit
}.

Definition call {A} (e : Effect) (r : Completion A) : M Effect A := ([e], r).

(** [Date.now()], evaluated for the [n]-th time. *)
Definition now (env : Env) (n : nat) : M Effect Z := ([DateNow], Normal (date_now env n)).

(** How many times [Date.now()] has been evaluated when the row is
    inserted: once, in the guard, when no moderator is given. *)
Definition evaluated (moderator : option User) : nat :=
  match moderator with
  | Some _ => 0
  | None => 1
  end.

(** The guard of [pit] against pitting oneself again: with no moderator,
    whether the user's latest timeout is released later than now. *)
Definition blocked (env : Env) (user : User) (moderator : option User) : M Effect bool :=
  match moderator with
  | Some _ => JS.ret false
  | None =>
      timeout ← call (DatabaseGet (id user)) (database_get env (id user));
      date ← now env 0;
      JS.ret match timeout with
             | Some releaseTime => Z.ltb date releaseTime
             | None => false
             end
  end.

(** [pit] from [let logChannel = ...] on: the row, the role, the direct
    message to the user and the confirmation in the log channel. *)
Definition commit (env : Env) (user : User) (duration : Z) (moderator : option User)
           (comment : option string) : M Effect bool :=
  guild ← call (ChannelsFetch (logChannelId env)) (channels_fetch env);
  date ← now env (evaluated moderator);
  _ ← call (DatabaseInsert (id user) (id <$> moderator) duration comment date)
           (database_run env);
  _ ← call (UpdateRole (id user) "pit") (updateRole env (id user) "pit");
  sent ← JS.try_ (call (UserSend (PitNotification guild duration comment))
                       (user_send env (PitNotification guild duration comment)));
  notifSent ← match sent with
              | inr _ => JS.ret true
              | inl err => _ ← JS.emit (LogDebug (username user) err); JS.ret false
              end;
  _ ← call (LogChannelSend (PitConfirmation user moderator duration comment notifSent))
           (logChannel_send env (PitConfirmation user moderator duration comment notifSent));
  JS.ret true.

(** [pit(user, duration, mod, comment)].  [user] and [moderator] are [None]
    for a falsy argument; [duration] is the number the argument converts
    to, [None] for [NaN]. *)
Definition pit (env : Env) (user : option User) (duration : option Z)
           (moderator : option User) (comment : option string) : M Effect bool :=
  match user with
  | None => JS.throw "Invalid user."
  | Some user =>
      match duration with
      | None => JS.throw "Invalid duration. Must be a number greater than 0."
      | Some duration =>
          if Z.leb duration 0
          then JS.throw "Invalid duration. Must be a number greater than 0."
          else
            refused ← blocked env user moderator;
            if refused : bool then JS.ret false
            else commit env user duration moderator comment
      end
  end.

(** The calls that change something: the insert, the role and the two
    messages. *)
Definition writes (es : list Effect) : list Effect :=
  List.filter (fun e => match e with
                        | DatabaseGet _ | DateNow | ChannelsFetch _ | LogDebug _ _ => false
                        | _ => true
                        end) es.

End PitManager.

(** ** [messageTemplates.mjs]: the modmail templates *)

Module MessageTemplates.

Record User : Type := {
  id : string;
  username : string;
  avatarURL : option string
}.

(** [`${user}`]: the user mention. *)
Definition user_toString (u : User) : string := "<@" +:+ id u +:+ ">".

(** [`${user.avatarURL()}`], [avatarURL()] being [null] without an avatar. *)
Definition avatar_text (u : User) : string := default "null" (avatarURL u).

(** A message as the templates read it; [attachments] is the collection in
    iteration order. *)
Record Message : Type := {
  content : string;
  url : string;
  author : User;
  attachments : list (string * Logger.Attachment)
}.

Record Interaction : Type := {
  targetMessage : Message
}.

Record Role : Type := {
  role_name : string
}.

Record GuildMember : Type := {
  user : User;
  roles_cache : list (string * Role)
}.

Record Footer : Type := {
  text : string;
  icon_url : string
}.

(** [inline] is [None] where the literal has no such property. *)
Record Field : Type := {
  name : string;
  value : string;
  inline : option bool
}.

(** An embed literal; a property the literal does not have is [None]. *)
Record Embed : Type := {
  embed_title : option string;
  embed_url : option string;
  embed_description : option string;
  embed_fields : option (list Field);
  embed_footer : option Footer
}.

(** The message options a template returns. *)
Record Response : Type := {
  embeds : list Embed;
  files : option (list Logger.Attachment);
  ephemeral : option bool
}.

(** [collection.map(v=>v)] *)
Definition values {A} (collection : list (string * A)) : list A := map snd collection.

Definition messageReceived (interaction : option Interaction) (message : option Message)
  : Response :=
  match interaction, message with
  | Some interaction, _ =>
      {| embeds := [{| embed_title := Some "Message received";
                       embed_url := Some (url (targetMessage interaction));
                       embed_description := Some (content (targetMessage interaction));
                       embed_fields := None;
                       embed_footer :=
                         Some {| text := username (author (targetMessage interaction));
                                 icon_url := avatar_text (author (targetMessage interaction)) |} |}];
         files := Some (values (attachments (targetMessage interaction)));
         ephemeral := None |}
  | None, Some message =>
      {| embeds := [{| embed_title := Some "Message received";
                       embed_url := None;
                       embed_description := Some (content message);
                       embed_fields := None;
                       embed_footer :=
                         Some {| text := username (author message);
                                 icon_url := avatar_text (author message) |} |}];
         files := Some (values (attachments message));
         ephemeral := None |}
  | None, None =>
      {| embeds := [{| embed_title := Some "Message received";
                       embed_url := None;
                       embed_description := None;
                       embed_fields := None;
                       embed_footer := None |}];
         files := None;
         ephemeral := None |}
  end.

Definition ticketConfirmation (interaction : option Interaction) (message : option Message)
           (created : bool) : Response :=
  {| embeds := [{| embed_title := Some (if created then "Ticket Created" else "Ticket Updated");
                   embed_url := None;
                   embed_description :=
                     match interaction, message with
                     | Some interaction, _ =>
                         Some ("The message " +:+ url (targetMessage interaction)
                               +:+ " has been reported to the moderators.")
                     | None, Some _ => Some "Your message has been sent to the moderators."
                     | None, None => None
                     end;
                   embed_fields := None;
                   embed_footer := None |}];
     files := None;
     ephemeral := Some true |}.

Definition newResponse (message : Message) : Response :=
  {| embeds := [{| embed_title := Some "New Response";
                   embed_url := None;
                   embed_description := Some (content message);
                   embed_fields := None;
                   embed_footer := None |}];
     files := Some (values (attachments message));
     ephemeral := None |}.

(** [`<@&${id}>`]: the role mention. *)
Definition role_mention (roleId : string) : string := "<@&" +:+ roleId +:+ ">".

(** [cache.filter(role => role.name !== '@everyone').map((role,id) => `<@&${id}>`)] *)
Definition role_mentions (cache : list (string * Role)) : list string :=
  map (fun entry => role_mention (fst entry))
      (List.filter (fun entry => negb (String.eqb (role_name (snd entry)) "@everyone")) cache).

Definition newTicket (member : GuildMember) : Response :=
  {| embeds :=
       [{| embed_title := Some "New Ticket";
           embed_url := None;
           embed_description :=
             Some ("Type a message in this channel to reply. Messages starting with the "
                   +:+ "server prefix `=` are ignored, and can be used for staff discussion. "
                   +:+ "Use the command `=close <reason:optional>` to close the ticket.");
           embed_fields :=
             Some [{| name := "User"; value := user_toString (user member); inline := Some true |};
                   {| name := "Id"; value := id (user member); inline := Some true |};
                   {| name := "Roles";
                      value := String.concat " " (role_mentions (roles_cache member));
                      inline := None |}];
           embed_footer := Some {| text := username (user member);
                                   icon_url := avatar_text (user member) |} |}];
     files := None;
     ephemeral := None |}.

(** The message a ticket update reports: the target of the interaction when
    there is one, else the direct message. *)
Definition reported (interaction : option Interaction) (message : option Message)
  : option Message :=
  match interaction with
  | Some interaction => Some (targetMessage interaction)
  | None => message
  end.

(** The fields of the first embed of a response. *)
Definition first_fields (response : Response) : list Field :=
  match embeds response with
  | embed :: _ => default [] (embed_fields embed)
  | [] => []
  end.

Definition named (n : string) (fields : list Field) : list Field :=
  List.filter (fun f => String.eqb (name f) n) fields.

End MessageTemplates.

(** ** Concrete hosts, commands and packets used in the examples below *)

Module Examples.

Import Application.

(** A host on which every file is accessible and every import yields a
    module with a [definition] export and no [handler] export. *)
Definition definition_only : gmap string Val :=
  {[ "definition" := VObj [("name", VStr "greet")] ]}.

Definition host_plain : Host :=
  {| process_title := "node";
     utc_string := "Mon, 02 Nov 2026 10:00:00 GMT";
     date_now := 1793613600000;
     fs_access := fun _ => None;
     path_resolve := fun f => "/srv/bot/" +:+ f;
     native_import := fun _ _ => inr definition_only |}.

(** A host on which no file is accessible. *)
Definition host_no_access : Host :=
  {| process_title := "node";
     utc_string := "Mon, 02 Nov 2026 10:00:00 GMT";
     date_now := 1793613600000;
     fs_access := fun _ => Some "ENOENT: no such file or directory";
     path_resolve := fun f => "/srv/bot/" +:+ f;
     native_import := fun _ _ => inr definition_only |}.

(** A host on which files are accessible and every import fails. *)
Definition host_bad_import : Host :=
  {| process_title := "Windows PowerShell";
     utc_string := "Mon, 02 Nov 2026 10:00:00 GMT";
     date_now := 1793613600000;
     fs_access := fun _ => None;
     path_resolve := fun f => "/srv/bot/" +:+ f;
     native_import := fun _ _ => inl "SyntaxError: Unexpected token" |}.


(** A host whose imports yield a JSON module. *)
Definition host_json : Host :=
  {| process_title := "node";
     utc_string := "Mon, 02 Nov 2026 10:00:00 GMT";
     date_now := 1793613600000;
     fs_access := fun _ => None;
     path_resolve := fun f => "/srv/bot/" +:+ f;
     native_import := fun _ _ => inr {[ "default" := VObj [("token", VStr "abc")] ]} |}.

Import Commands.

Definition master_reloads : Master :=
  {| registerEventHandlerFile := fun _ _ => Normal (VBool true);
     _onShutdown := Normal tt |}.

Definition master_fails : Master :=
  {| registerEventHandlerFile := fun _ _ => Normal (VBool false);
     _onShutdown := Normal tt |}.

Definition reload_event : Interaction :=
  {| getSubcommand := "event";
     getString := fun name => if String.eqb name "file" then VStr "modules/logger/events/log.mjs"
                              else VNull |}.

Definition master_rejects : Master :=
  {| registerEventHandlerFile := fun _ _ => Throw "Error: EACCES";
     _onShutdown := Normal tt |}.

Definition reload_other : Interaction :=
  {| getSubcommand := "module";
     getString := fun _ => VNull |}.


Import Logger.

Definition general : Channel := {| channel_id := "10"; channel_guildId := IdStr "G" |}.
Definition modlog : Channel := {| channel_id := "99"; channel_guildId := IdStr "G" |}.

(** A cached message with the given id, as discord.js hands it over. *)
Definition cached (id : string) : Message :=
  {| msg_id := id;
     msg_channel := general;
     msg_channelId := "10";
     msg_guildId := IdStr "G";
     msg_partial := false;
     msg_content := Some "hello";
     msg_author := Some {| user_id := "7"; username := "moon" |};
     msg_url := Some "https://discord.com/channels/G/10/1";
     msg_editedTimestamp := Some 1793613600400;
     msg_attachments := [] |}.

(** A client that became ready at 1000, knows the two channels, and can
    fetch the message "A" only. *)
Definition client : Client :=
  {| readyTimestamp := Some 1000;
     logChannelId := "99";
     channels_fetch := fun id =>
       if String.eqb id "99" then inr modlog
       else if String.eqb id "10" then inr general
       else inl "DiscordAPIError: Unknown Channel";
     messages_fetch := fun _ id =>
       if String.eqb id "A" then inr (cached "A")
       else inl "DiscordAPIError: Unknown Message";
     message_fetch := fun m => inr m;
     channel_send := fun _ _ _ => inr tt |}.

(** The same client while the gateway is up and the REST API is not: no
    fetch resolves. *)
Definition client_offline : Client :=
  {| readyTimestamp := Some 1000;
     logChannelId := "99";
     channels_fetch := fun _ => inl "HTTPError: Service Unavailable";
     messages_fetch := fun _ _ => inl "HTTPError: Service Unavailable";
     message_fetch := fun _ => inl "HTTPError: Service Unavailable";
     channel_send := fun _ _ _ => inl "HTTPError: Service Unavailable" |}.

(** The same client without the permission to write to the log channel. *)
Definition client_muted : Client :=
  {| readyTimestamp := readyTimestamp client;
     logChannelId := logChannelId client;
     channels_fetch := channels_fetch client;
     messages_fetch := messages_fetch client;
     message_fetch := message_fetch client;
     channel_send := fun _ _ _ => inl "DiscordAPIError: Missing Permissions" |}.

Definition delete_packet (id : string) : Packet :=
  {| t := "MESSAGE_DELETE";
     d := {| d_id := id; d_channel_id := "10"; d_guild_id := IdStr "G"; d_timestamp := None |} |}.

Definition update_packet (id : string) (timestamp : Z) : Packet :=
  {| t := "MESSAGE_UPDATE";
     d := {| d_id := id; d_channel_id := "10"; d_guild_id := IdStr "G";
             d_timestamp := Some timestamp |} |}.

(** Three attachments, the last one without a content type. *)
Definition picture : Attachment :=
  {| att_name := "cat.png"; att_url := "https://cdn.discordapp.com/cat.png";
     att_contentType := Some "image/png"; att_size := 2048;
     att_width := Some 640; att_height := Some 480; att_duration := "null" |}.

Definition voice : Attachment :=
  {| att_name := "memo.ogg"; att_url := "https://cdn.discordapp.com/memo.ogg";
     att_contentType := Some "audio/ogg"; att_size := 9000;
     att_width := None; att_height := None; att_duration := "3.5" |}.

Definition blob : Attachment :=
  {| att_name := "dump"; att_url := "https://cdn.discordapp.com/dump";
     att_contentType := None; att_size := 12;
     att_width := None; att_height := None; att_duration := "null" |}.

Definition with_attachments (m : Message) (l : list (string * Attachment)) : Message :=
  {| msg_id := msg_id m; msg_channel := msg_channel m; msg_channelId := msg_channelId m;
     msg_guildId := msg_guildId m; msg_partial := msg_partial m; msg_content := msg_content m;
     msg_author := msg_author m; msg_url := msg_url m;
     msg_editedTimestamp := msg_editedTimestamp m; msg_attachments := l |}.

Definition with_guild (m : Message) (guild : Id) : Message :=
  {| msg_id := msg_id m; msg_channel := msg_channel m; msg_channelId := msg_channelId m;
     msg_guildId := guild; msg_partial := msg_partial m; msg_content := msg_content m;
     msg_author := msg_author m; msg_url := msg_url m;
     msg_editedTimestamp := msg_editedTimestamp m; msg_attachments := msg_attachments m |}.

(** A member who is already in the pit until 5000, on a host where every
    call succeeds except the direct message. *)
Definition pit_env : PitManager.Env :=
  {| PitManager.database_get := fun _ => Normal (Some 5000);
     PitManager.date_now := fun n => 1000 + Z.of_nat n;
     PitManager.logChannelId := "99";
     PitManager.channels_fetch := Normal "G";
     PitManager.database_run := Normal tt;
     PitManager.updateRole := fun _ _ => Normal tt;
     PitManager.user_send := fun _ => Throw "DiscordAPIError: Cannot send messages to this user";
     PitManager.logChannel_send := fun _ => Normal tt |}.

Definition member : PitManager.User := {| PitManager.id := "7"; PitManager.username := "moon" |}.
Definition moderator : PitManager.User := {| PitManager.id := "1"; PitManager.username := "mod" |}.

(** A reporter, a message of theirs, and the same message with another
    author and link. *)
Definition reporter : MessageTemplates.User :=
  {| MessageTemplates.id := "7"; MessageTemplates.username := "moon";
     MessageTemplates.avatarURL := None |}.

Definition responder : MessageTemplates.User :=
  {| MessageTemplates.id := "1"; MessageTemplates.username := "mod";
     MessageTemplates.avatarURL := Some "https://cdn.example/avatars/1.png" |}.

Definition report : MessageTemplates.Message :=
  {| MessageTemplates.content := "please look at this";
     MessageTemplates.url := "https://discord.example/channels/G/100/A";
     MessageTemplates.author := reporter;
     MessageTemplates.attachments := [("1", picture)] |}.

Definition answer (by_ : MessageTemplates.User) : MessageTemplates.Message :=
  {| MessageTemplates.content := "we are on it";
     MessageTemplates.url := "https://discord.example/channels/G/200/B";
     MessageTemplates.author := by_;
     MessageTemplates.attachments := [] |}.

Definition ticket_member : MessageTemplates.GuildMember :=
  {| MessageTemplates.user := reporter;
     MessageTemplates.roles_cache :=
       [("900", {| MessageTemplates.role_name := "@everyone" |});
        ("901", {| MessageTemplates.role_name := "artist" |})] |}.

End Examples.

(** * Properties *)

Import Application.

(** ** [loadOptions] *)

Lemma loop_body_unset multiples aliases options arg flag :
  flag = FUndefined \/ flag = FNull ->
  loop_body multiples aliases (flag, options) arg = Normal (FStr (normalize aliases arg), options).
Proof. by intros [-> | ->]. Qed.

Lemma loop_body_set multiples aliases options arg f :
  f <> "" ->
  loop_body multiples aliases (FStr f, options) arg =
  match store multiples f arg options with
  | Normal options' => Normal (FNull, options')
  | Throw e => Throw e
  end.
Proof.
  intros Hf. unfold loop_body, flag_truthy.
  destruct (String.eqb_spec f "") as [Heq | _]; [contradiction | reflexivity].
Qed.

Lemma loadOptions_finish multiples aliases argv options :
  loadOptions multiples aliases argv options =
  finish (loop multiples aliases (drop 2 argv) (FUndefined, options)).
Proof. reflexivity. Qed.

(** Whenever no argument in flag position normalizes to the empty string,
    the loop takes the arguments two at a time. *)
Lemma loop_alternates multiples aliases :
  forall (n : nat) (args : list string) (flag : FlagVar) (options : gmap string OptVal),
    (length args <= n)%nat ->
    flag = FUndefined \/ flag = FNull ->
    Forall (fun f => normalize aliases f <> "") (flag_positions args) ->
    finish (loop multiples aliases args (flag, options)) =
    pairs multiples aliases args options.
Proof.
  induction n as [| n IH]; intros args flag options Hlen Hflag Hne.
  - destruct args; [| simpl in Hlen; lia].
    by destruct Hflag as [-> | ->].
  - destruct args as [| a [| b rest]].
    + by destruct Hflag as [-> | ->].
    + cbn [loop]. rewrite loop_body_unset by done.
      cbn [flag_positions] in Hne. apply Forall_cons in Hne as [Ha _].
      cbn [finish pairs]. unfold flag_truthy.
      destruct (String.eqb_spec (normalize aliases a) "") as [? | _]; [contradiction | done].
    + cbn [flag_positions] in Hne. apply Forall_cons in Hne as [Ha Hrest].
      cbn [loop]. rewrite loop_body_unset by done.
      rewrite loop_body_set by done.
      cbn [pairs].
      destruct (store multiples (normalize aliases a) b options) as [options' | e]; [| done].
      apply IH; [simpl in Hlen; lia | by right | done].
Qed.

(** C10.  [loadOptions] is documented to read the arguments as alternating
    flag/value pairs and to keep an unpaired last flag under [_last].  With
    an empty-string argument in flag position the code does not: for
    [node bot.mjs "" a] the pair (flag [""], value ["a"]) is not stored and
    ["a"] ends up under [_last]; for [node bot.mjs -x 1 ""] the unpaired
    last flag is not stored at all.  The alternating parse of the same
    arguments differs in both cases. *)
Theorem loadOptions_empty_flag_breaks_alternation :
  loadOptions [] [] ["node"; "bot.mjs"; ""; "a"] ∅ = Normal {[ "_last" := OStr "a" ]}
  /\ parse_pairs [] [] [""; "a"] ∅ = Normal {[ "" := OStr "a" ]}
  /\ loadOptions [] [] ["node"; "bot.mjs"; "-x"; "1"; ""] ∅ = Normal {[ "-x" := OStr "1" ]}
  /\ parse_pairs [] [] ["-x"; "1"; ""] ∅ = Normal (<["_last" := OStr ""]> {[ "-x" := OStr "1" ]})
  /\ loadOptions [] [] ["node"; "bot.mjs"; ""; "a"] ∅ <> parse_pairs [] [] [""; "a"] ∅.
Proof.
  repeat split; try reflexivity.
  intros H. vm_compute in H. discriminate H.
Qed.

(** ** [safeImport] *)

Lemma append_of_fresh h options :
  append_of h options = if fresh options then "?t=" +:+ pretty (date_now h) else "".
Proof. unfold append_of, fresh. by destruct (options !! "reload"). Qed.

(** Case analysis on the console [log] picks: by the terminal and by the
    type of the message. *)
Ltac log_cases h type :=
  unfold log;
  destruct (String.eqb (process_title h) "Windows PowerShell"),
    (String.eqb type "error"), (String.eqb type "warn"), (String.eqb type "debug").

Lemma log_never_raises h type args : exists es, log h type args = (es, Normal tt).
Proof. log_cases h type; eexists; reflexivity. Qed.

Lemma log_no_import h type args : imports (effects (log h type args)) = [].
Proof. by log_cases h type. Qed.

(** What [logError] prints: one call of [console.error] with the header and
    the arguments. *)
Lemma logError_effects h args :
  exists header, logError h args = ([Console ConsoleError (LStr header :: args)], Normal tt).
Proof.
  unfold logError, log. cbn.
  destruct (String.eqb (process_title h) "Windows PowerShell"); eexists; reflexivity.
Qed.

(** [safeImport], case by case. *)
Lemma safeImport_unfold h filename options :
  safeImport h filename (Plain options) =
  match fs_access h filename with
  | Some err =>
      ([FsAccess filename]
       ++ effects (logError h [LStr ("File '" +:+ filename +:+ "' is not accessible for import."); LErr err]),
       Normal None)
  | None =>
      let append := append_of h options in
      let filepath := toModulePath h filename append in
      let debug := effects (logDebug h [LStr ("Importing module '" +:+ filepath +:+ "'.")]) in
      match native_import h filepath (delete "reload" options) with
      | inr module =>
          ([FsAccess filename] ++ debug ++ [NativeImport filepath (delete "reload" options)],
           Normal (Some module))
      | inl err =>
          ([FsAccess filename] ++ debug ++ [NativeImport filepath (delete "reload" options)]
           ++ effects (logError h [LStr ("File '" +:+ filename +:+ append +:+ "' cannot be imported by Node.js."); LErr err]),
           Normal None)
      end
  end.
Proof.
  unfold safeImport, access, import, logError, logDebug, log, toModulePath.
  destruct (fs_access h filename) as [err |]; cbn.
  - by destruct (String.eqb (process_title h) "Windows PowerShell").
  - destruct (String.eqb (process_title h) "Windows PowerShell"); cbn;
      by destruct (native_import h _ (delete "reload" options)).
Qed.

Lemma append_empty (s : string) : s +:+ "" = s.
Proof. induction s as [| a s IH]; [done |]. change (String a (s +:+ "") = String a s). by rewrite IH. Qed.

Lemma imports_app es es' : imports (es ++ es') = imports es ++ imports es'.
Proof. unfold imports. apply omap_app. Qed.

(** [safeImport] on the options on which the statements between the two
    [try] blocks throw. *)
Lemma safeImport_unusable h filename options :
  unusable options ->
  exists e,
    safeImport h filename options =
    match fs_access h filename with
    | Some err =>
        ([FsAccess filename]
         ++ effects (logError h [LStr ("File '" +:+ filename +:+ "' is not accessible for import."); LErr err]),
         Normal None)
    | None => ([FsAccess filename], Throw e)
    end.
Proof.
  intros Hun. unfold safeImport, access, take_reload, logError, log.
  destruct options as [| props | props]; [| destruct Hun |].
  - eexists. destruct (fs_access h filename) as [err |]; cbn; [| reflexivity].
    by destruct (String.eqb (process_title h) "Windows PowerShell").
  - cbn in Hun. destruct (props !! "reload") as [reload |] eqn:Hreload; [| by destruct Hun].
    eexists. destruct (fs_access h filename) as [err |]; cbn; [| reflexivity].
    by destruct (String.eqb (process_title h) "Windows PowerShell").
Qed.

(** A frozen object without [reload] is treated as an ordinary one. *)
Lemma safeImport_frozen h filename props :
  props !! "reload" = None ->
  safeImport h filename (Frozen props) = safeImport h filename (Plain props).
Proof. intros Hnone. unfold safeImport, take_reload. by rewrite Hnone. Qed.

Lemma unusable_dec options : unusable options \/ ~ unusable options.
Proof.
  destruct options as [| props | props]; cbn; [left; exact I | right; intros [] |].
  destruct (props !! "reload"); [left; discriminate | right; intros H; by apply H].
Qed.

(** On usable options [safeImport] is what it is on the ordinary object
    with the same properties. *)
Lemma safeImport_usable h filename options :
  ~ unusable options ->
  safeImport h filename options = safeImport h filename (Plain (properties options)).
Proof.
  destruct options as [| props | props]; cbn; intros Hus.
  - by destruct Hus.
  - done.
  - apply safeImport_frozen. destruct (props !! "reload") eqn:Hreload; [| done].
    destruct Hus. congruence.
Qed.

(** C5.  The locator [safeImport] hands to the native [import()] (once,
    and only when the file is accessible) is ["file:"] followed by the
    resolved path, followed by ["?t="] and the current [Date.now()] exactly
    when [options.reload] is present and truthy, and by nothing
    otherwise.  Whatever is passed for the options, no other locator ever
    reaches [import()]. *)
Theorem safeImport_locator (h : Host) (filename : string) (options : gmap string Val) :
  imports (effects (safeImport h filename (Plain options))) =
  match fs_access h filename with
  | None =>
      [if fresh options
       then "file:" +:+ path_resolve h filename +:+ "?t=" +:+ pretty (date_now h)
       else "file:" +:+ path_resolve h filename]
  | Some _ => []
  end
  /\ forall (passed : Options) (locator : string),
       In locator (imports (effects (safeImport h filename passed))) ->
       locator = if fresh (properties passed)
                 then "file:" +:+ path_resolve h filename +:+ "?t=" +:+ pretty (date_now h)
                 else "file:" +:+ path_resolve h filename.
Proof.
  assert (Hplain : forall props,
            imports (effects (safeImport h filename (Plain props))) =
            match fs_access h filename with
            | None =>
                [if fresh props
                 then "file:" +:+ path_resolve h filename +:+ "?t=" +:+ pretty (date_now h)
                 else "file:" +:+ path_resolve h filename]
            | Some _ => []
            end).
  { intros props. rewrite safeImport_unfold. unfold logError, logDebug.
    destruct (fs_access h filename) as [err |].
    - cbn [effects fst]. rewrite imports_app, log_no_import. reflexivity.
    - cbn zeta. rewrite append_of_fresh.
      set (locator := toModulePath h filename _).
      assert (Hloc : locator =
                     if fresh props
                     then "file:" +:+ path_resolve h filename +:+ "?t=" +:+ pretty (date_now h)
                     else "file:" +:+ path_resolve h filename).
      { subst locator. unfold toModulePath. destruct (fresh props); [done |].
        by rewrite append_empty. }
      rewrite <- Hloc.
      destruct (native_import h locator (delete "reload" props));
        cbn [effects fst]; rewrite !imports_app, log_no_import; try rewrite log_no_import;
        reflexivity. }
  split; [apply Hplain |].
  intros passed locator. destruct (unusable_dec passed) as [Hun | Hus].
  - destruct (safeImport_unusable h filename passed Hun) as [e ->].
    destruct (fs_access h filename) as [err |]; cbn [effects fst].
    + unfold logError. rewrite imports_app, log_no_import. intros [].
    + intros [].
  - rewrite (safeImport_usable h filename passed Hus), Hplain.
    destruct (fs_access h filename); [intros [] |]. by intros [<- | []].
Qed.

Lemma safeImport_locator_witness :
  let passed := Plain {[ "reload" := VBool true ]} in
  let locator := "file:/srv/bot/greet.mjs?t=1793613600000" in
  In locator (imports (effects (safeImport Examples.host_plain "greet.mjs" passed)))
  /\ locator = (if fresh (properties passed)
                then "file:" +:+ path_resolve Examples.host_plain "greet.mjs" +:+ "?t="
                     +:+ pretty (date_now Examples.host_plain)
                else "file:" +:+ path_resolve Examples.host_plain "greet.mjs").
Proof.
  intros passed locator.
  assert (Hin : In locator
                   (imports (effects (safeImport Examples.host_plain "greet.mjs" passed)))).
  { vm_compute. by left. }
  split; [exact Hin |].
  destruct (safeImport_locator Examples.host_plain "greet.mjs" ∅) as [_ Hany].
  exact (Hany passed locator Hin).
Defined.

(** C4, as stated, fails.  With the file accessible, [null] for the options
    and a frozen object with the [reload] property make [safeImport] end
    with a [TypeError]: the statements that read and delete [reload] are
    outside both [try] blocks.  And the failures it does catch are not told
    apart in what it returns: an inaccessible file and a failing import
    both give the bare [undefined], without the cause. *)
Lemma safeImport_raises_past_its_boundary :
  (completion (safeImport Examples.host_plain "greet.mjs" Null)
   = Throw "TypeError: Cannot use 'in' operator to search for 'reload' in null"
   /\ completion (safeImport Examples.host_plain "greet.mjs"
                    (Frozen {[ "reload" := VBool true ]}))
      = Throw "TypeError: Cannot delete property 'reload' of #<Object>")
  /\ (completion (safeImport Examples.host_no_access "greet.mjs" (Plain ∅)) = Normal None
      /\ completion (safeImport Examples.host_bad_import "greet.mjs" (Plain ∅)) = Normal None).
Proof. repeat split; reflexivity. Qed.

(** C4, amended.  [safeImport] ends with an exception exactly when the file
    is accessible and the options are [null] or a frozen object with the
    [reload] property; the native import is then not attempted.  Otherwise
    it returns.  When the file is not accessible it returns [undefined]
    without attempting the import, and [console.error] receives the message
    about the file together with the error [fs.access] rejected with.  When
    the native import fails it returns [undefined] as well, and
    [console.error] receives the message about the locator together with
    the error the import rejected with: the cause goes to the console, not
    into the result. *)
Theorem safeImport_raises_only_on_unusable_options
        (h : Host) (filename : string) (options : Options) :
  (raises (completion (safeImport h filename options)) <->
   fs_access h filename = None /\ unusable options)
  /\ (raises (completion (safeImport h filename options)) ->
      imports (effects (safeImport h filename options)) = [])
  /\ (forall err,
        fs_access h filename = Some err ->
        completion (safeImport h filename options) = Normal None
        /\ imports (effects (safeImport h filename options)) = []
        /\ exists header,
             In (Console ConsoleError
                   [LStr header;
                    LStr ("File '" +:+ filename +:+ "' is not accessible for import.");
                    LErr err])
                (effects (safeImport h filename options)))
  /\ (forall err,
        fs_access h filename = None ->
        ~ unusable options ->
        native_import h (toModulePath h filename (append_of h (properties options)))
                      (delete "reload" (properties options)) = inl err ->
        completion (safeImport h filename options) = Normal None
        /\ exists header,
             In (Console ConsoleError
                   [LStr header;
                    LStr ("File '" +:+ filename +:+ append_of h (properties options)
                          +:+ "' cannot be imported by Node.js.");
                    LErr err])
                (effects (safeImport h filename options))).
Proof.
  destruct (unusable_dec options) as [Hun | Hus].
  - destruct (safeImport_unusable h filename options Hun) as [e ->].
    destruct (fs_access h filename) as [err0 |] eqn:Hacc.
    + split; [split; [intros [] | by intros [[=] _]] |]. split; [intros [] |].
      split; [| by intros err [=]].
      intros err [= <-]. split; [done |]. split.
      * cbn [effects fst]. unfold logError. by rewrite imports_app, log_no_import.
      * destruct (logError_effects h
                    [LStr ("File '" +:+ filename +:+ "' is not accessible for import."); LErr err0])
          as [header ->].
        exists header. cbn. by right; left.
    + split; [split; [by split | done] |]. split; [done |].
      split; [by intros err [=] |]. intros err _ Hus. by destruct (Hus Hun).
  - rewrite (safeImport_usable h filename options Hus), safeImport_unfold.
    split; [| split; [| split]].
    + split.
      * destruct (fs_access h filename); [intros [] |].
        cbn zeta. destruct (native_import h _ _); intros [].
      * by intros [_ Hun].
    + destruct (fs_access h filename); [intros [] |].
      cbn zeta. destruct (native_import h _ _); intros [].
    + intros err ->. split; [done |]. split.
      * cbn [effects fst]. unfold logError. by rewrite imports_app, log_no_import.
      * destruct (logError_effects h
                    [LStr ("File '" +:+ filename +:+ "' is not accessible for import."); LErr err])
          as [header ->].
        exists header. cbn. by right; left.
    + intros err -> _ Himp. cbn zeta. rewrite Himp. split; [done |].
      destruct (logError_effects h
                  [LStr ("File '" +:+ filename +:+ append_of h (properties options)
                         +:+ "' cannot be imported by Node.js."); LErr err])
        as [header ->].
      exists header. cbn [effects fst].
      rewrite !in_app_iff. right; right; right. by left.
Qed.

Lemma safeImport_raises_only_on_unusable_options_witness :
  (fs_access Examples.host_plain "greet.mjs" = None
   /\ unusable (Frozen {[ "reload" := VBool true ]})
   /\ raises (completion (safeImport Examples.host_plain "greet.mjs"
                            (Frozen {[ "reload" := VBool true ]}))))
  /\ (fs_access Examples.host_no_access "greet.mjs" = Some "ENOENT: no such file or directory"
      /\ completion (safeImport Examples.host_no_access "greet.mjs" Null) = Normal None)
  /\ (fs_access Examples.host_bad_import "greet.mjs" = None
      /\ ~ unusable (Plain {[ "reload" := VBool true ]})
      /\ native_import Examples.host_bad_import
           (toModulePath Examples.host_bad_import "greet.mjs"
              (append_of Examples.host_bad_import {[ "reload" := VBool true ]}))
           (delete "reload" {[ "reload" := VBool true ]})
         = inl "SyntaxError: Unexpected token"
      /\ completion (safeImport Examples.host_bad_import "greet.mjs"
                       (Plain {[ "reload" := VBool true ]}))
         = Normal None).
Proof.
  assert (Hun : unusable (Frozen {[ "reload" := VBool true ]})) by discriminate.
  assert (Hus : ~ unusable (Plain {[ "reload" := VBool true ]})) by (intros []).
  split; [| split].
  - split; [reflexivity |]. split; [exact Hun |].
    destruct (safeImport_raises_only_on_unusable_options Examples.host_plain "greet.mjs"
                (Frozen {[ "reload" := VBool true ]})) as (Hiff & _).
    apply Hiff. split; [reflexivity | exact Hun].
  - split; [reflexivity |].
    destruct (safeImport_raises_only_on_unusable_options Examples.host_no_access "greet.mjs" Null)
      as (_ & _ & Hacc & _).
    apply (Hacc "ENOENT: no such file or directory"). reflexivity.
  - split; [reflexivity |]. split; [exact Hus |]. split; [reflexivity |].
    destruct (safeImport_raises_only_on_unusable_options Examples.host_bad_import "greet.mjs"
                (Plain {[ "reload" := VBool true ]})) as (_ & _ & _ & Himp).
    apply (Himp "SyntaxError: Unexpected token"); [reflexivity | exact Hus | reflexivity].
Defined.

(** C3, as stated, fails: [safeImport] hands back a module that has a
    [definition] export and no [handler] export as its successful
    result. *)
Lemma safeImport_returns_malformed_module :
  completion (safeImport Examples.host_plain "greet.mjs" (Plain ∅)) = Normal (Some Examples.definition_only)
  /\ Examples.definition_only !! "handler" = None.
Proof. split; reflexivity. Qed.

(** C3, amended.  [safeImport] does not look at the exports: whenever the
    file is accessible and the native import yields a module, that module
    is the result, whatever it exports; [undefined] is returned exactly
    when the file is not accessible or the native import fails. *)
Theorem safeImport_does_not_validate (h : Host) (filename : string) (options : gmap string Val) :
  (forall module,
     fs_access h filename = None ->
     native_import h (toModulePath h filename (append_of h options))
                   (delete "reload" options) = inr module ->
     completion (safeImport h filename (Plain options)) = Normal (Some module))
  /\ (completion (safeImport h filename (Plain options)) = Normal None <->
      (exists err, fs_access h filename = Some err)
      \/ (exists err, native_import h (toModulePath h filename (append_of h options))
                                    (delete "reload" options) = inl err)).
Proof.
  rewrite safeImport_unfold. split.
  - intros module -> Himp. cbn zeta. by rewrite Himp.
  - destruct (fs_access h filename) as [err |].
    + split; [intros _; left; by exists err | done].
    + cbn zeta.
      destruct (native_import h _ _) as [err | module].
      * split; [intros _; right; by exists err | done].
      * split; [done |]. intros [[err Herr] | [err Herr]]; discriminate.
Qed.

Lemma safeImport_does_not_validate_witness :
  fs_access Examples.host_plain "greet.mjs" = None
  /\ native_import Examples.host_plain
       (toModulePath Examples.host_plain "greet.mjs" (append_of Examples.host_plain ∅))
       (delete "reload" ∅) = inr Examples.definition_only
  /\ completion (safeImport Examples.host_plain "greet.mjs" (Plain ∅))
     = Normal (Some Examples.definition_only).
Proof.
  split; [reflexivity |]. split; [reflexivity |].
  destruct (safeImport_does_not_validate Examples.host_plain "greet.mjs" ∅) as (Hsome & _).
  apply Hsome; reflexivity.
Defined.

(** ** The [reload] command *)

Import Commands.




(** X10.  When [registerEventHandlerFile] rejects, the exception leaves the
    handler and nothing is replied. *)
Lemma reload_event_rejection master interaction e :
  getSubcommand interaction = "event" ->
  registerEventHandlerFile master (getString interaction "file") "reload" = Throw e ->
  Reload.handler master interaction
  = ([RegisterEventHandlerFile (getString interaction "file") "reload"], Throw e).
Proof. intros Hsub Hreg. unfold Reload.handler. rewrite Hsub. cbn. by rewrite Hreg. Qed.

(** ** The logger's [raw] handler on [MESSAGE_UPDATE] *)

Import Logger.

Lemma before_ready_lt ts r : before_ready (Some ts) (Some r) = true <-> ts < r.
Proof. unfold before_ready. cbn. apply Z.ltb_lt. Qed.

Lemma messageUpdate_mainFields_null newMessage :
  head (messageUpdate_mainFields None newMessage) = Some uh_oh.
Proof. reflexivity. Qed.

Lemma Id_eqb_eq a b : Id_eqb a b = true <-> a = b.
Proof.
  destruct a as [| | x], b as [| | y]; cbn; split; try done; try (intros [=]; done).
  - by intros ->%String.eqb_eq.
  - intros [= ->]. apply String.eqb_refl.
Qed.

Lemma sends_app es es' : sends (es ++ es') = sends es ++ sends es'.
Proof. unfold sends. apply omap_app. Qed.

(** *** The embeds of the attachments *)

Lemma embeds_of_length changes embeds :
  embeds_of changes = Normal embeds -> length embeds = length changes.
Proof.
  revert embeds. induction changes as [| [attachment title_overwrite] changes IH];
    intros embeds; cbn [embeds_of]; [by intros [= <-] |].
  destruct (attachmentToEmbed attachment title_overwrite) as [embed | e]; [| done].
  destruct (embeds_of changes) as [embeds' | e]; [| done].
  intros [= <-]. cbn. by rewrite (IH embeds').
Qed.

(** When every attachment has a content type there is one embed for each,
    the one [attachmentToEmbed] returns. *)
Lemma embeds_of_typed changes :
  Forall (fun change => att_contentType (fst change) <> None) changes ->
  exists embeds,
    embeds_of changes = Normal embeds
    /\ Forall2 (fun change embed => attachmentToEmbed (fst change) (snd change) = Normal embed)
               changes embeds.
Proof.
  induction changes as [| [attachment title_overwrite] changes IH]; cbn [embeds_of].
  - intros _. exists []. by split.
  - intros [Hhere Hrest]%Forall_cons. destruct (IH Hrest) as (embeds & Hembeds & Hall).
    cbn [fst] in Hhere.
    destruct (attachmentToEmbed attachment title_overwrite) as [embed | e] eqn:Hone.
    + exists (embed :: embeds). rewrite Hembeds. split; [done |]. by constructor.
    + exfalso. unfold attachmentToEmbed in Hone.
      destruct (att_contentType attachment); [done | by apply Hhere].
Qed.

(** One attachment without a content type is enough for no embed at all. *)
Lemma embeds_of_untyped changes :
  Exists (fun change => att_contentType (fst change) = None) changes ->
  embeds_of changes = Throw "TypeError: Cannot read properties of null (reading 'startsWith')".
Proof.
  induction changes as [| [attachment title_overwrite] changes IH]; cbn [embeds_of].
  - intros H. by apply Exists_nil in H.
  - intros [Hhere | Hrest]%Exists_cons.
    + cbn [fst] in Hhere. unfold attachmentToEmbed. by rewrite Hhere.
    + rewrite (IH Hrest).
      unfold attachmentToEmbed. by destruct (att_contentType attachment).
Qed.

Lemma embeds_of_decide (changes : list (Attachment * string)) :
  Forall (fun change => att_contentType (fst change) <> None) changes
  \/ Exists (fun change => att_contentType (fst change) = None) changes.
Proof.
  induction changes as [| [attachment title_overwrite] changes [IH | IH]].
  - left. constructor.
  - destruct (att_contentType attachment) as [contentType |] eqn:Hct.
    + left. constructor; [cbn; congruence | done].
    + right. by left.
  - right. by right.
Qed.

(** *** [messageUpdate], case by case *)

(** A fetch of [messageUpdate] rejects: nothing is sent. *)
Lemma messageUpdate_rejected c oldMessage newMessage :
  resolved_old c oldMessage = None \/ resolved c newMessage = None
  \/ (exists e, channels_fetch c (logChannelId c) = inl e) ->
  effects (messageUpdate c oldMessage newMessage) = []
  /\ raises (completion (messageUpdate c oldMessage newMessage)).
Proof.
  unfold messageUpdate, resolved_old, resolved, await.
  destruct oldMessage as [old |];
    [destruct (msg_partial old); [destruct (message_fetch c old) as [e0 | old'] |] |];
    (destruct (msg_partial newMessage);
     [destruct (message_fetch c newMessage) as [e1 | new'] |]);
    cbn -[embeds_of messageUpdate_changes messageUpdate_mainFields send];
    try done;
    (destruct (channels_fetch c (logChannelId c)) as [e2 | logChannel];
     cbn -[embeds_of messageUpdate_changes messageUpdate_mainFields send]; [done |]);
    intros [[=] | [[=] | [e [=]]]].
Qed.

(** [messageUpdate] once the messages and the log channel are fetched. *)
Lemma messageUpdate_fetched c oldMessage newMessage fetchedOld fetchedMessage logChannel :
  resolved_old c oldMessage = Some fetchedOld ->
  resolved c newMessage = Some fetchedMessage ->
  channels_fetch c (logChannelId c) = inr logChannel ->
  messageUpdate c oldMessage newMessage =
  if Id_eqb (channel_guildId logChannel) (msg_guildId fetchedMessage) then
    match embeds_of (messageUpdate_changes fetchedOld fetchedMessage) with
    | Throw e => ([], Throw e)
    | Normal embeds =>
        match msg_author fetchedMessage with
        | None => ([], Throw "TypeError: Cannot read properties of undefined (reading 'username')")
        | Some author =>
            let all := update_embed fetchedOld fetchedMessage author :: embeds in
            let files := map fst (messageUpdate_changes fetchedOld fetchedMessage) in
            ([Send logChannel all files],
             match channel_send c logChannel all files with
             | inr _ => Normal tt
             | inl e => Throw e
             end)
        end
    end
  else ([], Normal tt).
Proof.
  intros Hold Hnew Hlog.
  assert (Hold' : (match oldMessage with
                   | Some old => if msg_partial old
                                 then old' ← await (message_fetch c old); JS.ret (Some old')
                                 else JS.ret (Some old)
                   | None => JS.ret None
                   end) = (([], Normal fetchedOld) : M Effect (option Message))).
  { revert Hold. unfold resolved_old, resolved, await.
    destruct oldMessage as [old |]; [| by intros [= <-]].
    destruct (msg_partial old); [| by intros [= <-]].
    destruct (message_fetch c old); [done | by intros [= <-]]. }
  assert (Hnew' : (if msg_partial newMessage then await (message_fetch c newMessage)
                   else JS.ret newMessage) = (([], Normal fetchedMessage) : M Effect Message)).
  { revert Hnew. unfold resolved, await.
    destruct (msg_partial newMessage); [| by intros [= <-]].
    destruct (message_fetch c newMessage); [done | by intros [= <-]]. }
  unfold messageUpdate. rewrite Hold', Hnew', Hlog. unfold update_embed, send, await.
  cbn -[embeds_of messageUpdate_changes messageUpdate_mainFields].
  destruct (Id_eqb (channel_guildId logChannel) (msg_guildId fetchedMessage));
    cbn -[embeds_of messageUpdate_changes messageUpdate_mainFields]; [| done].
  destruct (embeds_of (messageUpdate_changes fetchedOld fetchedMessage)) as [embeds | e];
    cbn -[messageUpdate_changes messageUpdate_mainFields]; [| done].
  destruct (msg_author fetchedMessage) as [author |];
    cbn -[messageUpdate_changes messageUpdate_mainFields]; [| done].
  by destruct (channel_send c logChannel _ _) as [e | []].
Qed.

Lemma resolved_old_null c : resolved_old c None = Some None.
Proof. reflexivity. Qed.

(** With [null] for the old message every attachment counts as added. *)
Lemma messageUpdate_changes_null newMessage :
  messageUpdate_changes None newMessage
  = map (fun kv => (snd kv, "Attachment Added")) (msg_attachments newMessage).
Proof.
  unfold messageUpdate_changes. cbn [from_option List.filter map app].
  f_equal. induction (msg_attachments newMessage) as [| kv l IH]; [done |].
  cbn. by rewrite IH.
Qed.

(** Whatever [messageUpdate] does when called with [null] for the old
    message, it emits no event, and a log message it sends opens with the
    "Uh oh!" field. *)
Lemma messageUpdate_null_effects c newMessage e :
  In e (effects (messageUpdate c None newMessage)) ->
  exists logChannel main rest files,
    e = Send logChannel (main :: rest) files /\ head (fields main) = Some uh_oh.
Proof.
  destruct (resolved c newMessage) as [fetchedMessage |] eqn:Hnew.
  2:{ destruct (messageUpdate_rejected c None newMessage) as [-> _]; [by right; left | done]. }
  destruct (channels_fetch c (logChannelId c)) as [err | logChannel] eqn:Hlog.
  { destruct (messageUpdate_rejected c None newMessage) as [-> _]; [| done].
    right; right. by exists err. }
  rewrite (messageUpdate_fetched c None newMessage None fetchedMessage logChannel eq_refl Hnew Hlog).
  destruct (Id_eqb _ _); [| done].
  destruct (embeds_of _) as [embeds | err]; [| done].
  destruct (msg_author fetchedMessage) as [author |]; [| done].
  cbn [effects fst]. intros [<- | []]. by repeat eexists.
Qed.

Lemma listener_effects m e :
  In e (effects (listener m)) ->
  In e (effects m) \/ exists err, e = UnhandledRejection err.
Proof.
  destruct m as [es [[] | err]]; cbn; [by left |].
  rewrite in_app_iff. intros [H | [<- | []]]; [by left | right; by eexists].
Qed.

Lemma listener_never_raises m : completion (listener m) = Normal tt.
Proof. by destruct m as [es [[] | err]]. Qed.

Lemma sends_listener m : sends (effects (listener m)) = sends (effects m).
Proof.
  destruct m as [es [[] | err]]; cbn [listener effects fst]; [done |].
  rewrite sends_app. cbn. apply app_nil_r.
Qed.

Lemma emitted_listener_messageUpdate_null c newMessage :
  emitted (effects (listener (messageUpdate c None newMessage))) = [].
Proof.
  set (es := effects _).
  assert (H : forall e, In e es -> emitted [e] = []).
  { intros e [He | [err ->]]%listener_effects; [| done].
    by destruct (messageUpdate_null_effects _ _ _ He) as (? & ? & ? & ? & -> & _). }
  clearbody es. induction es as [| e es IH]; [done |].
  change (e :: es) with ([e] ++ es). unfold emitted in *. rewrite omap_app.
  rewrite (H e) by (by left). apply IH. intros e' He'. apply H. by right.
Qed.

(** [raw] on a [MESSAGE_UPDATE] packet, case by case. *)
Lemma raw_update_unfold c packet w :
  t packet = "MESSAGE_UPDATE" ->
  raw c packet w =
  (w,
   if before_ready (d_timestamp (d packet)) (readyTimestamp c) then
     match channels_fetch c (d_channel_id (d packet)) with
     | inl err => ([MasterLogDebug "Raw Event:" packet], Throw err)
     | inr channel =>
         match messages_fetch c channel (d_id (d packet)) with
         | inl err => ([MasterLogDebug "Raw Event:" packet], Throw err)
         | inr msg =>
             ([MasterLogDebug "Raw Event:" packet; EmitMessageUpdate None msg]
              ++ effects (listener (messageUpdate c None msg)), Normal tt)
         end
     end
   else ([MasterLogDebug "Raw Event:" packet], Normal tt)).
Proof.
  intros Ht. unfold raw. rewrite Ht. cbn [String.eqb Ascii.eqb Bool.eqb].
  f_equal. unfold emit_messageUpdate, await.
  destruct (before_ready _ _); [| done]. cbn -[messageUpdate listener].
  destruct (channels_fetch c (d_channel_id (d packet))) as [err | channel];
    cbn -[messageUpdate listener]; [done |].
  destruct (messages_fetch c channel (d_id (d packet))) as [err | msg];
    cbn -[messageUpdate listener]; [done |].
  pose proof (listener_never_raises (messageUpdate c None msg)) as Hl.
  destruct (listener (messageUpdate c None msg)) as [es r]. cbn in Hl. by subst r.
Qed.

(** C9, as stated, fails in the if-direction.  A [MESSAGE_UPDATE] packet
    with a timestamp before the ready timestamp emits nothing when a fetch
    rejects: the channel's, while the REST API is down, or the message's,
    when the message is gone meanwhile.  The [raw] handler ends with the
    rejection before it reaches [emit]. *)
Lemma raw_update_lost_when_fetch_rejects :
  let a := Examples.update_packet "A" 900 in
  let b := Examples.update_packet "B" 900 in
  (t a = "MESSAGE_UPDATE"
   /\ before_ready (d_timestamp (d a)) (readyTimestamp Examples.client_offline) = true
   /\ snd (raw Examples.client_offline a (initial 5000))
      = ([MasterLogDebug "Raw Event:" a], Throw "HTTPError: Service Unavailable")
   /\ emitted (effects (snd (raw Examples.client_offline a (initial 5000)))) = [])
  /\ (t b = "MESSAGE_UPDATE"
      /\ before_ready (d_timestamp (d b)) (readyTimestamp Examples.client) = true
      /\ snd (raw Examples.client b (initial 5000))
         = ([MasterLogDebug "Raw Event:" b], Throw "DiscordAPIError: Unknown Message")
      /\ emitted (effects (snd (raw Examples.client b (initial 5000)))) = []).
Proof. repeat split; reflexivity. Qed.

(** C9, amended.  On a [MESSAGE_UPDATE] packet [raw] leaves the timer
    variable and the timers alone.  A [messageUpdate] event is emitted
    exactly when the packet's timestamp is strictly earlier than the
    client's ready timestamp and the channel and the message are fetched;
    it is then the only one, with [null] for the old message and the
    fetched message for the new one.  When the timestamp is not earlier
    nothing is done but the debug log.  Every log message the handler sends
    for such an event opens with the "Uh oh!" field, and it does send one,
    with one embed per attachment after the main one, when the log channel
    is fetched and is in the guild of the message, the message has an
    author, and its attachments have content types. *)
Theorem raw_message_update (c : Client) (packet : Packet) (w : World) :
  t packet = "MESSAGE_UPDATE" ->
  let out := snd (raw c packet w) in
  let early := before_ready (d_timestamp (d packet)) (readyTimestamp c) in
  fst (raw c packet w) = w
  /\ (forall ts r,
        d_timestamp (d packet) = Some ts -> readyTimestamp c = Some r ->
        (early = true <-> ts < r))
  /\ emitted (effects out)
     = (if early then match fetched c packet with
                      | Some msg => [(None, msg)]
                      | None => []
                      end
        else [])
  /\ (emitted (effects out) <> [] <-> early = true /\ fetched c packet <> None)
  /\ (early = false -> out = ([MasterLogDebug "Raw Event:" packet], Normal tt))
  /\ (forall oldMessage newMessage,
        In (oldMessage, newMessage) (emitted (effects out)) ->
        oldMessage = None /\ fetched c packet = Some newMessage)
  /\ (forall logChannel embeds files,
        In (Send logChannel embeds files) (effects out) ->
        exists main rest, embeds = main :: rest /\ head (fields main) = Some uh_oh)
  /\ (forall msg fetchedMessage logChannel author,
        early = true ->
        fetched c packet = Some msg ->
        resolved c msg = Some fetchedMessage ->
        channels_fetch c (logChannelId c) = inr logChannel ->
        channel_guildId logChannel = msg_guildId fetchedMessage ->
        msg_author fetchedMessage = Some author ->
        Forall (fun kv => att_contentType (snd kv) <> None) (msg_attachments fetchedMessage) ->
        exists main rest,
          sends (effects out)
          = [(logChannel, main :: rest, map snd (msg_attachments fetchedMessage))]
          /\ title main = "Message Updated"
          /\ head (fields main) = Some uh_oh
          /\ length rest = length (msg_attachments fetchedMessage)).
Proof.
  intros Ht out early. subst out.
  rewrite (raw_update_unfold c packet w Ht). cbn [fst snd]. fold early.
  set (out := if early then _ else _).
  assert (Hem : emitted (effects out)
                = if early then match fetched c packet with
                                | Some msg => [(None, msg)]
                                | None => []
                                end
                  else []).
  { subst out. unfold fetched. destruct early; [| done].
    destruct (channels_fetch c _) as [err | channel]; [done |].
    destruct (messages_fetch c channel _) as [err | msg]; [done |].
    cbn [effects fst]. unfold emitted. rewrite omap_app.
    fold (emitted (effects (listener (messageUpdate c None msg)))).
    by rewrite emitted_listener_messageUpdate_null. }
  split; [done |]. split.
  { intros ts r Hts Hr. subst early. rewrite Hts, Hr. apply before_ready_lt. }
  split; [exact Hem |]. split.
  { rewrite Hem. destruct early; [| split; [done | by intros [[=] _]]].
    destruct (fetched c packet); split; try done. by intros [_ H]. }
  split.
  { subst out. by intros ->. }
  split.
  { intros oldMessage newMessage. rewrite Hem.
    destruct early; [| done].
    destruct (fetched c packet) as [msg |]; [| done].
    intros [[= <- <-] | []]. done. }
  split.
  { intros logChannel embeds files. subst out.
    destruct early; [| by intros [[=] | []]].
    destruct (channels_fetch c _) as [err | channel]; [by intros [[=] | []] |].
    destruct (messages_fetch c channel _) as [err | msg]; [by intros [[=] | []] |].
    cbn [effects fst app]. intros [[=] | [[=] | Hin]].
    apply listener_effects in Hin as [Hin | [err [=]]].
    destruct (messageUpdate_null_effects _ _ _ Hin)
      as (lc & main & rest & fs & [= -> -> ->] & Hhd).
    by exists main, rest. }
  intros msg fetchedMessage logChannel author Hearly Hfetched Hres Hlog Hguild Hauthor Htyped.
  subst out. rewrite Hearly. revert Hfetched. unfold fetched.
  destruct (channels_fetch c (d_channel_id (d packet))) as [err | channel]; [done |].
  destruct (messages_fetch c channel (d_id (d packet))) as [err | msg']; [done |].
  intros [= ->]. cbn [effects fst].
  change ([MasterLogDebug "Raw Event:" packet; EmitMessageUpdate None msg] ++ ?x)
    with ([MasterLogDebug "Raw Event:" packet; EmitMessageUpdate None msg] ++ x).
  rewrite sends_app, sends_listener. cbn [sends omap app].
  rewrite (messageUpdate_fetched c None msg None fetchedMessage logChannel eq_refl Hres Hlog).
  apply Id_eqb_eq in Hguild. rewrite Hguild, Hauthor, messageUpdate_changes_null.
  destruct (embeds_of_typed
              (map (fun kv => (snd kv, "Attachment Added")) (msg_attachments fetchedMessage)))
    as (embeds & Hembeds & _).
  { rewrite Forall_map. eapply Forall_impl; [exact Htyped |]. by intros kv Hkv. }
  rewrite Hembeds. cbn [effects fst sends omap].
  exists (update_embed None fetchedMessage author), embeds.
  split; [by rewrite map_map |]. split; [done |]. split; [done |].
  apply embeds_of_length in Hembeds. by rewrite Hembeds, length_map.
Qed.

Lemma raw_message_update_witness :
  let packet := Examples.update_packet "A" 900 in
  let out := snd (raw Examples.client packet (initial 5000)) in
  t packet = "MESSAGE_UPDATE"
  /\ before_ready (d_timestamp (d packet)) (readyTimestamp Examples.client) = true
  /\ fetched Examples.client packet = Some (Examples.cached "A")
  /\ emitted (effects out) = [(None, Examples.cached "A")]
  /\ exists main rest,
       sends (effects out) = [(Examples.modlog, main :: rest, [])]
       /\ head (fields main) = Some uh_oh.
Proof.
  intros packet out.
  split; [reflexivity |]. split; [reflexivity |]. split; [reflexivity |].
  destruct (raw_message_update Examples.client packet (initial 5000) eq_refl)
    as (_ & _ & Hem & _ & _ & _ & _ & Hsend).
  split; [exact Hem |].
  destruct (Hsend (Examples.cached "A") (Examples.cached "A") Examples.modlog
              {| user_id := "7"; username := "moon" |}
              eq_refl eq_refl eq_refl eq_refl eq_refl eq_refl (Forall_nil_2 _))
    as (main & rest & Hsends & _ & Hhead & _).
  exists main, rest. split; [exact Hsends | exact Hhead].
Defined.

(** ** The shared [messageDeleteTimer]: runs of the module *)


Lemma clearTimeout_In v pending tm :
  In tm (clearTimeout v pending) <-> In tm pending /\ v <> TTimeout (handle tm).
Proof.
  destruct v as [| | | h]; cbn; try (split; [by intros H | tauto]).
  rewrite filter_In. unfold handle_eqb.
  destruct (Nat.eqb_spec (handle tm) h) as [-> | Hne]; cbn.
  - split; [intros [_ [=]] | intros [_ H]; by destruct H].
  - split; [intros [H _]; split; [done | congruence] | tauto].
Qed.

(** The window part of [messageDelete]. *)
Lemma messageDelete_timers c who msg w :
  timers (messageDelete c who msg w) = clearTimeout (messageDeleteTimer w) (timers w).
Proof.
  unfold messageDelete. destruct (timer_truthy (messageDeleteTimer w)) eqn:Htr; cbn; [done |].
  by destruct (messageDeleteTimer w).
Qed.

Lemma messageDelete_var c who msg w :
  messageDeleteTimer (messageDelete c who msg w) =
  if timer_truthy (messageDeleteTimer w) then TNull else TTrue.
Proof. unfold messageDelete. by destruct (timer_truthy (messageDeleteTimer w)). Qed.

Lemma messageDelete_journal c who msg w :
  journal (messageDelete c who msg w) = dispatch c (clock w) who msg :: journal w.
Proof. unfold messageDelete. by destruct (timer_truthy (messageDeleteTimer w)). Qed.

Lemma messageDelete_clock c who msg w : clock (messageDelete c who msg w) = clock w.
Proof. unfold messageDelete. by destruct (timer_truthy (messageDeleteTimer w)). Qed.

Lemma messageDelete_next_handle c who msg w :
  next_handle (messageDelete c who msg w) = next_handle w.
Proof. unfold messageDelete. by destruct (timer_truthy (messageDeleteTimer w)). Qed.

Create Rewrite HintDb window.
#[export] Hint Rewrite messageDelete_timers messageDelete_var messageDelete_journal
  messageDelete_clock messageDelete_next_handle : window.

(** [raw] on a [MESSAGE_DELETE] packet whose channel is fetched. *)
Lemma raw_delete c packet channel w :
  t packet = "MESSAGE_DELETE" ->
  channels_fetch c (d_channel_id (d packet)) = inr channel ->
  fst (raw c packet w) =
  if timer_truthy (messageDeleteTimer w) then disarm w
  else arm (synthesized packet channel) w.
Proof.
  intros Ht Hch. unfold raw. rewrite Ht, Hch. cbn [String.eqb Ascii.eqb Bool.eqb].
  by destruct (timer_truthy (messageDeleteTimer w)).
Qed.

(** [raw] never takes a timer out of the queue. *)
Lemma raw_timers_kept c packet w tm :
  In tm (timers w) -> In tm (timers (fst (raw c packet w))).
Proof.
  intros Hin. unfold raw.
  destruct (String.eqb (t packet) "MESSAGE_UPDATE"); [done |].
  destruct (String.eqb (t packet) "MESSAGE_DELETE"); [| done].
  destruct (channels_fetch c _); [done |].
  destruct (negb (timer_truthy (messageDeleteTimer w))); cbn; [| done].
  apply in_app_iff. by left.
Qed.

Lemma fire_timers c h w tm0 :
  find (handle_eqb h) (timers w) = Some tm0 ->
  forall tm, In tm (timers (fire c h w)) <->
             In tm (timers w) /\ handle tm <> h /\ messageDeleteTimer w <> TTimeout (handle tm).
Proof.
  intros Hfind tm. unfold fire. rewrite Hfind, messageDelete_timers. cbn.
  rewrite clearTimeout_In, filter_In. unfold handle_eqb.
  destruct (Nat.eqb_spec (handle tm) h); cbn; intuition congruence.
Qed.

Lemma find_handle_In h pending tm :
  In tm pending -> handle tm = h -> exists tm0, find (handle_eqb h) pending = Some tm0.
Proof.
  intros Hin Hh.
  destruct (find (handle_eqb h) pending) as [tm0 |] eqn:Hfind; [by eexists |].
  apply (find_none _ _ Hfind) in Hin. unfold handle_eqb in Hin.
  apply Nat.eqb_neq in Hin. contradiction.
Qed.

(** C7, as stated, fails in both directions.  After the [raw] packet for
    "A" at 0, the structured notification for the other message "B" at 100
    cancels the timer of "A", which is then never logged.  And after the
    [raw] packets for "A" at 0 and "B" at 100, the structured notification
    for "A" at 200 finds the timer of "A" pending and does not cancel it:
    "A" is logged twice. *)
Lemma cancellation_ignores_the_key :
  let a := Raw (Examples.delete_packet "A") in
  let b := Raw (Examples.delete_packet "B") in
  let w1 := run Examples.client [(0, a)] 100 (initial 0) in
  let w2 := observe Examples.client (Structured (Examples.cached "B")) w1 in
  let w3 := run Examples.client [(0, a); (100, b)] 200 (initial 0) in
  let w4 := observe Examples.client (Structured (Examples.cached "A")) w3 in
  (map handle (pending_of "A" w1) = [0%nat]
   /\ pending_of "A" w2 = []
   /\ dispatches_of "A" (advance Examples.client 5000 w2) = [])
  /\ (map handle (pending_of "A" w3) = [0%nat]
      /\ map handle (pending_of "A" w4) = [0%nat]
      /\ map origin (dispatches_of "A" (advance Examples.client 5000 w4))
         = [FromTimer 0; FromGateway]).
Proof. vm_compute. repeat split. Qed.

(** C7, amended.  A step takes a pending timer out of the queue without
    running it exactly when the step calls the [messageDelete] handler
    (for a structured notification of any message, or from another timer's
    callback) while [messageDeleteTimer] holds that timer.  A [raw] packet
    and the passing of time never cancel a timer. *)
Theorem timer_cancelled_iff (c : Client) (w : World) (l : Label) (w' : World) (tm : Timer) :
  step c w l w' ->
  (cancelled w l w' tm <->
   In tm (timers w)
   /\ calls_handler l = true
   /\ messageDeleteTimer w = TTimeout (handle tm)
   /\ l <> LFire (handle tm)).
Proof.
  intros Hstep. unfold cancelled.
  destruct Hstep as [w now Hle | w tm' Hin Hdue | w msg | w packet]; cbn [calls_handler].
  - change (timers (set_clock now w)) with (timers w). split; [tauto | intros (_ & [=] & _)].
  - destruct (find_handle_In (handle tm') (timers w) tm' Hin eq_refl) as [tm0 Hfind].
    rewrite (fire_timers c _ w tm0 Hfind).
    destruct (decide (messageDeleteTimer w = TTimeout (handle tm))) as [Heq | Hne].
    + split.
      * intros (Hin' & _ & Hl). done.
      * intros (Hin' & _ & _ & Hl). split; [done |]. split; [| done]. tauto.
    + split.
      * intros (Hin' & Hnot & Hl). exfalso. apply Hnot. split; [done |]. split; [| done].
        intros Heq. apply Hl. by rewrite Heq.
      * intros (_ & _ & Heq & _). contradiction.
  - rewrite messageDelete_timers. rewrite clearTimeout_In. split.
    + intros (Hin & Hnot & Hl). repeat split; try done.
      destruct (decide (messageDeleteTimer w = TTimeout (handle tm))); [done | tauto].
    + intros (Hin & _ & Heq & Hl). repeat split; try done. tauto.
  - split.
    + intros (Hin & Hnot & _). exfalso. apply Hnot. by apply raw_timers_kept.
    + intros (_ & [=] & _).
Qed.

Lemma timer_cancelled_iff_witness :
  let w := fst (raw Examples.client (Examples.delete_packet "A") (initial 0)) in
  let w' := messageDelete Examples.client FromGateway (Examples.cached "B") w in
  let tm := {| handle := 0; due := 500;
               payload := synthesized (Examples.delete_packet "A") Examples.general |} in
  step Examples.client w (LStructured (Examples.cached "B")) w'
  /\ cancelled w (LStructured (Examples.cached "B")) w' tm.
Proof.
  intros w w' tm.
  assert (Hstep : step Examples.client w (LStructured (Examples.cached "B")) w')
    by apply step_structured.
  split; [exact Hstep |].
  apply (timer_cancelled_iff Examples.client w (LStructured (Examples.cached "B")) w' tm Hstep).
  split; [left; reflexivity |]. split; [reflexivity |]. split; [reflexivity | discriminate].
Defined.

(** ** The invariant of the window *)
















(** ** The event loop is a run of the module *)

Lemma earliest_In pending tm : earliest pending = Some tm -> In tm pending.
Proof.
  revert tm. induction pending as [| tm0 rest IH]; intros tm; cbn; [done |].
  destruct (earliest rest) as [tm' |].
  - destruct (Z.ltb (due tm') (due tm0)); intros [= <-]; [right; by apply IH | by left].
  - intros [= <-]. by left.
Qed.

Lemma earliest_None pending : earliest pending = None -> pending = [].
Proof.
  destruct pending as [| tm0 rest]; cbn; [done |].
  by destruct (earliest rest) as [tm' |]; [destruct (Z.ltb _ _) |].
Qed.

Lemma earliest_least pending :
  forall tm, earliest pending = Some tm -> forall tm', In tm' pending -> due tm <= due tm'.
Proof.
  induction pending as [| tm0 rest IH]; intros tm; cbn; [done |].
  destruct (earliest rest) as [tm1 |] eqn:Hrest.
  - specialize (IH tm1 eq_refl).
    destruct (Z.ltb_spec (due tm1) (due tm0)) as [Hlt | Hge]; intros [= <-] tm' [<- | Hin].
    + lia.
    + by apply IH.
    + lia.
    + specialize (IH tm' Hin). lia.
  - apply earliest_None in Hrest as ->. intros [= <-] tm' [<- | []]. lia.
Qed.

Lemma filter_length_lt (p : Timer -> bool) (pending : list Timer) tm :
  In tm pending -> p tm = false ->
  (length (List.filter p pending) < length pending)%nat.
Proof.
  induction pending as [| tm0 rest IH]; cbn; [done |].
  intros [-> | Hin] Hp.
  - rewrite Hp. pose proof (filter_length_le p rest). lia.
  - specialize (IH Hin Hp). destruct (p tm0); cbn; lia.
Qed.

Lemma clearTimeout_length v pending :
  (length (clearTimeout v pending) <= length pending)%nat.
Proof. destruct v; cbn; try lia. apply filter_length_le. Qed.

(** A timer that runs leaves the queue, and none is added. *)
Lemma fire_length c w tm :
  In tm (timers w) ->
  (length (timers (fire c (handle tm) w)) < length (timers w))%nat.
Proof.
  intros Hin. unfold fire.
  destruct (find_handle_In (handle tm) (timers w) tm Hin eq_refl) as [tm0 ->].
  rewrite messageDelete_timers. cbn.
  pose proof (clearTimeout_length (messageDeleteTimer w)
                (List.filter (fun x => negb (handle_eqb (handle tm) x)) (timers w))).
  pose proof (filter_length_lt (fun x => negb (handle_eqb (handle tm) x)) (timers w) tm Hin) as Hlt.
  unfold handle_eqb in Hlt at 1. rewrite Nat.eqb_refl in Hlt. specialize (Hlt eq_refl). lia.
Qed.

Lemma advance_loop_quiet c now fuel : forall w, quiet c w (advance_loop fuel c now w).
Proof.
  induction fuel as [| fuel IH]; intros w; cbn.
  - apply quiet_tick with (now := Z.max (clock w) now); [lia | apply quiet_refl].
  - destruct (earliest (timers w)) as [tm |] eqn:Hearliest.
    + destruct (Z.leb (due tm) now).
      * apply quiet_tick with (now := Z.max (clock w) (due tm)); [lia |].
        apply quiet_fire with (tm := tm); [by apply earliest_In | cbn; lia | apply IH].
      * apply quiet_tick with (now := Z.max (clock w) now); [lia | apply quiet_refl].
    + apply quiet_tick with (now := Z.max (clock w) now); [lia | apply quiet_refl].
Qed.

(** The event loop only lets time pass and runs due timers. *)
Lemma advance_quiet c now w : quiet c w (advance c now w).
Proof. apply advance_loop_quiet. Qed.

(** The event loop has fuel for every timer due by [now]: none of them is
    left in the queue. *)
Lemma advance_loop_complete c now fuel :
  forall w, (length (timers w) <= fuel)%nat ->
            forall tm, In tm (timers (advance_loop fuel c now w)) -> now < due tm.
Proof.
  induction fuel as [| fuel IH]; intros w Hlen tm; cbn.
  - destruct (timers w); [done | cbn in Hlen; lia].
  - destruct (earliest (timers w)) as [tm0 |] eqn:Hearliest.
    + destruct (Z.leb_spec (due tm0) now) as [Hle | Hlt].
      * apply IH.
        pose proof (fire_length c (set_clock (Z.max (clock w) (due tm0)) w) tm0
                      (earliest_In _ _ Hearliest)) as Hfire.
        cbn in Hfire. cbn. lia.
      * cbn. intros Hin. pose proof (earliest_least _ _ Hearliest tm Hin). lia.
    + cbn. by rewrite (earliest_None _ Hearliest).
Qed.

Lemma advance_complete c now w tm : In tm (timers (advance c now w)) -> now < due tm.
Proof. by apply advance_loop_complete. Qed.

Lemma quiet_steps c w w' : quiet c w w' -> exists ls, steps c w ls w'.
Proof.
  induction 1 as [w | w now w' Hle _ [ls IH] | w tm w' Hin Hdue _ [ls IH]].
  - exists []. apply steps_nil.
  - exists (LTick now :: ls). eapply steps_cons; [by apply step_tick | done].
  - exists (LFire (handle tm) :: ls). eapply steps_cons; [by apply step_fire | done].
Qed.

Lemma steps_app c w ls w' ls' w'' :
  steps c w ls w' -> steps c w' ls' w'' -> steps c w (ls ++ ls') w''.
Proof.
  induction 1 as [| w l w1 ls w2 Hstep _ IH]; [done |].
  intros H. cbn. eapply steps_cons; [done | by apply IH].
Qed.

Lemma observe_step c o w : exists l, step c w l (observe c o w).
Proof.
  destruct o as [msg | packet].
  - exists (LStructured msg). apply step_structured.
  - exists (LRaw packet). apply step_raw.
Qed.

(** Every world the event loop produces from a reachable world is
    reachable. *)
Lemma run_steps c events horizon : forall w, exists ls, steps c w ls (run c events horizon w).
Proof.
  unfold run. induction events as [| [time o] events IH]; intros w; cbn.
  - apply quiet_steps, advance_quiet.
  - destruct (quiet_steps _ _ _ (advance_quiet c time w)) as [ls1 H1].
    destruct (observe_step c o (advance c time w)) as [l Hl].
    destruct (IH (observe c o (advance c time w))) as [ls2 H2].
    exists (ls1 ++ l :: ls2). eapply steps_app; [done |]. by eapply steps_cons.
Qed.

Lemma run_reachable c events horizon w :
  reachable c w -> reachable c (run c events horizon w).
Proof.
  intros (now & ls & Hsteps). destruct (run_steps c events horizon w) as [ls' Hrun].
  exists now, (ls ++ ls'). by eapply steps_app.
Qed.

(** ** One deletion at a time *)

Lemma fire_clock c h w : clock (fire c h w) = clock w.
Proof.
  unfold fire. destruct (find _ _); [| done]. by rewrite messageDelete_clock.
Qed.

Lemma quiet_clock c w w' : quiet c w w' -> clock w <= clock w'.
Proof.
  induction 1 as [w | w now w' Hle _ IH | w tm w' _ _ _ IH]; [lia | cbn in IH; lia |].
  by rewrite fire_clock in IH.
Qed.

(** With no timer pending, nothing happens while nothing is observed. *)
Lemma quiet_empty c w w' :
  quiet c w w' ->
  timers w = [] ->
  timers w' = [] /\ messageDeleteTimer w' = messageDeleteTimer w
  /\ journal w' = journal w /\ next_handle w' = next_handle w.
Proof.
  induction 1 as [w | w now w' Hle _ IH | w tm w' Hin _ _ _]; intros Hempty.
  - done.
  - by apply IH.
  - rewrite Hempty in Hin. destruct Hin.
Qed.

Lemma quiet_idle c w w' : quiet c w w' -> idle w -> idle w'.
Proof.
  intros Hq [Hvar Hempty].
  destruct (quiet_empty c w w' Hq Hempty) as (Ht & Hv & _).
  split; [by rewrite Hv | done].
Qed.

(** The callback of the one pending timer, held by the variable, runs. *)
Lemma fire_armed c w tm :
  timers w = [tm] ->
  messageDeleteTimer w = TTimeout (handle tm) ->
  fire c (handle tm) w =
  {| clock := clock w;
     messageDeleteTimer := TNull;
     timers := [];
     next_handle := next_handle w;
     journal := dispatch c (clock w) (FromTimer (handle tm)) (payload tm) :: journal w |}.
Proof.
  intros Htimers Hvar. unfold fire. rewrite Htimers. cbn. unfold handle_eqb.
  rewrite Nat.eqb_refl. cbn. unfold messageDelete. cbn. by rewrite Hvar.
Qed.

(** With one timer pending and held by the variable, and nothing observed:
    either the timer is still pending and nothing was dispatched, or it ran,
    when due, and its payload was dispatched once. *)
Lemma quiet_armed c w w' tm :
  quiet c w w' ->
  timers w = [tm] ->
  messageDeleteTimer w = TTimeout (handle tm) ->
  (timers w' = [tm] /\ messageDeleteTimer w' = TTimeout (handle tm)
   /\ journal w' = journal w /\ next_handle w' = next_handle w)
  \/ (timers w' = [] /\ messageDeleteTimer w' = TNull
      /\ next_handle w' = next_handle w
      /\ exists time,
           due tm <= time /\ time <= clock w'
           /\ journal w' = dispatch c time (FromTimer (handle tm)) (payload tm) :: journal w).
Proof.
  induction 1 as [w | w now w' Hle _ IH | w tm0 w' Hin Hdue Hq _]; intros Htimers Hvar.
  - by left.
  - by apply IH.
  - rewrite Htimers in Hin. destruct Hin as [<- | []].
    rewrite (fire_armed c w tm Htimers Hvar) in Hq.
    pose proof (quiet_clock _ _ _ Hq) as Hclock.
    apply quiet_empty in Hq as (Ht & Hv & Hj & Hn); [| done].
    right. repeat split; try done.
    exists (clock w). by repeat split.
Qed.

Lemma arm_idle msg w :
  idle w ->
  timers (arm msg w)
  = [{| handle := next_handle w; due := clock w + window; payload := msg |}]
  /\ messageDeleteTimer (arm msg w) = TTimeout (next_handle w).
Proof. intros [_ Hempty]. cbn. by rewrite Hempty. Qed.

(** The event loop on a world with one pending timer held by the variable. *)
Lemma advance_armed c w tm horizon :
  timers w = [tm] ->
  messageDeleteTimer w = TTimeout (handle tm) ->
  clock w <= due tm ->
  advance c horizon w =
  if Z.leb (due tm) horizon
  then {| clock := horizon;
          messageDeleteTimer := TNull;
          timers := [];
          next_handle := next_handle w;
          journal := dispatch c (due tm) (FromTimer (handle tm)) (payload tm) :: journal w |}
  else set_clock (Z.max (clock w) horizon) w.
Proof.
  intros Htimers Hvar Hclock. unfold advance. rewrite Htimers.
  cbn [length advance_loop]. rewrite Htimers. cbn [earliest].
  destruct (Z.leb_spec (due tm) horizon) as [Hle | Hlt]; [| done].
  rewrite (fire_armed c (set_clock _ w) tm); [| done | done].
  cbn. rewrite Z.max_r by lia. rewrite Z.max_r by lia. reflexivity.
Qed.

Lemma clearTimeout_nil v : clearTimeout v [] = [].
Proof. by destruct v. Qed.

(** The handler called on a world where no timer is pending and the
    variable is unset: the first-seen flag is raised. *)
Lemma messageDelete_idle c who msg w :
  idle w ->
  let w' := messageDelete c who msg w in
  timers w' = [] /\ messageDeleteTimer w' = TTrue
  /\ journal w' = dispatch c (clock w) who msg :: journal w.
Proof.
  intros [Hvar Hempty] w'. subst w'.
  autorewrite with window. rewrite Hvar, Hempty.
  by rewrite clearTimeout_nil.
Qed.

(** C1, as stated, fails.  Two uncached messages "A" and "B" deleted 100ms
    apart: "B" is never dispatched.  And an uncached "A" followed within
    the window by a cached "B" (structured notification, then the
    continuation of the [raw] handler): "B" is dispatched twice, once from
    the structured notification and once from a timer, and "A" never. *)
Lemma overlapping_deletions_lost_or_doubled :
  let raw_a := Raw (Examples.delete_packet "A") in
  let raw_b := Raw (Examples.delete_packet "B") in
  let w := run Examples.client [(0, raw_a); (100, raw_b)] 5000 (initial 0) in
  let w' := run Examples.client
              [(0, raw_a); (100, Structured (Examples.cached "B")); (100, raw_b)]
              5000 (initial 0) in
  (reachable Examples.client w /\ reachable Examples.client w')
  /\ (map origin (dispatches_of "A" w) = [FromTimer 0] /\ dispatches_of "B" w = [])
  /\ (dispatches_of "A" w' = []
      /\ map origin (dispatches_of "B" w') = [FromTimer 1; FromGateway]
      /\ map at_time (dispatches_of "B" w') = [600; 100]).
Proof.
  intros raw_a raw_b w w'. split.
  - split; apply run_reachable; exists 0, []; apply steps_nil.
  - vm_compute. repeat split.
Qed.

(** C6, as stated, fails.  After two uncached deletions 100ms apart the
    variable is left at [true] with no timer pending; the [raw] packet for
    "C" ten seconds later, alone in its window, only resets the variable:
    no timer is set and "C" is never dispatched. *)
Lemma raw_only_deletion_never_dispatched :
  let before := run Examples.client
                  [(0, Raw (Examples.delete_packet "A")); (100, Raw (Examples.delete_packet "B"))]
                  10000 (initial 0) in
  let after := run Examples.client [(10000, Raw (Examples.delete_packet "C"))] 60000 before in
  reachable Examples.client before
  /\ (messageDeleteTimer before = TTrue /\ timers before = [])
  /\ (pending_of "C" (observe Examples.client (Raw (Examples.delete_packet "C")) before) = []
      /\ dispatches_of "C" after = []
      /\ clock after = 60000).
Proof.
  intros before after. split.
  - apply run_reachable. exists 0, []. apply steps_nil.
  - vm_compute. repeat split.
Qed.

(** What the handler logs for a synthesized message: one embed, with the
    channel in place of the author and the "Uh oh!" field in place of the
    content, when the log channel is in the packet's guild; nothing
    otherwise. *)
Lemma synthesized_log c now packet channel logChannel :
  channels_fetch c (logChannelId c) = inr logChannel ->
  messageDelete_log c now (synthesized packet channel) =
  if Id_eqb (channel_guildId logChannel) (d_guild_id (d packet))
  then
    let embeds :=
      [{| title := "Message Deleted";
          description := "in channel " +:+ channel_toString channel;
          color := Some 16711680;
          fields := [uh_oh;
                     ("When", VStr ("<t:" +:+ pretty (round_seconds (Some now)) +:+ ":R>"))] |}] in
    ([Send logChannel embeds []],
     match channel_send c logChannel embeds [] with
     | inr _ => Normal tt
     | inl e => Throw e
     end)
  else ([], Normal tt).
Proof.
  intros Hlog. unfold messageDelete_log, send, await. cbn. rewrite Hlog. cbn.
  destruct (Id_eqb (channel_guildId logChannel) (d_guild_id (d packet))); [| done].
  cbn. by destruct (channel_send c logChannel _ _) as [e | []].
Qed.

Section OneDeletion.

(** A deletion whose [raw] packet is [packet], meeting the window idle in
    the world [w0]; the packet's channel is fetched as [channel]. *)
Variable c : Client.
Variable w0 : World.
Variable packet : Packet.
Variable channel : Channel.

Hypothesis w0_idle : idle w0.
Hypothesis packet_is_delete : t packet = "MESSAGE_DELETE".
Hypothesis channel_fetched : channels_fetch c (d_channel_id (d packet)) = inr channel.

Let synth : Message := synthesized packet channel.

(** Until something is observed the window stays as it is. *)
Lemma quiet_from_idle w1 :
  quiet c w0 w1 ->
  idle w1 /\ journal w1 = journal w0 /\ next_handle w1 = next_handle w0.
Proof.
  intros Hq. split; [by eapply quiet_idle |].
  destruct w0_idle as [_ Hempty].
  by destruct (quiet_empty c w0 w1 Hq Hempty) as (_ & _ & ? & ?).
Qed.

(** The [raw] packet, observed first, arms the timer. *)
Lemma raw_from_idle w1 :
  quiet c w0 w1 ->
  let tm := {| handle := next_handle w0; due := clock w1 + window; payload := synth |} in
  timers (fst (raw c packet w1)) = [tm]
  /\ messageDeleteTimer (fst (raw c packet w1)) = TTimeout (handle tm)
  /\ journal (fst (raw c packet w1)) = journal w0
  /\ clock (fst (raw c packet w1)) = clock w1.
Proof.
  intros Hq tm. destruct (quiet_from_idle w1 Hq) as ([Hvar Hempty] & Hj & Hn).
  rewrite (raw_delete c packet channel w1 packet_is_delete channel_fetched), Hvar. cbn.
  by rewrite Hempty, Hn, Hj.
Qed.

(** C1, amended.  A deletion that meets the window idle (the variable
    unset, no timer pending) and is not interleaved with another one is
    dispatched exactly once:
    - structured notification, then the [raw] packet: the one dispatch is
      the structured one, and the window is idle again;
    - [raw] packet, then the structured notification less than 500ms later:
      the timer is cancelled, the one dispatch is the structured one, and
      the window is idle again;
    - [raw] packet alone: nothing is dispatched while the timer is pending,
      and once it has run the one dispatch is the synthesized one; under the
      event loop it has run by any time from 500ms on. *)
Theorem isolated_deletion_dispatched_once (msg : Message) :
  d_id (d packet) = msg_id msg ->
  (forall w1 w2 w3,
     quiet c w0 w1 ->
     quiet c (messageDelete c FromGateway msg w1) w2 ->
     quiet c (fst (raw c packet w2)) w3 ->
     journal w2 = dispatch c (clock w1) FromGateway msg :: journal w0
     /\ journal w3 = dispatch c (clock w1) FromGateway msg :: journal w0
     /\ idle w3)
  /\ (forall w1 w2 w3,
        quiet c w0 w1 ->
        quiet c (fst (raw c packet w1)) w2 ->
        clock w2 < clock w1 + window ->
        quiet c (messageDelete c FromGateway msg w2) w3 ->
        journal w2 = journal w0
        /\ journal w3 = dispatch c (clock w2) FromGateway msg :: journal w0
        /\ idle w3)
  /\ (forall w1 w2,
        quiet c w0 w1 ->
        quiet c (fst (raw c packet w1)) w2 ->
        (journal w2 = journal w0 /\ length (timers w2) = 1%nat)
        \/ (idle w2
            /\ exists time,
                 clock w1 + window <= time
                 /\ journal w2 = dispatch c time (FromTimer (next_handle w0))
                                   (synthesized packet channel) :: journal w0))
  /\ (forall w1 horizon,
        quiet c w0 w1 ->
        clock w1 + window <= horizon ->
        journal (advance c horizon (fst (raw c packet w1)))
        = dispatch c (clock w1 + window) (FromTimer (next_handle w0))
            (synthesized packet channel) :: journal w0).
Proof.
  intros _. split; [| split; [| split]].
  - intros w1 w2 w3 Hq1 Hq2 Hq3.
    destruct (quiet_from_idle w1 Hq1) as (Hidle1 & Hj1 & _).
    destruct (messageDelete_idle c FromGateway msg w1 Hidle1) as (Hts & Hvs & Hjs).
    destruct (quiet_empty _ _ _ Hq2 Hts) as (Ht2 & Hv2 & Hj2 & _).
    rewrite Hvs in Hv2. rewrite Hjs, Hj1 in Hj2.
    rewrite (raw_delete c packet channel w2 packet_is_delete channel_fetched), Hv2 in Hq3.
    cbn [timer_truthy] in Hq3.
    destruct (quiet_empty _ _ _ Hq3 Ht2) as (Ht3 & Hv3 & Hj3 & _).
    cbn in Hv3, Hj3. split; [done |]. split; [congruence |].
    split; [by rewrite Hv3 | done].
  - intros w1 w2 w3 Hq1 Hq2 Hlt Hq3.
    destruct (raw_from_idle w1 Hq1) as (Htr & Hvr & Hjr & _).
    destruct (quiet_armed _ _ _ _ Hq2 Htr Hvr)
      as [(Ht2 & Hv2 & Hj2 & _) | (_ & _ & _ & time & Hdue & Hle & _)];
      [| cbn in Hdue; lia].
    assert (Hts : timers (messageDelete c FromGateway msg w2) = []).
    { rewrite messageDelete_timers, Hv2, Ht2. cbn. unfold handle_eqb. cbn.
      by rewrite Nat.eqb_refl. }
    destruct (quiet_empty _ _ _ Hq3 Hts) as (Ht3 & Hv3 & Hj3 & _).
    rewrite messageDelete_var, Hv2 in Hv3. rewrite messageDelete_journal in Hj3.
    split; [congruence |]. split; [congruence |].
    split; [by rewrite Hv3 | done].
  - intros w1 w2 Hq1 Hq2.
    destruct (raw_from_idle w1 Hq1) as (Htr & Hvr & Hjr & _).
    destruct (quiet_armed _ _ _ _ Hq2 Htr Hvr)
      as [(Ht2 & Hv2 & Hj2 & _) | (Ht2 & Hv2 & _ & time & Hdue & Hle & Hj2)].
    + left. split; [congruence | by rewrite Ht2].
    + right. split; [split; [by rewrite Hv2 | done] |].
      exists time. split; [done |]. by rewrite Hj2, Hjr.
  - intros w1 horizon Hq1 Hle.
    destruct (raw_from_idle w1 Hq1) as (Htr & Hvr & Hjr & Hcr).
    rewrite (advance_armed c _ _ horizon Htr Hvr) by (cbn; rewrite Hcr; unfold window; lia).
    match goal with |- context [Z.leb ?a horizon] =>
      destruct (Z.leb_spec a horizon) as [_ | Hlt]; [| cbn in Hlt; lia] end.
    cbn. by rewrite Hjr.
Qed.

(** C6, amended.  When the [raw] packet of a deletion meets the window idle
    (the variable unset, no timer pending) and its channel is fetched, and
    nothing else is observed afterwards: the only dispatch that can follow
    is the one synthesized from the packet's id, channel id and guild id and
    the fetched channel, there is at most one, and it happens no earlier
    than 500ms after the packet; under the event loop nothing is dispatched
    before that time and exactly that one dispatch has happened from that
    time on. *)
Theorem raw_only_deletion_synthesized_once :
  let w1 := fst (raw c packet w0) in
  let synth := synthesized packet channel in
  (msg_id synth = d_id (d packet) /\ msg_channel synth = channel
   /\ msg_channelId synth = d_channel_id (d packet) /\ msg_guildId synth = d_guild_id (d packet)
   /\ msg_content synth = None /\ msg_author synth = None /\ msg_attachments synth = [])
  /\ (forall w2,
        quiet c w1 w2 ->
        journal w2 = journal w0
        \/ exists time,
             clock w0 + window <= time
             /\ journal w2 = dispatch c time (FromTimer (next_handle w0)) synth :: journal w0)
  /\ (forall horizon,
        horizon < clock w0 + window ->
        journal (advance c horizon w1) = journal w0)
  /\ (forall horizon,
        clock w0 + window <= horizon ->
        journal (advance c horizon w1)
        = dispatch c (clock w0 + window) (FromTimer (next_handle w0)) synth :: journal w0).
Proof.
  intros w1 synth'. subst synth'. fold synth.
  destruct (raw_from_idle w0 (quiet_refl c w0)) as (Htimers & Hvar & Hj1 & Hc1).
  fold w1 in Htimers, Hvar, Hj1, Hc1.
  set (tm := {| handle := next_handle w0; due := clock w0 + window; payload := synth |}) in *.
  split; [done |]. split; [| split].
  - intros w2 Hq.
    destruct (quiet_armed _ _ _ _ Hq Htimers Hvar)
      as [(_ & _ & Hj2 & _) | (_ & _ & _ & time & Hdue & _ & Hj2)].
    + left. congruence.
    + right. exists time. split; [done |]. by rewrite Hj2, Hj1.
  - intros horizon Hlt.
    rewrite (advance_armed c w1 tm horizon Htimers Hvar) by (cbn; unfold window; lia).
    destruct (Z.leb_spec (due tm) horizon) as [Hle | _]; [cbn in Hle; lia | exact Hj1].
  - intros horizon Hle.
    rewrite (advance_armed c w1 tm horizon Htimers Hvar) by (cbn; unfold window; lia).
    destruct (Z.leb_spec (due tm) horizon) as [_ | Hlt]; [| cbn in Hlt; lia].
    cbn. by rewrite Hj1.
Qed.

End OneDeletion.

Lemma isolated_deletion_dispatched_once_witness :
  let w0 := initial 0 in
  let packet := Examples.delete_packet "A" in
  idle w0
  /\ t packet = "MESSAGE_DELETE"
  /\ channels_fetch Examples.client (d_channel_id (d packet)) = inr Examples.general
  /\ d_id (d packet) = msg_id (Examples.cached "A")
  /\ journal (advance Examples.client 500 (fst (raw Examples.client packet w0)))
     = [dispatch Examples.client 500 (FromTimer 0) (synthesized packet Examples.general)].
Proof.
  intros w0 packet.
  assert (Hidle : idle w0) by (split; reflexivity).
  split; [exact Hidle |]. split; [reflexivity |]. split; [reflexivity |]. split; [reflexivity |].
  destruct (isolated_deletion_dispatched_once Examples.client w0 packet Examples.general
              Hidle eq_refl eq_refl (Examples.cached "A") eq_refl) as (_ & _ & _ & Hloop).
  apply (Hloop w0 500); [apply quiet_refl | unfold window; cbn; lia].
Defined.

Lemma raw_only_deletion_synthesized_once_witness :
  let w0 := initial 1000 in
  let packet := Examples.delete_packet "C" in
  idle w0
  /\ t packet = "MESSAGE_DELETE"
  /\ channels_fetch Examples.client (d_channel_id (d packet)) = inr Examples.general
  /\ journal (advance Examples.client 1499 (fst (raw Examples.client packet w0))) = []
  /\ journal (advance Examples.client 1500 (fst (raw Examples.client packet w0)))
     = [dispatch Examples.client 1500 (FromTimer 0) (synthesized packet Examples.general)].
Proof.
  intros w0 packet.
  assert (Hidle : idle w0) by (split; reflexivity).
  split; [exact Hidle |]. split; [reflexivity |]. split; [reflexivity |].
  destruct (raw_only_deletion_synthesized_once Examples.client w0 packet Examples.general
              Hidle eq_refl eq_refl) as (_ & _ & Hbefore & Hfrom).
  split.
  - apply (Hbefore 1499). unfold window. cbn. lia.
  - apply (Hfrom 1500). unfold window. cbn. lia.
Defined.

(** * Further properties of the modelled code *)

(** ** [loadOptions]: the alias table *)

Lemma normalize_app aliases aliases' arg :
  normalize (aliases ++ aliases') arg = normalize aliases' (normalize aliases arg).
Proof. unfold normalize. apply fold_left_app. Qed.

Lemma normalize_unlisted aliases arg : unlisted aliases arg -> normalize aliases arg = arg.
Proof.
  unfold unlisted. induction aliases as [| [baseFlag names] aliases IH]; [done |].
  intros [Hhere Hrest]%Forall_cons. cbn [snd] in Hhere.
  change (normalize ((baseFlag, names) :: aliases) arg)
    with (normalize aliases (if includes names arg then baseFlag else arg)).
  rewrite Hhere. by apply IH.
Qed.

(** X4.  An argument the alias table does not list is kept as it is.  An
    argument listed under a flag, and under none before it, becomes that
    flag, provided the flag itself is not listed under a later one (else the
    loop goes on renaming). *)
Theorem normalize_resolves (aliases : list (string * list string)) (arg : string) :
  (unlisted aliases arg -> normalize aliases arg = arg)
  /\ (forall before baseFlag names after,
        aliases = before ++ (baseFlag, names) :: after ->
        unlisted before arg ->
        includes names arg = true ->
        unlisted after baseFlag ->
        normalize aliases arg = baseFlag).
Proof.
  split; [apply normalize_unlisted |].
  intros before baseFlag names after -> Hbefore Hin Hafter.
  rewrite normalize_app, (normalize_unlisted before arg Hbefore).
  change (normalize ((baseFlag, names) :: after) arg)
    with (normalize after (if includes names arg then baseFlag else arg)).
  rewrite Hin. by apply normalize_unlisted.
Qed.

Lemma normalize_resolves_witness :
  let aliases := [("-v", ["--verbose"]); ("-m", ["--multi"; "-M"])] in
  (unlisted aliases "-q" /\ normalize aliases "-q" = "-q")
  /\ (unlisted [("-v", ["--verbose"])] "-M"
      /\ includes ["--multi"; "-M"] "-M" = true
      /\ unlisted [] "-m"
      /\ normalize aliases "-M" = "-m").
Proof.
  intros aliases.
  assert (H1 : unlisted aliases "-q") by (repeat constructor).
  assert (H2 : unlisted [("-v", ["--verbose"])] "-M") by (repeat constructor).
  assert (H3 : unlisted [] "-m") by constructor.
  destruct (normalize_resolves aliases "-q") as [Hkeep _].
  destruct (normalize_resolves aliases "-M") as [_ Hres].
  split; [split; [exact H1 | exact (Hkeep H1)] |].
  split; [exact H2 |]. split; [reflexivity |]. split; [exact H3 |].
  exact (Hres [("-v", ["--verbose"])] "-m" ["--multi"; "-M"] [] eq_refl H2 eq_refl H3).
Defined.

(** ** [loadOptions]: what ends up in [Application.options] *)

Lemma multiples_ok_empty multiples :
  Forall (fun f => includes Object_prototype f = false) multiples -> multiples_ok multiples ∅.
Proof.
  intros Hclear f Hf. unfold property. rewrite lookup_empty.
  assert (Hin : In f multiples).
  { unfold includes in Hf. apply existsb_exists in Hf as (g & Hg & <-%String.eqb_eq). done. }
  rewrite Forall_forall in Hclear. apply list_elem_of_In in Hin.
  by rewrite (Hclear f Hin).
Qed.

Lemma property_own options f v : options !! f = Some v -> property options f = Own v.
Proof. unfold property. by intros ->. Qed.

Lemma store_lookup_other multiples g v options options' f :
  store multiples g v options = Normal options' ->
  g <> f ->
  options' !! f = options !! f.
Proof.
  intros H Hne. revert H. unfold store, assign.
  destruct (includes multiples g).
  - destruct (property_falsy (property options g)).
    + intros [= <-]. by rewrite lookup_insert_ne.
    + destruct (property options g) as [[s | l] | |]; try done.
      intros [= <-]. by rewrite lookup_insert_ne.
  - intros [= <-].
    destruct (property options g); [| destruct (String.eqb g "__proto__") |];
      by rewrite ?lookup_insert_ne.
Qed.

(** What a store that returns leaves under a flag other than [__proto__]. *)
Lemma store_lookup_same multiples f v options options' :
  store multiples f v options = Normal options' ->
  f <> "__proto__" ->
  options' !! f = Some (if includes multiples f then OArr (prior options f ++ [v]) else OStr v).
Proof.
  intros H Hproto. revert H. unfold store, assign, property, prior.
  destruct (includes multiples f).
  - destruct (options !! f) as [[s | l] |]; cbn -[includes].
    + destruct (String.eqb s ""); [| done]. intros [= <-]. by rewrite lookup_insert_eq.
    + intros [= <-]. by rewrite lookup_insert_eq.
    + destruct (includes Object_prototype f); cbn -[includes]; [done |].
      intros [= <-]. by rewrite lookup_insert_eq.
  - destruct (options !! f) as [x |]; [intros [= <-]; by rewrite lookup_insert_eq |].
    destruct (includes Object_prototype f); [| intros [= <-]; by rewrite lookup_insert_eq].
    destruct (String.eqb_spec f "__proto__") as [? | _]; [contradiction |].
    intros [= <-]. by rewrite lookup_insert_eq.
Qed.

(** A store never creates an own property [__proto__]. *)
Lemma store_proto multiples g v options options' :
  store multiples g v options = Normal options' ->
  options !! "__proto__" = None ->
  options' !! "__proto__" = None.
Proof.
  intros H Hnone.
  destruct (decide (g = "__proto__")) as [-> | Hne];
    [| by rewrite (store_lookup_other _ _ _ _ _ "__proto__" H Hne)].
  revert H. unfold store, assign, property. rewrite Hnone. cbn -[includes].
  destruct (includes multiples "__proto__"); [done |]. by intros [= <-].
Qed.

(** Under [multiples_ok] the store is what the documentation says of it,
    but for [__proto__]. *)
Lemma store_documented multiples f v options :
  multiples_ok multiples options ->
  f <> "__proto__" ->
  store multiples f v options
  = Normal (<[f := if includes multiples f then OArr (prior options f ++ [v]) else OStr v]> options).
Proof.
  intros Hok Hproto. unfold store, assign, prior.
  destruct (includes multiples f) eqn:Hinc.
  - specialize (Hok f Hinc). revert Hok. unfold property.
    destruct (options !! f) as [[s | l] |]; cbn -[includes].
    + by intros ->.
    + done.
    + by destruct (includes Object_prototype f).
  - unfold property. destruct (options !! f); [done |].
    destruct (includes Object_prototype f); [| done].
    by destruct (String.eqb_spec f "__proto__").
Qed.

(** Under [multiples_ok] the store returns and keeps it. *)
Lemma store_ok multiples f arg options :
  multiples_ok multiples options ->
  exists options', store multiples f arg options = Normal options'
                   /\ multiples_ok multiples options'.
Proof.
  intros Hok.
  assert (Hret : exists options', store multiples f arg options = Normal options').
  { unfold store. destruct (includes multiples f) eqn:Hinc; [| by eexists].
    specialize (Hok f Hinc).
    destruct (property options f) as [[s | l] | |]; cbn -[includes] in *.
    - rewrite Hok. cbn -[includes]. by eexists.
    - by eexists.
    - destruct Hok.
    - by eexists. }
  destruct Hret as [options' Hstore]. exists options'. split; [done |].
  intros g Hg. destruct (decide (f = g)) as [<- | Hne].
  - assert (Hf : exists l, options' !! f = Some (OArr l)).
    { revert Hstore. unfold store. rewrite Hg.
      destruct (property_falsy (property options f)).
      - intros [= <-]. rewrite lookup_insert_eq. by eexists.
      - destruct (property options f) as [[s | l] | |]; try done.
        intros [= <-]. rewrite lookup_insert_eq. by eexists. }
    destruct Hf as [l Hl]. by rewrite (property_own _ _ _ Hl).
  - unfold property. rewrite (store_lookup_other _ _ _ _ _ g Hstore Hne). apply (Hok g Hg).
Qed.

Lemma pairs_ok multiples aliases :
  forall (n : nat) args options,
    (length args <= n)%nat ->
    multiples_ok multiples options ->
    exists options', pairs multiples aliases args options = Normal options'.
Proof.
  induction n as [| n IH]; intros args options Hlen Hok.
  - destruct args; [by eexists | cbn in Hlen; lia].
  - destruct args as [| flag [| value rest]]; [by eexists | by eexists |].
    cbn [pairs].
    destruct (store_ok multiples (normalize aliases flag) value options Hok)
      as (options1 & -> & Hok1).
    apply IH; [cbn in Hlen; lia | done].
Qed.

Lemma loop_ok multiples aliases args :
  forall flag options,
    multiples_ok multiples options ->
    exists flag' options',
      loop multiples aliases args (flag, options) = Normal (flag', options')
      /\ multiples_ok multiples options'.
Proof.
  induction args as [| arg rest IH]; intros flag options Hok; cbn [loop].
  - by eexists _, _.
  - unfold loop_body.
    destruct flag as [| | f]; try by apply IH.
    destruct (flag_truthy (FStr f)); [| by apply IH].
    destruct (store_ok multiples f arg options Hok) as (options' & -> & Hok').
    by apply IH.
Qed.

Lemma finish_never_raises flag options :
  exists options', finish (Normal (flag, options)) = Normal options'.
Proof. destruct flag as [| | f]; cbn; try by eexists. destruct (negb _); by eexists. Qed.

(** The one exception the loop can end with. *)
Lemma loop_throws multiples aliases args :
  forall st e,
    loop multiples aliases args st = Throw e ->
    e = "TypeError: this.options[flag].push is not a function".
Proof.
  induction args as [| arg rest IH]; intros [flag options] e; cbn [loop]; [done |].
  destruct (loop_body multiples aliases (flag, options) arg) as [st' | e'] eqn:Hbody;
    [by apply IH |].
  intros [= <-]. revert Hbody. unfold loop_body.
  destruct flag as [| | f]; try done.
  destruct (flag_truthy (FStr f)); [| done].
  unfold store. destruct (includes multiples f); [| done].
  destruct (property_falsy (property options f)); [done |].
  destruct (property options f) as [[s | l] | |]; try done; by intros [= <-].
Qed.

(** X2.  Called with arguments of the documented types, [loadOptions] can
    end with one exception only, the [TypeError] of a [push] that is
    missing.  It returns whenever no flag of [multiples]
    holds, or inherits from [Object.prototype], a truthy value that is not
    an array.  It ends with the [TypeError] when the first flag of the
    command line is in [multiples] and holds or inherits such a value: a
    non-empty string, or a name like [constructor] from the empty
    [options]. *)
Theorem loadOptions_raises_only_on_push
        (multiples : list string) (aliases : list (string * list string))
        (argv : list string) (options : gmap string OptVal) :
  (forall e, loadOptions multiples aliases argv options = Throw e ->
             e = "TypeError: this.options[flag].push is not a function")
  /\ (multiples_ok multiples options ->
      exists options', loadOptions multiples aliases argv options = Normal options')
  /\ (forall node script flag value rest,
        argv = node :: script :: flag :: value :: rest ->
        normalize aliases flag <> "" ->
        includes multiples (normalize aliases flag) = true ->
        property_falsy (property options (normalize aliases flag)) = false ->
        (forall l, property options (normalize aliases flag) <> Own (OArr l)) ->
        loadOptions multiples aliases argv options
        = Throw "TypeError: this.options[flag].push is not a function").
Proof.
  split; [| split].
  - intros e. unfold loadOptions.
    destruct (loop multiples aliases (drop 2 argv) (FUndefined, options)) as [[flag o] | e']
      eqn:Hloop.
    + destruct (finish_never_raises flag o) as [o' ->]. done.
    + cbn. intros [= <-]. by apply (loop_throws _ _ _ _ _ Hloop).
  - intros Hok. unfold loadOptions.
    destruct (loop_ok multiples aliases (drop 2 argv) FUndefined options Hok)
      as (flag' & options' & -> & _).
    apply finish_never_raises.
  - intros node script flag value rest -> Hne Hinc Hfalsy Harr.
    unfold loadOptions. cbn [drop loop]. rewrite loop_body_unset by (by left).
    rewrite loop_body_set by done. unfold store. rewrite Hinc, Hfalsy.
    destruct (property options (normalize aliases flag)) as [[s | l] | |]; try done.
    by destruct (Harr l).
Qed.

Lemma loadOptions_raises_only_on_push_witness :
  (multiples_ok ["-m"] ∅
   /\ exists options', loadOptions ["-m"] [] ["node"; "bot.mjs"; "-m"; "a"; "-m"; "b"] ∅
                       = Normal options')
  /\ loadOptions ["-m"] [] ["node"; "bot.mjs"; "-m"; "a"] {[ "-m" := OStr "x" ]}
     = Throw "TypeError: this.options[flag].push is not a function"
  /\ loadOptions ["constructor"] [] ["node"; "bot.mjs"; "constructor"; "a"] ∅
     = Throw "TypeError: this.options[flag].push is not a function".
Proof.
  assert (Hok : multiples_ok ["-m"] ∅).
  { apply multiples_ok_empty. by repeat constructor. }
  split; [split; [exact Hok |] | split].
  - destruct (loadOptions_raises_only_on_push ["-m"] []
                ["node"; "bot.mjs"; "-m"; "a"; "-m"; "b"] ∅) as (_ & Hret & _).
    exact (Hret Hok).
  - destruct (loadOptions_raises_only_on_push ["-m"] []
                ["node"; "bot.mjs"; "-m"; "a"] {[ "-m" := OStr "x" ]}) as (_ & _ & Hthrow).
    apply (Hthrow "node" "bot.mjs" "-m" "a" []); try reflexivity; discriminate.
  - destruct (loadOptions_raises_only_on_push ["constructor"] []
                ["node"; "bot.mjs"; "constructor"; "a"] ∅) as (_ & _ & Hthrow).
    apply (Hthrow "node" "bot.mjs" "constructor" "a" []); try reflexivity; discriminate.
Defined.

(** What the loop leaves under a flag other than [_last] and [__proto__]. *)
Lemma pairs_lookup multiples aliases f :
  f <> "_last" -> f <> "__proto__" ->
  forall (n : nat) args options options',
    (length args <= n)%nat ->
    pairs multiples aliases args options = Normal options' ->
    options' !! f =
    match values_for aliases f args with
    | [] => options !! f
    | vs => Some (if includes multiples f then OArr (prior options f ++ vs)
                  else OStr (List.last vs ""))
    end.
Proof.
  intros Hlast Hproto. induction n as [| n IH]; intros args options options' Hlen Hparse.
  - destruct args; [| cbn in Hlen; lia]. cbn in *. congruence.
  - destruct args as [| flag [| value rest]].
    + cbn in *. congruence.
    + cbn in *. injection Hparse as <-. by rewrite lookup_insert_ne.
    + cbn [pairs] in Hparse. cbn [values_for].
      destruct (store multiples (normalize aliases flag) value options) as [options1 | e] eqn:Hstore;
        [| done].
      specialize (IH rest options1 options' ltac:(cbn in Hlen; lia) Hparse).
      destruct (String.eqb_spec (normalize aliases flag) f) as [Heq | Hne].
      * subst f. pose proof (store_lookup_same _ _ _ _ _ Hstore Hproto) as Hsame.
        rewrite IH. destruct (values_for aliases (normalize aliases flag) rest) as [| x xs].
        -- rewrite Hsame. by destruct (includes multiples (normalize aliases flag)).
        -- f_equal. destruct (includes multiples (normalize aliases flag)); [| done].
           unfold prior at 1. rewrite Hsame. by rewrite <- app_assoc.
      * rewrite IH. unfold prior. by rewrite (store_lookup_other _ _ _ _ _ f Hstore Hne).
Qed.

(** The loop never creates an own property [__proto__]. *)
Lemma pairs_proto multiples aliases :
  forall (n : nat) args options options',
    (length args <= n)%nat ->
    pairs multiples aliases args options = Normal options' ->
    options !! "__proto__" = None ->
    options' !! "__proto__" = None.
Proof.
  induction n as [| n IH]; intros args options options' Hlen Hparse Hnone.
  - destruct args; [| cbn in Hlen; lia]. cbn in *. congruence.
  - destruct args as [| flag [| value rest]].
    + cbn in *. congruence.
    + cbn in *. injection Hparse as <-. by rewrite lookup_insert_ne.
    + cbn [pairs] in Hparse.
      destruct (store multiples (normalize aliases flag) value options) as [options1 | e] eqn:Hstore;
        [| done].
      apply (IH rest options1 options'); [cbn in Hlen; lia | done |].
      by apply (store_proto _ _ _ _ _ Hstore).
Qed.

(** X3.  From the empty [options], when no argument in flag position
    normalizes to the empty string and [multiples] lists no name inherited
    from [Object.prototype], [loadOptions] returns, and under every flag
    other than [_last] it leaves: nothing under [__proto__], whatever was
    given for it; nothing when the flag was not given; for a flag of
    [multiples] the array of all the values given for it, in order; for any
    other flag the last value given for it. *)
Theorem loadOptions_lookup
        (multiples : list string) (aliases : list (string * list string)) (argv : list string) :
  Forall (fun f => normalize aliases f <> "") (flag_positions (drop 2 argv)) ->
  Forall (fun f => includes Object_prototype f = false) multiples ->
  exists options,
    loadOptions multiples aliases argv ∅ = Normal options
    /\ forall f,
         f <> "_last" ->
         options !! f =
         if String.eqb f "__proto__" then None
         else match values_for aliases f (drop 2 argv) with
              | [] => None
              | vs => Some (if includes multiples f then OArr vs else OStr (List.last vs ""))
              end.
Proof.
  intros Hne Hclear.
  pose proof (multiples_ok_empty multiples Hclear) as Hok.
  destruct (pairs_ok multiples aliases _ (drop 2 argv) ∅ (Nat.le_refl _) Hok)
    as [options Hpairs].
  assert (Hload : loadOptions multiples aliases argv ∅ = Normal options).
  { rewrite <- Hpairs. unfold loadOptions.
    by apply (loop_alternates multiples aliases (length (drop 2 argv))); [lia | left |]. }
  exists options. split; [done |]. intros f Hf.
  destruct (String.eqb_spec f "__proto__") as [-> | Hproto].
  - by apply (pairs_proto multiples aliases _ _ _ _ (Nat.le_refl _) Hpairs).
  - rewrite (pairs_lookup multiples aliases f Hf Hproto _ _ _ _ (Nat.le_refl _) Hpairs).
    unfold prior. by rewrite lookup_empty.
Qed.

Lemma loadOptions_lookup_witness :
  let argv := ["node"; "bot.mjs"; "--multi"; "a"; "-x"; "1"; "__proto__"; "p"; "-m"; "b";
               "-x"; "2"] in
  let aliases := [("-m", ["--multi"])] in
  Forall (fun f => normalize aliases f <> "") (flag_positions (drop 2 argv))
  /\ Forall (fun f => includes Object_prototype f = false) ["-m"]
  /\ exists options,
       loadOptions ["-m"] aliases argv ∅ = Normal options
       /\ options !! "-m" = Some (OArr ["a"; "b"])
       /\ options !! "-x" = Some (OStr "2")
       /\ options !! "--multi" = None
       /\ options !! "__proto__" = None.
Proof.
  intros argv aliases.
  assert (Hne : Forall (fun f => normalize aliases f <> "") (flag_positions (drop 2 argv))).
  { repeat constructor; discriminate. }
  assert (Hclear : Forall (fun f => includes Object_prototype f = false) ["-m"]).
  { by repeat constructor. }
  split; [exact Hne |]. split; [exact Hclear |].
  destruct (loadOptions_lookup ["-m"] aliases argv Hne Hclear) as (options & Hload & Hlook).
  exists options. split; [exact Hload |]. split; [| split; [| split]].
  - apply (Hlook "-m"). discriminate.
  - apply (Hlook "-x"). discriminate.
  - apply (Hlook "--multi"). discriminate.
  - apply (Hlook "__proto__"). discriminate.
Defined.

(** ** [loadOptions] against its documentation *)

Lemma normalize_resolve aliases arg :
  unchained aliases -> normalize aliases arg = resolve aliases arg.
Proof.
  revert arg. induction aliases as [| [baseFlag names] aliases IH]; intros arg; [done |].
  intros [Hbase Hrest]. unfold resolve. cbn [List.find snd].
  change (normalize ((baseFlag, names) :: aliases) arg)
    with (normalize aliases (if includes names arg then baseFlag else arg)).
  destruct (includes names arg).
  - by apply normalize_unlisted.
  - by apply IH.
Qed.

Lemma multiples_ok_insert multiples options f (v : string) (l : list string) :
  multiples_ok multiples options ->
  multiples_ok multiples (<[f := if includes multiples f then OArr l else OStr v]> options).
Proof.
  intros Hok g Hg. unfold property.
  destruct (decide (f = g)) as [<- | Hne].
  - by rewrite lookup_insert_eq, Hg.
  - rewrite lookup_insert_ne by done. apply (Hok g Hg).
Qed.

Lemma pairs_documented multiples aliases :
  unchained aliases ->
  forall (n : nat) args options,
    (length args <= n)%nat ->
    multiples_ok multiples options ->
    Forall (fun f => resolve aliases f <> "__proto__") (flag_positions args) ->
    pairs multiples aliases args options = parse_pairs multiples aliases args options.
Proof.
  intros Hun. induction n as [| n IH]; intros args options Hlen Hok Hproto.
  - by destruct args; [| cbn in Hlen; lia].
  - destruct args as [| flag [| value rest]]; [done | |].
    + cbn. by rewrite normalize_resolve.
    + cbn [flag_positions] in Hproto. apply Forall_cons in Hproto as [Hflag Hrest].
      cbn [pairs parse_pairs]. rewrite (normalize_resolve aliases flag Hun).
      rewrite (store_documented multiples _ value options Hok Hflag).
      apply IH; [cbn in Hlen; lia | by apply multiples_ok_insert | done].
Qed.

(** X1.  [loadOptions] does what its documentation says (the alternating
    parse, written without the code's own store and alias loop) on every
    command line whose flags are neither empty nor [__proto__], when no key
    of the alias table is listed under a later key and no flag of
    [multiples] holds or inherits a truthy value that is not an array. *)
Theorem loadOptions_alternates multiples aliases argv options :
  unchained aliases ->
  multiples_ok multiples options ->
  Forall (fun f => resolve aliases f <> "" /\ resolve aliases f <> "__proto__")
         (flag_positions (drop 2 argv)) ->
  loadOptions multiples aliases argv options =
  parse_pairs multiples aliases (drop 2 argv) options.
Proof.
  intros Hun Hok Hflags. apply Forall_and in Hflags as [Hne Hproto].
  rewrite loadOptions_finish.
  rewrite (loop_alternates multiples aliases (length (drop 2 argv))); [| lia | by left |].
  - by apply (pairs_documented multiples aliases Hun (length (drop 2 argv))).
  - eapply Forall_impl; [exact Hne |]. intros f Hf. cbn in Hf. by rewrite normalize_resolve.
Qed.

Lemma loadOptions_alternates_witness :
  let aliases := [("-m", ["--multi"; "-M"])] in
  let argv := ["node"; "bot.mjs"; "-x"; "1"; "--multi"; "a"; "-M"; "b"; "-y"] in
  unchained aliases
  /\ multiples_ok ["-m"] ∅
  /\ Forall (fun f => resolve aliases f <> "" /\ resolve aliases f <> "__proto__")
            (flag_positions (drop 2 argv))
  /\ loadOptions ["-m"] aliases argv ∅
     = Normal (<["_last" := OStr "-y"]> (<["-m" := OArr ["a"; "b"]]> {[ "-x" := OStr "1" ]})).
Proof.
  intros aliases argv.
  assert (Hun : unchained aliases) by (split; [constructor | exact I]).
  assert (Hok : multiples_ok ["-m"] ∅).
  { apply multiples_ok_empty. by repeat constructor. }
  assert (Hflags : Forall (fun f => resolve aliases f <> "" /\ resolve aliases f <> "__proto__")
                          (flag_positions (drop 2 argv))).
  { repeat constructor; discriminate. }
  split; [exact Hun |]. split; [exact Hok |]. split; [exact Hflags |].
  rewrite (loadOptions_alternates ["-m"] aliases argv ∅ Hun Hok Hflags).
  vm_compute. reflexivity.
Defined.

(** ** [log] *)

(** X5.  [log] never ends with an exception.  A debug message is printed only
    when the process title is "Windows PowerShell"; every other message is
    printed by exactly one console call, on [console.error] for "error",
    [console.warn] for "warn", [console.debug] for "debug" and [console.log]
    for anything else, with the arguments unchanged after the header;
    outside PowerShell the header is the bracketed date without colour
    codes. *)
Theorem log_console (h : Host) (type : string) (args : list LogArg) :
  completion (log h type args) = Normal tt
  /\ (exists header,
        effects (log h type args) =
        if String.eqb type "debug" && negb (String.eqb (process_title h) "Windows PowerShell")
        then []
        else [Console (stream_of type) (LStr header :: args)])
  /\ (String.eqb (process_title h) "Windows PowerShell" = false ->
      console (effects (log h type args)) =
      if String.eqb type "debug" then []
      else [(stream_of type, LStr ("[" +:+ utc_string h +:+ "]") :: args)]).
Proof.
  split; [by log_cases h type |].
  unfold stream_of, log.
  destruct (String.eqb_spec type "error") as [-> | _];
    [| destruct (String.eqb_spec type "warn") as [-> | _];
       [| destruct (String.eqb_spec type "debug") as [-> | _]]];
    (split;
     [destruct (String.eqb (process_title h) "Windows PowerShell"); cbn;
      first [by exists "" | eexists; reflexivity]
     | intros Hps; rewrite ?Hps; cbn; by rewrite ?append_empty]).
Qed.

Lemma log_console_witness :
  String.eqb (process_title Examples.host_plain) "Windows PowerShell" = false
  /\ console (effects (logDebug Examples.host_plain [LStr "Importing module."])) = []
  /\ console (effects (logError Examples.host_plain [LStr "File is not accessible."]))
     = [(ConsoleError, [LStr "[Mon, 02 Nov 2026 10:00:00 GMT]"; LStr "File is not accessible."])].
Proof.
  split; [reflexivity |].
  destruct (log_console Examples.host_plain "debug" [LStr "Importing module."]) as (_ & _ & Hd).
  destruct (log_console Examples.host_plain "error" [LStr "File is not accessible."])
    as (_ & _ & He).
  split; [exact (Hd eq_refl) | exact (He eq_refl)].
Defined.

(** ** [safeImport] and [importJSON] *)

Lemma import_options_app es es' :
  import_options (es ++ es') = import_options es ++ import_options es'.
Proof. unfold import_options. apply omap_app. Qed.

Lemma log_no_import_options h type args : import_options (effects (log h type args)) = [].
Proof. by log_cases h type. Qed.



Lemma toModulePath_inj h filename append append' :
  toModulePath h filename append = toModulePath h filename append' -> append = append'.
Proof.
  unfold toModulePath. intros H.
  apply (String.app_inj "file:") in H. by apply (String.app_inj (path_resolve h filename)) in H.
Qed.



(** X8.  [importJSON] never ends with an exception.  It asks the native
    [import()] for the canonical locator, never a fresh one, with the
    options [{with: {type: 'json'}}], and returns the [default] export of
    the module; it returns [undefined] when the file is not accessible, when
    the import fails, and when the module has no [default] export. *)
Theorem importJSON_default (h : Host) (filename : string) :
  let json := {[ "with" := VObj [("type", VStr "json")] ]} in
  completion (importJSON h filename) =
  Normal match fs_access h filename with
         | Some _ => VUndefined
         | None =>
             match native_import h ("file:" +:+ path_resolve h filename) json with
             | inr module => default VUndefined (module !! "default")
             | inl _ => VUndefined
             end
         end
  /\ imports (effects (importJSON h filename)) =
     match fs_access h filename with
     | Some _ => []
     | None => ["file:" +:+ path_resolve h filename]
     end
  /\ import_options (effects (importJSON h filename)) =
     match fs_access h filename with
     | Some _ => []
     | None => [json]
     end.
Proof.
  intros json. unfold importJSON. fold json.
  assert (Hdel : delete "reload" json = json) by (by apply delete_id).
  assert (Happ : append_of h json = "") by reflexivity.
  assert (Hpath : toModulePath h filename "" = "file:" +:+ path_resolve h filename).
  { unfold toModulePath. by rewrite append_empty. }
  pose proof (safeImport_unfold h filename json) as Hun.
  rewrite Hdel, Happ in Hun. cbn zeta in Hun. rewrite Hpath in Hun.
  rewrite Hun. unfold logError, logDebug.
  destruct (fs_access h filename) as [err |].
  - cbn -[imports import_options log]. rewrite !app_nil_r.
    change (FsAccess filename :: ?x) with ([FsAccess filename] ++ x).
    by rewrite imports_app, import_options_app, log_no_import, log_no_import_options.
  - destruct (native_import h _ json) as [err | module];
      cbn -[imports import_options log]; rewrite ?app_nil_r;
      repeat match goal with
             | |- context [?e :: ?x ++ ?y] => change (e :: x ++ y) with ([e] ++ x ++ y)
             end;
      rewrite ?imports_app, ?import_options_app, ?log_no_import, ?log_no_import_options;
      repeat match goal with
             | |- context [imports (NativeImport ?p ?o :: ?es)] =>
                 change (imports (NativeImport p o :: es)) with (p :: imports es)
             | |- context [import_options (NativeImport ?p ?o :: ?es)] =>
                 change (import_options (NativeImport p o :: es)) with (o :: import_options es)
             end;
      rewrite ?log_no_import, ?log_no_import_options;
      done.
Qed.

(** ** The [reload] command: what it never does *)

Import Commands.

(** X9.  Whatever the subcommand and whatever [registerEventHandlerFile] does,
    the [reload] handler replies at most once and only with ephemeral
    messages, and it calls [registerEventHandlerFile] exactly when the
    subcommand is [event], once, for the [file] option in mode "reload".
    For a subcommand other than [event] and [slash] it does nothing. *)
Theorem reload_calls (master : Master) (interaction : Interaction) :
  let run := Reload.handler master interaction in
  (length (Reload.replies (effects run)) <= 1)%nat
  /\ (forall content ephemeral, In (Reply content ephemeral) (effects run) -> ephemeral = true)
  /\ (forall file mode,
        In (RegisterEventHandlerFile file mode) (effects run) ->
        getSubcommand interaction = "event"
        /\ file = getString interaction "file" /\ mode = "reload")
  /\ Reload.reload_attempts (effects run) =
     (if String.eqb (getSubcommand interaction) "event"
      then [getString interaction "file"] else [])
  /\ (getSubcommand interaction <> "event" -> getSubcommand interaction <> "slash" ->
      run = ([], Normal tt)).
Proof.
  intros run. subst run. unfold Reload.handler.
  destruct (String.eqb_spec (getSubcommand interaction) "event") as [Hev | Hev].
  - cbn.
    destruct (registerEventHandlerFile master (getString interaction "file") "reload")
      as [ok | e]; [destruct (truthy ok) |]; cbn;
      (split; [lia |]); (split; [intros ? ? H; intuition congruence |]);
      (split; [intros ? ? H; intuition congruence |]); (split; [done |]); done.
  - destruct (String.eqb_spec (getSubcommand interaction) "slash") as [Hsl | Hsl]; cbn;
      (split; [lia |]); (split; [intros ? ? H; intuition congruence |]);
      (split; [intros ? ? H; intuition congruence |]); (split; [done |]); done.
Qed.

Lemma reload_calls_witness :
  getSubcommand Examples.reload_other <> "event"
  /\ getSubcommand Examples.reload_other <> "slash"
  /\ Reload.handler Examples.master_reloads Examples.reload_other = ([], Normal tt).
Proof.
  assert (Hev : getSubcommand Examples.reload_other <> "event") by discriminate.
  assert (Hsl : getSubcommand Examples.reload_other <> "slash") by discriminate.
  split; [exact Hev |]. split; [exact Hsl |].
  destruct (reload_calls Examples.master_reloads Examples.reload_other) as (_ & _ & _ & _ & H).
  exact (H Hev Hsl).
Defined.

Lemma reload_event_rejection_witness :
  getSubcommand Examples.reload_event = "event"
  /\ registerEventHandlerFile Examples.master_rejects
       (getString Examples.reload_event "file") "reload" = Throw "Error: EACCES"
  /\ Reload.handler Examples.master_rejects Examples.reload_event
     = ([RegisterEventHandlerFile (getString Examples.reload_event "file") "reload"],
        Throw "Error: EACCES").
Proof.
  split; [reflexivity |]. split; [reflexivity |].
  apply (reload_event_rejection Examples.master_rejects Examples.reload_event "Error: EACCES");
    reflexivity.
Defined.

(** The [shutdown] handler replies "See ya." before it calls [_onShutdown],
    whatever that call does, and ends the way that call ends. *)
Lemma shutdown_replies_first (master : Master) (interaction : Interaction) :
  Shutdown.handler master interaction
  = ([Reply "See ya." true; OnShutdown], _onShutdown master).
Proof. unfold Shutdown.handler. cbn. by destruct (_onShutdown master). Qed.

(** ** The logger's embeds *)

Import Logger.

(** X12.  [attachmentToEmbed] throws the [TypeError] of [startsWith] exactly
    for an attachment whose content type is [null].  Otherwise the embed
    carries the given title and opens with the three fields "Name",
    "Content Type" and "Size (Bytes)"; it has a "Size (Pixels)" field
    exactly when width and height are both set and not 0, and a "Duration"
    field exactly when the content type starts with "audio/"; it never has
    any other field. *)
Theorem attachmentToEmbed_fields (attachment : Attachment) (title_overwrite : string) :
  (att_contentType attachment = None <->
   attachmentToEmbed attachment title_overwrite
   = Throw "TypeError: Cannot read properties of null (reading 'startsWith')")
  /\ (forall contentType,
        att_contentType attachment = Some contentType ->
        exists embed,
          attachmentToEmbed attachment title_overwrite = Normal embed
          /\ title embed = title_overwrite
          /\ take 3 (fields embed) =
             [("Name", VStr (att_name attachment));
              ("Content Type", VStr contentType);
              ("Size (Bytes)", VNum (att_size attachment))]
          /\ (In "Size (Pixels)" (map fst (fields embed)) <->
              number_truthy (att_width attachment) = true
              /\ number_truthy (att_height attachment) = true)
          /\ (In "Duration" (map fst (fields embed)) <->
              String.prefix "audio/" contentType = true)
          /\ (forall name, In name (map fst (fields embed)) ->
                In name ["Name"; "Content Type"; "Size (Bytes)"; "Size (Pixels)"; "Duration"])
          /\ (3 <= length (fields embed) <= 5)%nat).
Proof.
  unfold attachmentToEmbed. split.
  - by destruct (att_contentType attachment).
  - intros contentType ->. eexists. split; [reflexivity |]. cbn [title fields].
    split; [done |]. split; [done |].
    destruct (number_truthy (att_width attachment)), (number_truthy (att_height attachment)),
      (String.prefix "audio/" contentType); cbn;
      (split; [split; [intros Hin; repeat (destruct Hin as [Hin | Hin]; try discriminate Hin);
                       try done; by split
                      | intros [Hw Hh]; try discriminate Hw; try discriminate Hh; tauto] |]);
      (split; [split; [intros Hin; repeat (destruct Hin as [Hin | Hin]; try discriminate Hin);
                       try done
                      | intros Hp; try discriminate Hp; tauto] |]);
      (split; [intros name Hin; tauto | lia]).
Qed.

Lemma has_In attachments attachmentId :
  has attachments attachmentId = true <-> In attachmentId (map fst attachments).
Proof.
  unfold has. rewrite existsb_exists, in_map_iff. split.
  - intros (kv & Hin & Heq%String.eqb_eq). by exists kv.
  - intros (kv & Heq & Hin). exists kv. split; [done |]. by apply String.eqb_eq.
Qed.

Lemma filter_all_false {A} (p : A -> bool) (l : list A) :
  (forall x, In x l -> p x = false) -> List.filter p l = [].
Proof.
  induction l as [| x l IH]; [done |]. intros H. cbn.
  rewrite (H x) by (by left). apply IH. intros y Hy. apply H. by right.
Qed.

(** X13.  The attachments an edit reports: "Attachment Removed" exactly for the
    attachments of the old message whose id the new message does not have,
    and "Attachment Added" exactly for those of the new message whose id
    the old message does not have, all of them when the old message is
    [null].  An edit that keeps the attachment ids reports none. *)
Theorem messageUpdate_changes_spec (oldMessage : option Message) (newMessage : Message) :
  let changes := messageUpdate_changes oldMessage newMessage in
  let olds := from_option msg_attachments [] oldMessage in
  let news := msg_attachments newMessage in
  (forall attachment,
     In (attachment, "Attachment Removed") changes <->
     exists attachmentId,
       In (attachmentId, attachment) olds /\ ~ In attachmentId (map fst news))
  /\ (forall attachment,
        In (attachment, "Attachment Added") changes <->
        exists attachmentId,
          In (attachmentId, attachment) news
          /\ (oldMessage = None \/ ~ In attachmentId (map fst olds)))
  /\ (forall change, In change changes ->
        snd change = "Attachment Removed" \/ snd change = "Attachment Added")
  /\ (forall old, oldMessage = Some old ->
        map fst (msg_attachments old) = map fst news -> changes = []).
Proof.
  intros changes olds news. subst changes. unfold messageUpdate_changes. fold olds news.
  split; [| split; [| split]].
  - intros attachment. rewrite in_app_iff, !in_map_iff. split.
    + intros [([attachmentId a] & [= ->] & Hin) | (kv & [=] & _)].
      apply filter_In in Hin as [Hin Hhas]. exists attachmentId. split; [done |].
      rewrite <- has_In. cbn in Hhas. by destruct (has news attachmentId).
    + intros (attachmentId & Hin & Hnot). left. exists (attachmentId, attachment).
      split; [done |]. apply filter_In. split; [done |]. cbn.
      rewrite <- has_In in Hnot. by destruct (has news attachmentId).
  - intros attachment. rewrite in_app_iff, !in_map_iff. split.
    + intros [(kv & [=] & _) | ([attachmentId a] & [= ->] & Hin)].
      apply filter_In in Hin as [Hin Hhas]. exists attachmentId. split; [done |].
      subst olds. destruct oldMessage as [old |]; [right | by left]. cbn in *.
      rewrite <- has_In. by destruct (has (msg_attachments old) attachmentId).
    + intros (attachmentId & Hin & Hold). right. exists (attachmentId, attachment).
      split; [done |]. apply filter_In. split; [done |]. cbn.
      subst olds. destruct oldMessage as [old |]; [| done].
      destruct Hold as [[=] | Hnot]. cbn in Hnot.
      rewrite <- has_In in Hnot. by destruct (has (msg_attachments old) attachmentId).
  - intros change. rewrite in_app_iff, !in_map_iff.
    intros [(kv & <- & _) | (kv & <- & _)]; [by left | by right].
  - intros old -> Hids. subst olds. cbn [from_option] in *.
    rewrite !filter_all_false; [done | |].
    + intros kv Hin. cbn.
      assert (Hhas : has (msg_attachments old) (fst kv) = true).
      { apply has_In. rewrite Hids. apply in_map_iff. by exists kv. }
      by rewrite Hhas.
    + intros kv Hin. cbn.
      assert (Hhas : has news (fst kv) = true).
      { apply has_In. rewrite <- Hids. apply in_map_iff. by exists kv. }
      by rewrite Hhas.
Qed.

(** X15.  [messageUpdate] sends at most one log message, to the channel
    [logChannelId] is fetched as, and only when that channel is in the guild
    of the new message (as fetched, if it was partial); the message has the
    "Message Updated" embed first, then one embed per file.  When the guilds
    differ the handler ends normally having sent nothing. *)
Theorem messageUpdate_guild_gate (c : Client) (oldMessage : option Message) (newMessage : Message) :
  let run := messageUpdate c oldMessage newMessage in
  (length (sends (effects run)) <= 1)%nat
  /\ (forall logChannel embeds files,
        In (logChannel, embeds, files) (sends (effects run)) ->
        channels_fetch c (logChannelId c) = inr logChannel
        /\ (exists fetchedMessage,
              resolved c newMessage = Some fetchedMessage
              /\ channel_guildId logChannel = msg_guildId fetchedMessage)
        /\ (exists main, head embeds = Some main /\ title main = "Message Updated")
        /\ length embeds = S (length files))
  /\ (forall fetchedOld fetchedMessage logChannel,
        resolved_old c oldMessage = Some fetchedOld ->
        resolved c newMessage = Some fetchedMessage ->
        channels_fetch c (logChannelId c) = inr logChannel ->
        channel_guildId logChannel <> msg_guildId fetchedMessage ->
        run = ([], Normal tt)).
Proof.
  intros run. subst run.
  destruct (resolved_old c oldMessage) as [fetchedOld |] eqn:Hold.
  2:{ destruct (messageUpdate_rejected c oldMessage newMessage) as [Heff _]; [by left |].
      rewrite Heff. split; [cbn; lia |]. split; [intros ? ? ? [] | by intros ? ? ? [=]]. }
  destruct (resolved c newMessage) as [fetchedMessage |] eqn:Hnew.
  2:{ destruct (messageUpdate_rejected c oldMessage newMessage) as [Heff _]; [by right; left |].
      rewrite Heff. split; [cbn; lia |]. split; [intros ? ? ? [] | by intros ? ? ? _ [=]]. }
  destruct (channels_fetch c (logChannelId c)) as [e | logChannel] eqn:Hlog.
  { destruct (messageUpdate_rejected c oldMessage newMessage) as [Heff _].
    { right; right. by exists e. }
    rewrite Heff. split; [cbn; lia |]. split; [intros ? ? ? [] | by intros ? ? ? _ _ [=]]. }
  rewrite (messageUpdate_fetched c oldMessage newMessage _ _ _ Hold Hnew Hlog).
  destruct (Id_eqb (channel_guildId logChannel) (msg_guildId fetchedMessage)) eqn:Hguild.
  2:{ split; [cbn; lia |]. split; [intros ? ? ? [] | done]. }
  apply Id_eqb_eq in Hguild.
  destruct (embeds_of (messageUpdate_changes fetchedOld fetchedMessage)) as [embeds | e]
    eqn:Hembeds.
  2:{ split; [cbn; lia |]. split; [intros ? ? ? [] |].
      by intros ? ? ? [= <-] [= <-] [= <-] ?. }
  destruct (msg_author fetchedMessage) as [author |].
  2:{ split; [cbn; lia |]. split; [intros ? ? ? [] |].
      by intros ? ? ? [= <-] [= <-] [= <-] ?. }
  cbn -[messageUpdate_mainFields messageUpdate_changes update_embed]. split; [lia |]. split.
  - intros ? ? ? [[= <- <- <-] | []].
    split; [done |]. split; [by exists fetchedMessage |]. split; [by eexists |].
    cbn [length]. by rewrite (embeds_of_length _ _ Hembeds), length_map.
  - by intros ? ? ? [= <-] [= <-] [= <-] ?.
Qed.

(** [messageDelete]'s logging part once the message and the log channel
    are fetched. *)
Lemma messageDelete_log_fetched c now msg fetchedMessage logChannel :
  resolved c msg = Some fetchedMessage ->
  channels_fetch c (logChannelId c) = inr logChannel ->
  messageDelete_log c now msg =
  if Id_eqb (channel_guildId logChannel) (msg_guildId fetchedMessage) then
    let attachments := map snd (msg_attachments fetchedMessage) in
    match embeds_of (map (fun a => (a, "Attachment Removed")) attachments) with
    | Throw e => ([], Throw e)
    | Normal embeds =>
        let all := delete_embed now fetchedMessage :: embeds in
        ([Send logChannel all attachments],
         match channel_send c logChannel all attachments with
         | inr _ => Normal tt
         | inl e => Throw e
         end)
    end
  else ([], Normal tt).
Proof.
  intros Hres Hlog.
  assert (Hres' : (if msg_partial msg then await (message_fetch c msg) else JS.ret msg)
                  = (([], Normal fetchedMessage) : M Effect Message)).
  { revert Hres. unfold resolved, await.
    destruct (msg_partial msg); [| by intros [= <-]].
    destruct (message_fetch c msg); [done | by intros [= <-]]. }
  unfold messageDelete_log. rewrite Hres', Hlog. unfold delete_embed, send, await.
  cbn -[embeds_of messageDelete_mainFields].
  destruct (Id_eqb (channel_guildId logChannel) (msg_guildId fetchedMessage));
    cbn -[embeds_of messageDelete_mainFields]; [| done].
  destruct (embeds_of _) as [embeds | e]; cbn -[messageDelete_mainFields]; [| done].
  by destruct (channel_send c logChannel _ _) as [e | []].
Qed.

(** X16.  The logging part of [messageDelete], once the message (fetched, if
    it was partial) and the log channel are there.  With the log channel in
    another guild it sends nothing and ends normally.  Otherwise, when
    every attachment has a content type, it sends one message, with the
    "Message Deleted" embed, then one "Attachment Removed" embed per
    attachment, and the attachments as files, also for a message without
    author or content, and it ends the way [send] does: normally, or with
    the rejection; the first embed has the "Uh oh!" field exactly when the
    message has no [content] property.  When an attachment has no content
    type it sends nothing and ends with the [TypeError].  When a fetch
    rejects, it sends nothing and ends with an exception. *)
Theorem messageDelete_log_sends (c : Client) (now : Z) (msg : Message) :
  let run := messageDelete_log c now msg in
  (forall fetchedMessage logChannel,
     resolved c msg = Some fetchedMessage ->
     channels_fetch c (logChannelId c) = inr logChannel ->
     let attachments := map snd (msg_attachments fetchedMessage) in
     (channel_guildId logChannel <> msg_guildId fetchedMessage -> run = ([], Normal tt))
     /\ (channel_guildId logChannel = msg_guildId fetchedMessage ->
         Forall (fun a => att_contentType a <> None) attachments ->
         exists main embeds,
           effects run = [Send logChannel (main :: embeds) attachments]
           /\ completion run
              = match channel_send c logChannel (main :: embeds) attachments with
                | inr _ => Normal tt
                | inl e => Throw e
                end
           /\ Forall2 (fun a embed => attachmentToEmbed a "Attachment Removed" = Normal embed)
                      attachments embeds
           /\ title main = "Message Deleted"
           /\ (In uh_oh (fields main) <-> msg_content fetchedMessage = None))
     /\ (channel_guildId logChannel = msg_guildId fetchedMessage ->
         Exists (fun a => att_contentType a = None) attachments ->
         run = ([], Throw "TypeError: Cannot read properties of null (reading 'startsWith')")))
  /\ (resolved c msg = None \/ (exists e, channels_fetch c (logChannelId c) = inl e) ->
      effects run = [] /\ raises (completion run)).
Proof.
  intros run. subst run. split.
  - intros fetchedMessage logChannel Hres Hlog attachments.
    rewrite (messageDelete_log_fetched c now msg fetchedMessage logChannel Hres Hlog).
    fold attachments. cbn zeta.
    destruct (Id_eqb (channel_guildId logChannel) (msg_guildId fetchedMessage)) eqn:Hguild.
    + apply Id_eqb_eq in Hguild. split; [done |]. split.
      * intros _ Htyped.
        destruct (embeds_of_typed (map (fun a => (a, "Attachment Removed")) attachments))
          as (embeds & Hembeds & Hall).
        { rewrite Forall_map. eapply Forall_impl; [exact Htyped |]. by intros a Ha. }
        rewrite Hembeds. cbn [effects completion fst snd].
        exists (delete_embed now fetchedMessage), embeds.
        split; [done |]. split; [done |]. split.
        -- clear -Hall. revert embeds Hall.
           induction attachments as [| a attachments IH]; intros embeds Hall.
           ++ inversion Hall. constructor.
           ++ inversion Hall as [| x embed l embeds' Hone Hrest]; subst.
              constructor; [done | by apply IH].
        -- split; [done |]. cbn [delete_embed fields]. unfold messageDelete_mainFields.
           destruct (msg_content fetchedMessage); cbn; split; try done.
           ++ intros [[=] | [[=] | [[=] | []]]].
           ++ by left.
      * intros _ Huntyped.
        rewrite (embeds_of_untyped (map (fun a => (a, "Attachment Removed")) attachments));
          [done |].
        apply Exists_exists in Huntyped as (a & Hin & Ha).
        apply Exists_exists. exists (a, "Attachment Removed").
        split; [| done]. apply list_elem_of_In, in_map_iff. exists a.
        split; [done | by apply list_elem_of_In].
    + split; [done |]. split; intros Heq; apply Id_eqb_eq in Heq; congruence.
  - unfold messageDelete_log, resolved, await. intros [Hres | [e Hlog]].
    + destruct (msg_partial msg); [| done].
      by destruct (message_fetch c msg).
    + destruct (msg_partial msg); [destruct (message_fetch c msg); [done |] |];
        cbn -[embeds_of]; by rewrite Hlog.
Qed.

Lemma messageDelete_log_sends_witness :
  let msg := Examples.with_attachments (Examples.cached "A")
               [("1", Examples.picture); ("2", Examples.voice)] in
  let lost := Examples.with_attachments (Examples.cached "A")
                [("1", Examples.picture); ("3", Examples.blob)] in
  resolved Examples.client_muted msg = Some msg
  /\ channels_fetch Examples.client_muted (logChannelId Examples.client_muted)
     = inr Examples.modlog
  /\ channel_guildId Examples.modlog = msg_guildId msg
  /\ Forall (fun a => att_contentType a <> None) (map snd (msg_attachments msg))
  /\ (exists main embeds,
        effects (messageDelete_log Examples.client_muted 1000 msg)
        = [Send Examples.modlog (main :: embeds) [Examples.picture; Examples.voice]]
        /\ completion (messageDelete_log Examples.client_muted 1000 msg)
           = Throw "DiscordAPIError: Missing Permissions"
        /\ length embeds = 2%nat)
  /\ Exists (fun a => att_contentType a = None) (map snd (msg_attachments lost))
  /\ messageDelete_log Examples.client 1000 lost
     = ([], Throw "TypeError: Cannot read properties of null (reading 'startsWith')").
Proof.
  intros msg lost.
  assert (Htyped : Forall (fun a => att_contentType a <> None) (map snd (msg_attachments msg))).
  { repeat constructor; discriminate. }
  assert (Huntyped : Exists (fun a => att_contentType a = None) (map snd (msg_attachments lost))).
  { right. by left. }
  split; [reflexivity |]. split; [reflexivity |]. split; [reflexivity |].
  split; [exact Htyped |]. split; [| split; [exact Huntyped |]].
  - destruct (messageDelete_log_sends Examples.client_muted 1000 msg) as [Hok _].
    destruct (Hok msg Examples.modlog eq_refl eq_refl) as (_ & Hsend & _).
    destruct (Hsend eq_refl Htyped) as (main & embeds & Heff & Hcompl & Hall & _).
    exists main, embeds. split; [exact Heff |]. split; [exact Hcompl |].
    symmetry. exact (Forall2_length _ _ _ Hall).
  - destruct (messageDelete_log_sends Examples.client 1000 lost) as [Hok _].
    destruct (Hok lost Examples.modlog eq_refl eq_refl) as (_ & _ & Hthrow).
    exact (Hthrow eq_refl Huntyped).
Defined.

Lemma attachmentToEmbed_fields_witness :
  (att_contentType Examples.voice = Some "audio/ogg"
   /\ exists embed,
        attachmentToEmbed Examples.voice "Attachment Added" = Normal embed
        /\ In "Duration" (map fst (fields embed))
        /\ ~ In "Size (Pixels)" (map fst (fields embed)))
  /\ (att_contentType Examples.blob = None
      /\ attachmentToEmbed Examples.blob "Attachment Added"
         = Throw "TypeError: Cannot read properties of null (reading 'startsWith')").
Proof.
  destruct (attachmentToEmbed_fields Examples.voice "Attachment Added") as [_ Hfields].
  destruct (attachmentToEmbed_fields Examples.blob "Attachment Added") as [Hnull _].
  split.
  - split; [reflexivity |].
    destruct (Hfields "audio/ogg" eq_refl) as (embed & Hret & _ & _ & Hpixels & Hduration & _).
    exists embed. split; [exact Hret |]. split; [by apply Hduration |].
    intros Hin. apply Hpixels in Hin as [Hw _]. discriminate Hw.
  - split; [reflexivity |]. by apply Hnull.
Defined.

Lemma messageUpdate_changes_spec_witness :
  let old := Examples.with_attachments (Examples.cached "A")
               [("1", Examples.picture); ("2", Examples.voice)] in
  let new := Examples.with_attachments (Examples.cached "A") [("2", Examples.voice)] in
  (In ("1", Examples.picture) (msg_attachments old) /\ ~ In "1" (map fst (msg_attachments new)))
  /\ In (Examples.picture, "Attachment Removed") (messageUpdate_changes (Some old) new)
  /\ map fst (msg_attachments old) = map fst (msg_attachments old)
  /\ messageUpdate_changes (Some old) old = [].
Proof.
  intros old new.
  assert (Hin : In ("1", Examples.picture) (msg_attachments old)) by (by left).
  assert (Hnot : ~ In "1" (map fst (msg_attachments new))).
  { intros [[=] | []]. }
  split; [by split |].
  destruct (messageUpdate_changes_spec (Some old) new) as (Hremoved & _).
  destruct (messageUpdate_changes_spec (Some old) old) as (_ & _ & _ & Hsame).
  split; [apply Hremoved; by exists "1" |]. split; [reflexivity |].
  exact (Hsame old eq_refl eq_refl).
Defined.

Lemma messageUpdate_guild_gate_witness :
  let elsewhere := Examples.with_guild (Examples.cached "A") (IdStr "H") in
  resolved_old Examples.client None = Some None
  /\ resolved Examples.client elsewhere = Some elsewhere
  /\ channels_fetch Examples.client (logChannelId Examples.client) = inr Examples.modlog
  /\ channel_guildId Examples.modlog <> msg_guildId elsewhere
  /\ messageUpdate Examples.client None elsewhere = ([], Normal tt).
Proof.
  intros elsewhere.
  assert (Hguild : channel_guildId Examples.modlog <> msg_guildId elsewhere) by discriminate.
  split; [reflexivity |]. split; [reflexivity |]. split; [reflexivity |].
  split; [exact Hguild |].
  destruct (messageUpdate_guild_gate Examples.client None elsewhere) as (_ & _ & Hgate).
  exact (Hgate None elsewhere Examples.modlog eq_refl eq_refl eq_refl Hguild).
Defined.

(** ** The journal along arbitrary runs *)

Lemma raw_journal c packet w : journal (fst (raw c packet w)) = journal w.
Proof.
  unfold raw.
  destruct (String.eqb (t packet) "MESSAGE_UPDATE"); [done |].
  destruct (String.eqb (t packet) "MESSAGE_DELETE"); [| done].
  destruct (channels_fetch c _); [done |].
  by destruct (negb (timer_truthy (messageDeleteTimer w))).
Qed.

Lemma raw_clock c packet w : clock (fst (raw c packet w)) = clock w.
Proof.
  unfold raw.
  destruct (String.eqb (t packet) "MESSAGE_UPDATE"); [done |].
  destruct (String.eqb (t packet) "MESSAGE_DELETE"); [| done].
  destruct (channels_fetch c _); [done |].
  by destruct (negb (timer_truthy (messageDeleteTimer w))).
Qed.

(** A timer that runs is in the queue, and its payload is dispatched. *)
Lemma fire_journal c w tm :
  In tm (timers w) ->
  exists tm0,
    In tm0 (timers w) /\ handle tm0 = handle tm
    /\ journal (fire c (handle tm) w)
       = dispatch c (clock w) (FromTimer (handle tm)) (payload tm0) :: journal w.
Proof.
  intros Hin. unfold fire.
  destruct (find_handle_In (handle tm) (timers w) tm Hin eq_refl) as [tm0 Hfind].
  rewrite Hfind, messageDelete_journal. cbn.
  apply find_some in Hfind as [Hin0 Heq%Nat.eqb_eq]. by exists tm0.
Qed.

(** What one step adds to the journal. *)
Lemma step_journal c w l w' :
  step c w l w' ->
  clock w <= clock w'
  /\ match l with
     | LStructured msg => journal w' = dispatch c (clock w) FromGateway msg :: journal w
     | LFire h => exists tm, In tm (timers w) /\ handle tm = h
                             /\ journal w' = dispatch c (clock w) (FromTimer h) (payload tm)
                                               :: journal w
     | LTick _ | LRaw _ => journal w' = journal w
     end.
Proof.
  intros [w0 now Hle | w0 tm Hin Hdue | w0 msg | w0 packet].
  - by split.
  - rewrite fire_clock. split; [lia |].
    destruct (fire_journal c w0 tm Hin) as (tm0 & Hin0 & Hh & Hj). by exists tm0.
  - rewrite messageDelete_clock, messageDelete_journal. split; [lia | done].
  - rewrite raw_clock, raw_journal. split; [lia | done].
Qed.

Lemma gateway_messages_cons e journal :
  gateway_messages (e :: journal) =
  (if from_gateway (origin e) then [message e] else []) ++ gateway_messages journal.
Proof. unfold gateway_messages. cbn. by destruct (from_gateway (origin e)). Qed.

(** X17.  Along every run the journal only grows, by one entry for each
    structured notification and for each timer that runs, and by nothing
    else; the structured notifications are all dispatched, in the order they
    arrive; time never goes back. *)
Theorem journal_records_handler_calls (c : Client) (w : World) (ls : list Label) (w' : World) :
  steps c w ls w' ->
  (exists new, journal w' = new ++ journal w /\ length new = handler_calls ls)
  /\ gateway_messages (journal w') = rev (structured_of ls) ++ gateway_messages (journal w)
  /\ clock w <= clock w'.
Proof.
  induction 1 as [w | w l w1 ls w2 Hstep _ (IHnew & IHgate & IHclock)].
  - split; [by exists [] |]. split; [done | lia].
  - destruct (step_journal c w l w1 Hstep) as [Hclock Hj].
    destruct IHnew as (new & Hnew & Hlen).
    rewrite IHgate, Hnew. unfold handler_calls in *.
    destruct l as [now | h | msg | packet]; cbn [List.filter calls_handler structured_of omap].
    + rewrite Hj. split; [by exists new |]. split; [done | lia].
    + destruct Hj as (tm & _ & _ & ->). split; [| split; [| lia]].
      * exists (new ++ [dispatch c (clock w) (FromTimer h) (payload tm)]).
        rewrite <- app_assoc. split; [done |]. rewrite length_app. cbn. lia.
      * by rewrite gateway_messages_cons.
    + rewrite Hj. split; [| split; [| lia]].
      * exists (new ++ [dispatch c (clock w) FromGateway msg]).
        rewrite <- app_assoc. split; [done |]. rewrite length_app. cbn. lia.
      * rewrite gateway_messages_cons. cbn. fold (structured_of ls).
        by rewrite <- app_assoc.
    + rewrite Hj. split; [by exists new |]. split; [done | lia].
Qed.

Lemma journal_records_handler_calls_witness :
  let w := initial 0 in
  let ls := [LRaw (Examples.delete_packet "A"); LStructured (Examples.cached "B");
             LRaw (Examples.delete_packet "B")] in
  let w' := observe Examples.client (Raw (Examples.delete_packet "B"))
              (observe Examples.client (Structured (Examples.cached "B"))
                 (observe Examples.client (Raw (Examples.delete_packet "A")) w)) in
  steps Examples.client w ls w'
  /\ gateway_messages (journal w') = [Examples.cached "B"].
Proof.
  intros w ls w'.
  assert (Hsteps : steps Examples.client w ls w').
  { eapply steps_cons; [apply step_raw |].
    eapply steps_cons; [apply step_structured |].
    eapply steps_cons; [apply step_raw | apply steps_nil]. }
  split; [exact Hsteps |].
  destruct (journal_records_handler_calls Examples.client w ls w' Hsteps) as (_ & Hgate & _).
  exact Hgate.
Defined.

(** ** Timers come from [raw] packets only *)







(** ** Deletions one after the other are each dispatched once *)

Lemma serial_steps c w occs w' : serial c w occs w' -> exists ls, steps c w ls w'.
Proof.
  induction 1 as [w w' Hq
                 | w w1 w2 w' packet channel rest Hq1 Hq2 _ _ [ls IH]
                 | w w1 w2 w' msg packet channel rest Hq1 Hq2 _ [ls IH]].
  - by apply quiet_steps.
  - destruct (quiet_steps _ _ _ Hq1) as [ls1 H1].
    destruct (quiet_steps _ _ _ Hq2) as [ls2 H2].
    exists (ls1 ++ LRaw packet :: ls2 ++ ls).
    eapply steps_app; [exact H1 |]. eapply steps_cons; [apply step_raw |].
    eapply steps_app; [exact H2 | exact IH].
  - destruct (quiet_steps _ _ _ Hq1) as [ls1 H1].
    destruct (quiet_steps _ _ _ Hq2) as [ls2 H2].
    exists (ls1 ++ LStructured msg :: ls2 ++ LRaw packet :: ls).
    eapply steps_app; [exact H1 |]. eapply steps_cons; [apply step_structured |].
    eapply steps_app; [exact H2 |]. eapply steps_cons; [apply step_raw | exact IH].
Qed.

(** X19.  Deletions that are met one after the other from an idle window,
    each one observed only when the timer of the one before has run,
    whenever that was, are each dispatched exactly once and in order: the
    cached ones from the structured notification, the uncached ones from
    the timer, with the message synthesized from the packet; the window is
    idle again at the end.  Such a sequence is a run of the module. *)
Theorem serial_deletions_each_dispatched_once
        (c : Client) (occs : list Occurrence) (w w' : World) :
  Forall (fetchable c) occs ->
  idle w ->
  serial c w occs w' ->
  idle w'
  /\ map summary (journal w') = rev (map expected occs) ++ map summary (journal w)
  /\ exists ls, steps c w ls w'.
Proof.
  intros Hfetch Hidle Hserial.
  split; [| split; [| by eapply serial_steps]];
    revert Hfetch Hidle;
    induction Hserial as [w w' Hq
                         | w w1 w2 w' packet channel rest Hq1 Hq2 Hrun _ IH
                         | w w1 w2 w' msg packet channel rest Hq1 Hq2 _ IH];
    intros Hfetch Hidle.
  1,4: destruct (quiet_from_idle c w Hidle w' Hq) as (Hidle' & Hj & _);
       [done || (cbn; by rewrite Hj)].
  1,3: apply Forall_cons in Hfetch as [[Ht Hch] Hrest];
       cbn [occurrence_packet occurrence_channel] in Ht, Hch;
       destruct (raw_from_idle c w packet channel Hidle Ht Hch w1 Hq1) as (Htr & Hvr & Hjr & _);
       destruct (quiet_armed _ _ _ _ Hq2 Htr Hvr)
         as [(Ht2 & _) | (Ht2 & Hv2 & _ & time & _ & _ & Hj2)];
         [rewrite Hrun in Ht2; discriminate Ht2 |];
       assert (Hidle2 : idle w2) by (split; [by rewrite Hv2 | done]);
       specialize (IH Hrest Hidle2).
  1: exact IH.
  1: { rewrite IH, Hj2, Hjr. cbn [map rev expected]. by rewrite <- app_assoc. }
  all: apply Forall_cons in Hfetch as [[Ht Hch] Hrest];
       cbn [occurrence_packet occurrence_channel] in Ht, Hch;
       destruct (quiet_from_idle c w Hidle w1 Hq1) as (Hidle1 & Hj1 & _);
       destruct (messageDelete_idle c FromGateway msg w1 Hidle1) as (Hts & Hvs & Hjs);
       destruct (quiet_empty _ _ _ Hq2 Hts) as (Ht2 & Hv2 & Hj2 & _);
       rewrite Hvs in Hv2; rewrite Hjs, Hj1 in Hj2;
       assert (Hraw : fst (raw c packet w2) = disarm w2)
         by (rewrite (raw_delete c packet channel w2 Ht Hch), Hv2; reflexivity);
       assert (Hidle3 : idle (fst (raw c packet w2)))
         by (rewrite Hraw; split; [reflexivity | exact Ht2]);
       specialize (IH Hrest Hidle3).
  - exact IH.
  - rewrite IH, Hraw. cbn [disarm journal]. rewrite Hj2.
    cbn [map rev expected]. by rewrite <- app_assoc.
Qed.

Lemma serial_deletions_each_dispatched_once_witness :
  let a := Examples.delete_packet "A" in
  let b := Examples.delete_packet "B" in
  let c := Examples.delete_packet "C" in
  let occs := [Uncached a Examples.general;
               Cached (Examples.cached "B") b Examples.general;
               Uncached c Examples.general] in
  let w1 := fire Examples.client 0 (set_clock 700 (fst (raw Examples.client a (initial 0)))) in
  let w2 := fst (raw Examples.client b
                   (messageDelete Examples.client FromGateway (Examples.cached "B") w1)) in
  let w3 := fire Examples.client 1 (set_clock 5000 (fst (raw Examples.client c w2))) in
  Forall (fetchable Examples.client) occs
  /\ idle (initial 0)
  /\ serial Examples.client (initial 0) occs w3
  /\ map summary (journal w3)
     = [(false, synthesized c Examples.general);
        (true, Examples.cached "B");
        (false, synthesized a Examples.general)]
  /\ map at_time (journal w3) = [5000; 700; 700].
Proof.
  intros a b c occs w1 w2 w3.
  assert (Hfetch : Forall (fetchable Examples.client) occs).
  { repeat constructor. }
  assert (Hidle : idle (initial 0)) by (split; reflexivity).
  assert (Hserial : serial Examples.client (initial 0) occs w3).
  { eapply serial_uncached with (w1 := initial 0) (w2 := w1); [apply quiet_refl | | reflexivity |].
    { eapply quiet_tick with (now := 700); [cbn; lia |].
      eapply quiet_fire
        with (tm := {| handle := 0; due := 500; payload := synthesized a Examples.general |});
        [left; reflexivity | cbn; lia | apply quiet_refl]. }
    eapply serial_cached with (w1 := w1); [apply quiet_refl | apply quiet_refl |].
    eapply serial_uncached with (w1 := w2) (w2 := w3); [apply quiet_refl | | reflexivity |].
    { eapply quiet_tick with (now := 5000); [cbn; lia |].
      eapply quiet_fire
        with (tm := {| handle := 1; due := 1200; payload := synthesized c Examples.general |});
        [left; reflexivity | cbn; lia | apply quiet_refl]. }
    apply serial_nil, quiet_refl. }
  split; [exact Hfetch |]. split; [exact Hidle |]. split; [exact Hserial |].
  destruct (serial_deletions_each_dispatched_once Examples.client occs (initial 0) w3
              Hfetch Hidle Hserial) as (_ & Hjournal & _).
  split; [exact Hjournal | reflexivity].
Defined.

(** ** [pit] *)

Import PitManager.

(** The calls of [pit] past the guard, when all but the direct message go
    through. *)
Lemma commit_calls env u d moderator comment guild :
  channels_fetch env = Normal guild ->
  database_run env = Normal tt ->
  updateRole env (id u) "pit" = Normal tt ->
  let notifSent := match user_send env (PitNotification guild d comment) with
                   | Normal _ => true
                   | Throw _ => false
                   end in
  logChannel_send env (PitConfirmation u moderator d comment notifSent) = Normal tt ->
  commit env u d moderator comment =
  ([ChannelsFetch (logChannelId env);
    DateNow;
    DatabaseInsert (id u) (id <$> moderator) d comment (date_now env (evaluated moderator));
    UpdateRole (id u) "pit";
    UserSend (PitNotification guild d comment)]
   ++ match user_send env (PitNotification guild d comment) with
      | Normal _ => []
      | Throw err => [LogDebug (username u) err]
      end
   ++ [LogChannelSend (PitConfirmation u moderator d comment notifSent)],
   Normal true).
Proof.
  intros Hch Hrun Hrole notifSent Hlog. subst notifSent. unfold commit, call, now.
  rewrite Hch, Hrun, Hrole. cbn.
  destruct (user_send env (PitNotification guild d comment)) as [[] | err]; cbn in *;
    by rewrite Hlog.
Qed.

(** Past the guard [pit] never returns [false]. *)
Lemma commit_not_false env u d moderator comment :
  completion (commit env u d moderator comment) <> Normal false.
Proof.
  unfold commit, call, now. cbn.
  destruct (channels_fetch env) as [guild | e0]; cbn; [| done].
  destruct (database_run env) as [[] | e1]; cbn; [| done].
  destruct (updateRole env (id u) "pit") as [[] | e2]; cbn; [| done].
  destruct (user_send env (PitNotification guild d comment)) as [[] | e3]; cbn;
    match goal with |- context [logChannel_send env ?p] =>
      destruct (logChannel_send env p) as [[] | e4] end; by cbn.
Qed.

(** X20.  [pit] refuses before it changes anything.  It throws, having
    called nothing, when the user is missing or the duration is not a
    number greater than 0.  It returns [false] exactly when no moderator is
    given and the user's latest timeout in the database is released later
    than now; the calls it has made by then are the query for that timeout
    and [Date.now()].  A pit by a moderator is never refused for an active
    timeout, and does not query it. *)
Theorem pit_refusals (env : Env) (user : option User) (duration : option Z)
        (moderator : option User) (comment : option string) :
  let run := pit env user duration moderator comment in
  (user = None -> run = ([], Throw "Invalid user."))
  /\ (user <> None -> (forall d, duration = Some d -> d <= 0) ->
      run = ([], Throw "Invalid duration. Must be a number greater than 0."))
  /\ (completion run = Normal false <->
      moderator = None
      /\ exists u d releaseTime,
           user = Some u /\ duration = Some d /\ 0 < d
           /\ database_get env (id u) = Normal (Some releaseTime)
           /\ date_now env 0%nat < releaseTime)
  /\ (forall u, user = Some u -> completion run = Normal false ->
        effects run = [DatabaseGet (id u); DateNow])
  /\ (forall userId, moderator <> None -> ~ In (DatabaseGet userId) (effects run)).
Proof.
  intros run. subst run. unfold pit.
  destruct user as [u |].
  2:{ repeat split; try done.
      - intros (_ & ? & ? & ? & [=] & _).
      - by intros ? _ []. }
  split; [done |].
  destruct duration as [d |].
  2:{ split; [done |]. split; [| split; [done | by intros ? _ []]]. split; [done |].
      intros (_ & ? & ? & ? & _ & [=] & _). }
  destruct (Z.leb_spec d 0) as [Hle | Hlt].
  { split; [done |]. split; [| split; [done | by intros ? _ []]]. split; [done |].
    intros (_ & ? & ? & ? & _ & [= <-] & ? & _). lia. }
  split; [intros _ H; specialize (H d eq_refl); lia |].
  pose proof (commit_not_false env u d moderator comment) as Hcommit.
  unfold blocked, call, now. destruct moderator as [m |].
  - cbn -[commit].
    destruct (commit env u d (Some m) comment) as [es r] eqn:Hrun. cbn in *.
    split; [split; [done | by intros [[=] _]] |]. split; [done |].
    intros userId _ Hin. revert Hrun Hin. unfold commit, call, now. cbn.
    destruct (channels_fetch env) as [guild | e0]; cbn;
      [| intros [= <- _] [[=] | []]].
    destruct (database_run env) as [[] | e1]; cbn;
      [| intros [= <- _] [[=] | [[=] | [[=] | []]]]].
    destruct (updateRole env (id u) "pit") as [[] | e2]; cbn;
      [| intros [= <- _] [[=] | [[=] | [[=] | [[=] | []]]]]].
    destruct (user_send env (PitNotification guild d comment)) as [[] | e3]; cbn;
      match goal with |- context [logChannel_send env ?p] =>
        destruct (logChannel_send env p) as [[] | e4] end; cbn;
      intros [= <- _] Hin; repeat (destruct Hin as [Hin | Hin]; try discriminate Hin);
      done.
  - split; [| split; [| by intros ? []]].
    + destruct (database_get env (id u)) as [[releaseTime |] | e] eqn:Hget; cbn -[commit].
      * destruct (Z.ltb_spec (date_now env 0%nat) releaseTime) as [Hact | Hnot]; cbn -[commit].
        -- split; [intros _ | done]. split; [done |]. by exists u, d, releaseTime.
        -- destruct (commit env u d None comment) as [es r]. cbn in *. split; [done |].
           intros (_ & ? & ? & ? & [= <-] & _ & _ & Hget' & ?).
           rewrite Hget in Hget'. injection Hget' as <-. lia.
      * destruct (commit env u d None comment) as [es r]. cbn in *. split; [done |].
        intros (_ & ? & ? & ? & [= <-] & _ & _ & Hget' & _). congruence.
      * split; [done |]. intros (_ & ? & ? & ? & [= <-] & _ & _ & Hget' & _). congruence.
    + intros u' [= <-].
      destruct (database_get env (id u)) as [[releaseTime |] | e]; cbn -[commit]; [| | done].
      * destruct (Z.ltb (date_now env 0%nat) releaseTime); cbn -[commit]; [done |].
        destruct (commit env u d None comment) as [es r]. cbn in *. by intros ?.
      * destruct (commit env u d None comment) as [es r]. cbn in *. by intros ?.
Qed.

Lemma pit_refusals_witness :
  (database_get Examples.pit_env (id Examples.member) = Normal (Some 5000)
   /\ date_now Examples.pit_env 0%nat < 5000
   /\ pit Examples.pit_env (Some Examples.member) (Some 60000) None None
      = ([DatabaseGet (id Examples.member); DateNow], Normal false))
  /\ (Some Examples.member <> None
      /\ pit Examples.pit_env (Some Examples.member) (Some 0) None None
         = ([], Throw "Invalid duration. Must be a number greater than 0.")).
Proof.
  assert (Hnow : date_now Examples.pit_env 0%nat < 5000) by (cbn; lia).
  destruct (pit_refusals Examples.pit_env (Some Examples.member) (Some 60000) None None)
    as (_ & _ & Hfalse & Hget & _).
  destruct (pit_refusals Examples.pit_env (Some Examples.member) (Some 0) None None)
    as (_ & Hinvalid & _).
  assert (Hc : completion (pit Examples.pit_env (Some Examples.member) (Some 60000) None None)
               = Normal false).
  { apply Hfalse. split; [reflexivity |].
    exists Examples.member, 60000, 5000. repeat split; reflexivity. }
  split.
  - split; [reflexivity |]. split; [exact Hnow |].
    specialize (Hget Examples.member eq_refl Hc).
    destruct (pit Examples.pit_env (Some Examples.member) (Some 60000) None None) as [es r].
    cbn in Hc, Hget. by subst.
  - split; [discriminate |]. apply Hinvalid; [discriminate |].
    intros d [= <-]. lia.
Defined.

(** X21.  When [pit] is not refused and the fetch of the log channel, the
    insert, the role update and the confirmation go through, it returns
    [true] whether or not the direct message to the user could be sent.
    Its calls are then, in this order: the query for the latest timeout and
    [Date.now()] (only without a moderator), the fetch of the log channel,
    [Date.now()], the insert of one row with the moderator's id (or [null])
    and that time, the role update, the direct message to the user, a debug
    log if that message failed, and one confirmation to the log channel,
    whose [notifSent] tells whether the direct message went through. *)
Theorem pit_commits (env : Env) (u : User) (d : Z) (moderator : option User)
        (comment : option string) (guild : string) :
  0 < d ->
  completion (blocked env u moderator) = Normal false ->
  channels_fetch env = Normal guild ->
  database_run env = Normal tt ->
  updateRole env (id u) "pit" = Normal tt ->
  let notifSent := match user_send env (PitNotification guild d comment) with
                   | Normal _ => true
                   | Throw _ => false
                   end in
  logChannel_send env (PitConfirmation u moderator d comment notifSent) = Normal tt ->
  let run := pit env (Some u) (Some d) moderator comment in
  completion run = Normal true
  /\ effects run
     = match moderator with
       | Some _ => []
       | None => [DatabaseGet (id u); DateNow]
       end
       ++ [ChannelsFetch (logChannelId env);
           DateNow;
           DatabaseInsert (id u) (id <$> moderator) d comment
                          (date_now env (evaluated moderator));
           UpdateRole (id u) "pit";
           UserSend (PitNotification guild d comment)]
       ++ match user_send env (PitNotification guild d comment) with
          | Normal _ => []
          | Throw err => [LogDebug (username u) err]
          end
       ++ [LogChannelSend (PitConfirmation u moderator d comment notifSent)]
  /\ writes (effects run)
     = [DatabaseInsert (id u) (id <$> moderator) d comment (date_now env (evaluated moderator));
        UpdateRole (id u) "pit";
        UserSend (PitNotification guild d comment);
        LogChannelSend (PitConfirmation u moderator d comment notifSent)].
Proof.
  intros Hd Hblocked Hch Hrun Hrole notifSent Hlog run. subst run.
  assert (Hrun' : pit env (Some u) (Some d) moderator comment
                  = (match moderator with
                     | Some _ => []
                     | None => [DatabaseGet (id u); DateNow]
                     end
                     ++ effects (commit env u d moderator comment),
                     completion (commit env u d moderator comment))).
  { unfold pit. destruct (Z.leb_spec d 0); [lia |].
    revert Hblocked. unfold blocked, call, now. destruct moderator as [m |].
    - intros _. cbn -[commit]. by destruct (commit env u d (Some m) comment).
    - destruct (database_get env (id u)) as [[r |] | e]; cbn -[commit]; [| | done].
      + intros [= ->]. cbn -[commit]. by destruct (commit env u d None comment).
      + intros _. by destruct (commit env u d None comment). }
  rewrite Hrun', (commit_calls env u d moderator comment guild Hch Hrun Hrole Hlog).
  fold notifSent. cbn [effects completion fst snd]. split; [done |]. split; [done |].
  destruct moderator as [m |];
    destruct (user_send env (PitNotification guild d comment)) as [[] | err]; reflexivity.
Qed.

Lemma pit_commits_witness :
  0 < 60000
  /\ completion (blocked Examples.pit_env Examples.member (Some Examples.moderator)) = Normal false
  /\ pit Examples.pit_env (Some Examples.member) (Some 60000)
       (Some Examples.moderator) (Some "spam")
     = ([ChannelsFetch "99";
         DateNow;
         DatabaseInsert "7" (Some "1") 60000 (Some "spam") 1000;
         UpdateRole "7" "pit";
         UserSend (PitNotification "G" 60000 (Some "spam"));
         LogDebug "moon" "DiscordAPIError: Cannot send messages to this user";
         LogChannelSend (PitConfirmation Examples.member (Some Examples.moderator) 60000
                           (Some "spam") false)],
        Normal true).
Proof.
  assert (Hd : 0 < 60000) by lia.
  split; [exact Hd |]. split; [reflexivity |].
  destruct (pit_commits Examples.pit_env Examples.member 60000 (Some Examples.moderator)
              (Some "spam") "G" Hd eq_refl eq_refl eq_refl eq_refl eq_refl)
    as (Hc & Heff & _).
  destruct (pit Examples.pit_env (Some Examples.member) (Some 60000)
              (Some Examples.moderator) (Some "spam")) as [es r].
  cbn [completion effects fst snd] in Hc, Heff. by subst.
Defined.

(** ** More on the commands and the embeds *)

Import Application Commands Logger.


(** X11.  The [reload] command and its definition agree: when
    [registerEventHandlerFile] does not reject, the handler replies, exactly
    once, exactly for the subcommands the definition declares; for any
    other subcommand it does nothing. *)
Theorem reload_definition_matches_handler (master : Master) (interaction : Interaction) :
  (forall e, registerEventHandlerFile master (getString interaction "file") "reload" <> Throw e) ->
  (In (getSubcommand interaction) (Reload.subcommands Reload.definition) <->
   length (Reload.replies (effects (Reload.handler master interaction))) = 1%nat)
  /\ (In (getSubcommand interaction) (Reload.subcommands Reload.definition) \/
      Reload.handler master interaction = ([], Normal tt)).
Proof.
  intros Hok. change (Reload.subcommands Reload.definition) with ["event"; "slash"].
  unfold Reload.handler.
  destruct (String.eqb_spec (getSubcommand interaction) "event") as [-> | Hev].
  - cbn. destruct (registerEventHandlerFile master _ _) as [ok | e] eqn:Hreg;
      [| by destruct (Hok e)].
    destruct (truthy ok); cbn; split; tauto.
  - destruct (String.eqb_spec (getSubcommand interaction) "slash") as [-> | Hsl]; cbn.
    + split; tauto.
    + split; [| by right]. split; [intros [? | [? | []]]; congruence | done].
Qed.

Lemma reload_definition_matches_handler_witness :
  (forall e, registerEventHandlerFile Examples.master_fails
               (getString Examples.reload_event "file") "reload" <> Throw e)
  /\ length (Reload.replies (effects (Reload.handler Examples.master_fails Examples.reload_event)))
     = 1%nat.
Proof.
  assert (Hok : forall e, registerEventHandlerFile Examples.master_fails
                            (getString Examples.reload_event "file") "reload" <> Throw e)
    by discriminate.
  split; [exact Hok |].
  destruct (reload_definition_matches_handler Examples.master_fails Examples.reload_event Hok)
    as [Hiff _].
  apply Hiff. by left.
Defined.

(** X14.  The fields of the "Message Updated" embed: the old content, or "Uh
    oh!" exactly when the old message is [null] or has no [content]
    property; "Old Attachments" and "New Attachments" only for messages that
    have attachments; then always "New Message"; and "Link" and "When" at
    the end.  There are between four and six fields. *)
Theorem messageUpdate_mainFields_shape (oldMessage : option Message) (newMessage : Message) :
  let mainFields := messageUpdate_mainFields oldMessage newMessage in
  let names := map fst mainFields in
  (In uh_oh mainFields <->
   oldMessage = None \/ exists old, oldMessage = Some old /\ msg_content old = None)
  /\ (forall old content,
        oldMessage = Some old -> msg_content old = Some content ->
        head mainFields = Some ("Old Message", VStr content))
  /\ (In "Old Attachments" names ->
      exists old, oldMessage = Some old /\ msg_attachments old <> [])
  /\ (In "New Attachments" names -> msg_attachments newMessage <> [])
  /\ In ("New Message", content_value newMessage) mainFields
  /\ (exists front link when_,
        mainFields = front ++ [("Link", link); ("When", when_)])
  /\ (4 <= length mainFields <= 6)%nat.
Proof.
  intros mainFields names. subst mainFields names. unfold messageUpdate_mainFields.
  assert (Hempty : forall atts : list (string * Attachment),
            nonempty (attach_list (map snd atts)) = true -> atts <> []).
  { intros atts H ->. discriminate H. }
  set (newAttachList := attach_list (map snd (msg_attachments newMessage))).
  set (tail := [("Link", VStr (channel_toString (msg_channel newMessage) +:+ " / "
                               +:+ url_text newMessage));
                ("When", VStr ("<t:" +:+ pretty (round_seconds (msg_editedTimestamp newMessage))
                               +:+ ":R>"))]).
  set (newPart := if nonempty newAttachList then [("New Attachments", VStr newAttachList)]
                  else []).
  set (oldPart := match oldMessage with
                  | Some old =>
                      match msg_content old with
                      | Some content =>
                          ("Old Message", VStr content)
                          :: (if nonempty (attach_list
                                             (map snd (from_option msg_attachments []
                                                         oldMessage)))
                              then [("Old Attachments",
                                     VStr (attach_list
                                             (map snd (from_option msg_attachments []
                                                         oldMessage))))]
                              else [])
                      | None => [uh_oh]
                      end
                  | None => [uh_oh]
                  end).
  assert (Hnew_names : forall name, In name (map fst newPart) -> name = "New Attachments").
  { intros name. subst newPart. destruct (nonempty newAttachList); cbn; intuition congruence. }
  assert (Htail_names : forall name, In name (map fst tail) -> name = "Link" \/ name = "When").
  { intros name. subst tail. cbn. intuition congruence. }
  assert (Hrest : forall field,
            In field ([("New Message", content_value newMessage)] ++ newPart ++ tail) ->
            fst field = "New Message" \/ fst field = "New Attachments"
            \/ fst field = "Link" \/ fst field = "When").
  { intros field [[<- | []] | [Hin | Hin]%in_app_iff]%in_app_iff; [by left | |].
    - right; left. apply Hnew_names, in_map_iff. by exists field.
    - right; right. apply Htail_names, in_map_iff. by exists field. }
  split; [| split; [| split; [| split; [| split; [| split]]]]].
  - rewrite in_app_iff. split.
    + intros [Hin | Hin].
      * subst oldPart. destruct oldMessage as [old |]; [| by left].
        destruct (msg_content old) eqn:Hcontent; [| right; by exists old].
        cbn [from_option] in Hin. unfold uh_oh in Hin.
        destruct (nonempty (attach_list (map snd (msg_attachments old))));
          cbn in Hin; intuition discriminate.
      * apply Hrest in Hin. cbn in Hin. intuition discriminate.
    + intros [-> | (old & -> & Hcontent)]; left; subst oldPart; [by left |].
      rewrite Hcontent. by left.
  - intros old content -> Hcontent. subst oldPart. by rewrite Hcontent.
  - rewrite !map_app, !in_app_iff. intros [Hin | [Hin | [Hin | Hin]]].
    + subst oldPart. destruct oldMessage as [old |]; [| cbn in Hin; intuition discriminate].
      destruct (msg_content old); [| cbn in Hin; intuition discriminate].
      cbn [from_option] in Hin.
      destruct (nonempty (attach_list (map snd (msg_attachments old)))) eqn:Hold;
        [| cbn in Hin; intuition discriminate].
      exists old. split; [done | by apply Hempty].
    + cbn in Hin. intuition discriminate.
    + apply Hnew_names in Hin. discriminate.
    + apply Htail_names in Hin. intuition discriminate.
  - rewrite !map_app, !in_app_iff. intros [Hin | [Hin | [Hin | Hin]]].
    + subst oldPart. destruct oldMessage as [old |]; [| cbn in Hin; intuition discriminate].
      destruct (msg_content old); [| cbn in Hin; intuition discriminate].
      cbn [from_option] in Hin.
      destruct (nonempty (attach_list (map snd (msg_attachments old))));
        cbn in Hin; intuition discriminate.
    + cbn in Hin. intuition discriminate.
    + subst newPart. destruct (nonempty newAttachList) eqn:Hnew; [| destruct Hin].
      by apply Hempty.
    + apply Htail_names in Hin. intuition discriminate.
  - rewrite !in_app_iff. right; left. by left.
  - eexists (oldPart ++ [("New Message", content_value newMessage)] ++ newPart), _, _.
    subst tail. rewrite <- !app_assoc. reflexivity.
  - rewrite !length_app. subst oldPart newPart tail. cbn [length].
    destruct oldMessage as [old |]; [destruct (msg_content old) |]; cbn [from_option length];
      repeat match goal with |- context [nonempty ?x] => destruct (nonempty x) end;
      cbn [length]; lia.
Qed.

Lemma messageUpdate_mainFields_shape_witness :
  let old := Examples.with_attachments (Examples.cached "A") [("1", Examples.picture)] in
  msg_content old = Some "hello"
  /\ head (messageUpdate_mainFields (Some old) (Examples.cached "A"))
     = Some ("Old Message", VStr "hello")
  /\ In uh_oh (messageUpdate_mainFields None (Examples.cached "A")).
Proof.
  intros old. split; [reflexivity |].
  destruct (messageUpdate_mainFields_shape (Some old) (Examples.cached "A"))
    as (_ & Hhead & _).
  destruct (messageUpdate_mainFields_shape None (Examples.cached "A")) as (Huh & _).
  split; [exact (Hhead old "hello" eq_refl eq_refl) | apply Huh; by left].
Defined.

(** ** The modmail templates *)

Import MessageTemplates.

Lemma append_char_inj (a b : string) (c : Ascii.ascii) :
  a +:+ String c "" = b +:+ String c "" -> a = b.
Proof.
  revert b. induction a as [| x a IH]; intros [| y b] H; cbn in H.
  - reflexivity.
  - injection H as _ H. destruct b; discriminate H.
  - injection H as _ H. destruct a; discriminate H.
  - injection H as -> H. f_equal. by apply IH.
Qed.

Lemma role_mention_inj (roleId roleId' : string) :
  role_mention roleId = role_mention roleId' -> roleId = roleId'.
Proof.
  unfold role_mention. intros H. apply (String.app_inj "<@&") in H.
  by apply append_char_inj in H.
Qed.

(** X22.  [messageReceived] reports one message: the target of the interaction
    when there is one, whatever the direct message, else the direct message.
    Description, footer and files are those of that message, the link is
    set only for an interaction, and without either the response has the
    title only.  A report through an interaction and a direct message with
    the same contents differ in the link only. *)
Theorem messageReceived_reports_one_message
        (interaction : option Interaction) (message : option Message) :
  (exists embed,
     embeds (messageReceived interaction message) = [embed]
     /\ embed_title embed = Some "Message received"
     /\ embed_description embed = content <$> reported interaction message
     /\ embed_footer embed =
        (fun m => {| text := username (author m); icon_url := avatar_text (author m) |})
          <$> reported interaction message
     /\ embed_url embed = (fun i => url (targetMessage i)) <$> interaction)
  /\ files (messageReceived interaction message)
     = (fun m => values (attachments m)) <$> reported interaction message
  /\ (forall i, interaction = Some i ->
        messageReceived interaction message = messageReceived (Some i) None)
  /\ (forall m,
        files (messageReceived (Some {| targetMessage := m |}) None)
        = files (messageReceived None (Some m))
        /\ map embed_description (embeds (messageReceived (Some {| targetMessage := m |}) None))
           = map embed_description (embeds (messageReceived None (Some m)))
        /\ map embed_footer (embeds (messageReceived (Some {| targetMessage := m |}) None))
           = map embed_footer (embeds (messageReceived None (Some m)))).
Proof.
  repeat split.
  - destruct interaction as [i |], message as [m |]; cbn; eexists; repeat split.
  - by destruct interaction as [i |], message as [m |].
  - intros i ->. by destruct message.
Qed.

Lemma messageReceived_reports_one_message_witness :
  messageReceived (Some {| targetMessage := Examples.report |})
                  (Some (Examples.answer Examples.responder))
  = messageReceived (Some {| targetMessage := Examples.report |}) None.
Proof.
  destruct (messageReceived_reports_one_message
              (Some {| targetMessage := Examples.report |})
              (Some (Examples.answer Examples.responder))) as (_ & _ & Hi & _).
  exact (Hi _ eq_refl).
Defined.

(** X23.  The confirmation sent to the reporting user is always ephemeral, has
    one embed and no files; its title tells whether the ticket was created;
    and of the reported message it discloses the link only: two
    interactions whose targets have the same link, and any two direct
    messages, are confirmed alike. *)
Theorem ticketConfirmation_discloses_link_only
        (interaction interaction' : option Interaction) (message message' : option Message)
        (created : bool) :
  ephemeral (ticketConfirmation interaction message created) = Some true
  /\ files (ticketConfirmation interaction message created) = None
  /\ map embed_title (embeds (ticketConfirmation interaction message created))
     = [Some (if created then "Ticket Created" else "Ticket Updated")]
  /\ ((fun i => url (targetMessage i)) <$> interaction
      = (fun i => url (targetMessage i)) <$> interaction' ->
      (interaction = None -> (message = None <-> message' = None)) ->
      ticketConfirmation interaction message created
      = ticketConfirmation interaction' message' created).
Proof.
  repeat split.
  intros Hurl Hmsg. unfold ticketConfirmation.
  destruct interaction as [i |], interaction' as [i' |]; try discriminate Hurl.
  - cbn in Hurl. injection Hurl as ->. reflexivity.
  - specialize (Hmsg eq_refl).
    destruct message as [m |], message' as [m' |]; try reflexivity.
    + destruct Hmsg as [_ H]. discriminate (H eq_refl).
    + destruct Hmsg as [H _]. discriminate (H eq_refl).
Qed.

Lemma ticketConfirmation_discloses_link_only_witness :
  ticketConfirmation None (Some Examples.report) true
  = ticketConfirmation None (Some (Examples.answer Examples.responder)) true.
Proof.
  destruct (ticketConfirmation_discloses_link_only
              None None (Some Examples.report) (Some (Examples.answer Examples.responder)) true)
    as (_ & _ & _ & H).
  apply H; [reflexivity |]. intros _. split; discriminate.
Defined.

(** X24.  The response shown to the user does not tell who wrote it: it depends
    on the content and the attachments of the moderator's message only, and
    has no footer and no link.  It carries the description and the files
    [messageReceived] would show for the same message. *)
Theorem newResponse_is_anonymous (message message' : Message) :
  (content message = content message' -> attachments message = attachments message' ->
   newResponse message = newResponse message')
  /\ map embed_footer (embeds (newResponse message)) = [None]
  /\ map embed_url (embeds (newResponse message)) = [None]
  /\ map embed_description (embeds (newResponse message))
     = map embed_description (embeds (messageReceived None (Some message)))
  /\ files (newResponse message) = files (messageReceived None (Some message)).
Proof.
  repeat split. intros Hc Ha. unfold newResponse. by rewrite Hc, Ha.
Qed.

Lemma newResponse_is_anonymous_witness :
  newResponse (Examples.answer Examples.responder)
  = newResponse (Examples.answer Examples.reporter).
Proof.
  destruct (newResponse_is_anonymous (Examples.answer Examples.responder)
                                     (Examples.answer Examples.reporter)) as (H & _).
  apply H; reflexivity.
Defined.

(** X25.  The first message of a ticket identifies the member: it has exactly
    one field named [Id], whose value is the user's id, so that two members
    with the same first message have the same id.  The [Roles] field lists,
    in the order of the cache, the mentions of exactly the roles whose name
    is not [@everyone]. *)
Theorem newTicket_identifies_member (member : GuildMember) :
  named "Id" (first_fields (newTicket member))
  = [{| name := "Id"; value := id (user member); inline := Some true |}]
  /\ (forall member', newTicket member = newTicket member' ->
        id (user member) = id (user member'))
  /\ map value (named "Roles" (first_fields (newTicket member)))
     = [String.concat " " (role_mentions (roles_cache member))]
  /\ (forall roleId,
        In (role_mention roleId) (role_mentions (roles_cache member)) <->
        exists role, In (roleId, role) (roles_cache member) /\ role_name role <> "@everyone")
  /\ (length (role_mentions (roles_cache member)) <= length (roles_cache member))%nat.
Proof.
  split; [reflexivity |]. split.
  { intros member' H. unfold newTicket in H. by injection H. }
  split; [reflexivity |]. split.
  - intros roleId. unfold role_mentions. rewrite in_map_iff. split.
    + intros ([k role] & Heq & Hin). apply role_mention_inj in Heq. cbn in Heq. subst k.
      apply filter_In in Hin as [Hin Hname]. exists role. split; [exact Hin |].
      cbn in Hname. intros Heq. rewrite Heq in Hname. discriminate Hname.
    + intros (role & Hin & Hname). exists (roleId, role). split; [reflexivity |].
      apply filter_In. split; [exact Hin |]. cbn.
      by destruct (String.eqb_spec (role_name role) "@everyone").
  - unfold role_mentions. rewrite length_map. apply List.filter_length_le.
Qed.

Lemma newTicket_identifies_member_witness :
  In (role_mention "901") (role_mentions (roles_cache Examples.ticket_member))
  /\ ~ In (role_mention "900") (role_mentions (roles_cache Examples.ticket_member)).
Proof.
  destruct (newTicket_identifies_member Examples.ticket_member) as (_ & _ & _ & Hroles & _).
  split.
  - apply Hroles. exists {| role_name := "artist" |}. split; [cbn; tauto | discriminate].
  - intros Hin. apply Hroles in Hin as (role & Hin & Hname).
    cbn in Hin. destruct Hin as [Heq | [Heq | []]].
    + injection Heq as <-. by apply Hname.
    + discriminate Heq.
Defined.
